(** * Real-estate beta dashboard: the analytics engine, embedded and verified

    The development follows [dataProcessor.js] (class [DataProcessor]) and the
    name reconciler [createMetroNameMapping] of [app.js].

    Numbers.  JavaScript computes in IEEE-754 binary64.  The development
    holds the numeric path of the engine twice.  Module [DataProcessor]
    follows the whole class with [num]: an exact rational, the two
    infinities, or NaN ([0/0] is NaN, [x/0] is an infinity, NaN is absorbing
    and is never equal to itself), without rounding and without the sign of
    zero; it carries the facts that do not depend on how a quotient or a sum
    is rounded: which branch is taken, what is looked up, sorted, stored and
    shown.  Module [Binary64] follows [getReturns], [calculateCovariance],
    [calculateVariance] and [calculateBeta] again over the binary64 numbers
    themselves, operation by operation, and carries what is said of the
    values these functions return.

    Objects.  An object used as a table is a finite map of its own
    properties.  Where the program reads or writes such a table under a key
    that comes from the data, the members every object inherits from
    [Object.prototype] are part of the model ([get], [assign]).

    Strings.  A JavaScript string is modelled by [string], one [ascii] per
    code unit: the text is taken to have no code unit above 255, and the
    character classes are those of JavaScript below that bound.

    Rows.  A parsed row is a record of a date and metric cells.  In
    [DataProcessor] a cell holds a finite number or nothing; in [Binary64]
    it holds what [parseCSV] stores: a number, a text, or nothing.  A date
    is an integer [YYYYMM]. *)

From Stdlib Require Import ZArith QArith Qcanon Qround Lia Lqa.
From Stdlib Require Import Floats.
From Stdlib Require Import Strings.String Strings.Ascii.
From stdpp Require Import gmap strings list sorting.

Local Open Scope Z_scope.

(** ** JavaScript numbers *)

Module JS.

Inductive num : Type :=
| Finite (q : Qc)
| PosInf
| NegInf
| NaN.

#[global] Instance num_eq_dec : EqDecision num.
Proof. solve_decision. Defined.

(** An integer as a canonical rational. *)
Definition Qc_ofZ (z : Z) : Qc := Q2Qc (inject_Z z).

Definition ofZ (z : Z) : num := Finite (Qc_ofZ z).
Definition ofNat (n : nat) : num := ofZ (Z.of_nat n).

Definition zero : num := ofZ 0.
Definition one : num := ofZ 1.

(** Equality of canonical rationals as a boolean that computes. *)
Definition Qc_eqb (a b : Qc) : bool := Qeq_bool (this a) (this b).

Definition Qc_sgn (a : Qc) : comparison := (this a ?= 0)%Q.

Definition neg (x : num) : num :=
  match x with
  | Finite a => Finite (- a)%Qc
  | PosInf => NegInf
  | NegInf => PosInf
  | NaN => NaN
  end.

Definition add (x y : num) : num :=
  match x, y with
  | NaN, _ | _, NaN => NaN
  | Finite a, Finite b => Finite (a + b)%Qc
  | PosInf, NegInf | NegInf, PosInf => NaN
  | PosInf, _ | _, PosInf => PosInf
  | NegInf, _ | _, NegInf => NegInf
  end.

Definition sub (x y : num) : num := add x (neg y).

(** An infinity with the sign of [s], NaN for the sign of zero. *)
Definition signedInf (s : comparison) : num :=
  match s with
  | Gt => PosInf
  | Lt => NegInf
  | Eq => NaN
  end.

Definition flip (s : comparison) : comparison := CompOpp s.

Definition mul (x y : num) : num :=
  match x, y with
  | NaN, _ | _, NaN => NaN
  | Finite a, Finite b => Finite (a * b)%Qc
  | PosInf, Finite b | Finite b, PosInf => signedInf (Qc_sgn b)
  | NegInf, Finite b | Finite b, NegInf => signedInf (flip (Qc_sgn b))
  | PosInf, PosInf | NegInf, NegInf => PosInf
  | PosInf, NegInf | NegInf, PosInf => NegInf
  end.

(** [x / y].  A zero divisor is taken as [+0]. *)
Definition div (x y : num) : num :=
  match x, y with
  | NaN, _ | _, NaN => NaN
  | Finite a, Finite b =>
      if Qc_eqb b 0 then signedInf (Qc_sgn a) else Finite (a / b)%Qc
  | Finite _, (PosInf | NegInf) => zero
  | (PosInf | NegInf), (PosInf | NegInf) => NaN
  | PosInf, Finite b =>
      match Qc_sgn b with Lt => NegInf | _ => PosInf end
  | NegInf, Finite b =>
      match Qc_sgn b with Lt => PosInf | _ => NegInf end
  end.

(** [Math.pow(x, e)] for a natural exponent. *)
Fixpoint Math_pow (x : num) (e : nat) : num :=
  match e with
  | O => one
  | S e' => mul x (Math_pow x e')
  end.

(** [x === y] on numbers. *)
Definition strictEq (x y : num) : bool :=
  match x, y with
  | Finite a, Finite b => Qc_eqb a b
  | PosInf, PosInf | NegInf, NegInf => true
  | _, _ => false
  end.

(** ToBoolean on numbers: [0] and NaN are falsy. *)
Definition truthy (x : num) : bool :=
  match x with
  | Finite a => negb (Qc_eqb a 0)
  | PosInf | NegInf => true
  | NaN => false
  end.

(** A possibly [null] number, as [calculateBeta] returns it. *)
Definition nullable : Type := option num.

(** [v || 0] on a nullable number. *)
Definition orZero (v : nullable) : num :=
  match v with
  | Some x => if truthy x then x else zero
  | None => zero
  end.

(** The outcome of a call: a value, or an uncaught [TypeError]. *)
Inductive completion (A : Type) : Type :=
| Normal (a : A)
| TypeError.
Arguments Normal {A} a.
Arguments TypeError {A}.

#[global] Instance completion_eq_dec {A} `{EqDecision A} :
  EqDecision (completion A).
Proof. solve_decision. Defined.

#[global] Instance completion_ret : MRet completion := fun _ a => Normal a.
#[global] Instance completion_bind : MBind completion := fun _ _ k c =>
  match c with
  | Normal a => k a
  | TypeError => TypeError
  end.

(** ** Plain objects *)

(** The names of the members of [Object.prototype], which every object
    literal inherits.  Each holds a function, except [__proto__], an
    accessor that reads as the prototype itself: all of them are truthy,
    and none is an array. *)
Definition prototypeNames : list string :=
  ["constructor"; "__defineGetter__"; "__defineSetter__"; "hasOwnProperty";
   "__lookupGetter__"; "__lookupSetter__"; "isPrototypeOf";
   "propertyIsEnumerable"; "toString"; "valueOf"; "__proto__";
   "toLocaleString"]%string.

Definition inherited (key : string) : bool :=
  bool_decide (key ∈ prototypeNames).

(** What [o[key]] reads on an object literal whose own properties are [o]:
    an own property first, then a member of the prototype. *)
Inductive property (V : Type) : Type :=
| Own (v : V)
| Inherited
| Undefined.
Arguments Own {V} v.
Arguments Inherited {V}.
Arguments Undefined {V}.

Definition get {V} (o : gmap string V) (key : string) : property V :=
  match o !! key with
  | Some v => Own v
  | None => if inherited key then Inherited else Undefined
  end.

(** [o[key] = v].  Under the key [__proto__] the assignment runs the
    inherited setter and creates no own property; the values this program
    assigns under such a key (a text, a number, [Object.prototype] itself)
    leave the object as it is. *)
Definition assign {V} (o : gmap string V) (key : string) (v : V)
  : gmap string V :=
  if String.eqb key "__proto__" then o else <[key := v]> o.

End JS.

(** ** Arrays *)

Section ArraySort.
Context {A : Type} (cmp : A -> A -> Z).

(** [x] stood before every element of [l] in the array: it stays in front
    of the elements it compares equal to. *)
Fixpoint sortInsert (x : A) (l : list A) : list A :=
  match l with
  | [] => [x]
  | y :: l' => if cmp x y <=? 0 then x :: y :: l' else y :: sortInsert x l'
  end.

(** [l.sort(cmp)], which is stable. *)
Definition Array_sort (l : list A) : list A := foldr sortInsert [] l.
End ArraySort.

(** [s.add(d)] on a set kept in order of first insertion. *)
Definition Set_add (s : list Z) (d : Z) : list Z :=
  if bool_decide (d ∈ s) then s else s ++ [d].

(** [new Set(l)] *)
Definition Set_from (l : list Z) : list Z := fold_left Set_add l [].

(** ** The beta engine of [DataProcessor] *)

Module DataProcessor.
Import JS.

Inductive metric : Type :=
| active_listing_count
| new_listing_count
| pending_listing_count
| median_listing_price.

(** A metric cell of a parsed row: a finite number, or nothing usable
    ([undefined], or the empty text of an empty field). *)
Definition cell : Type := option Qc.

(** One parsed row.  The date is the integer [YYYYMM]; [row_state] is the
    column [state] as a property key; a label column holds a text or
    nothing. *)
Record row : Type := {
  month_date_yyyymm : Z;
  row_state : string;
  row_cbsa_title : option string;
  row_metro_name : option string;
  row_metro : option string;
  row_active_listing_count : cell;
  row_new_listing_count : cell;
  row_pending_listing_count : cell;
  row_median_listing_price : cell;
  row_mm : metric -> cell;   (* the precomputed [<metric>_mm] columns *)
  row_yy : metric -> cell    (* the precomputed [<metric>_yy] columns *)
}.

(** [row[metric]] *)
Definition field (metric : metric) (r : row) : cell :=
  match metric with
  | active_listing_count => row_active_listing_count r
  | new_listing_count => row_new_listing_count r
  | pending_listing_count => row_pending_listing_count r
  | median_listing_price => row_median_listing_price r
  end.

(** [parseInt] of an integer-valued date. *)
Definition parseInt (d : Z) : Z := d.

Definition cellTruthy (c : cell) : bool :=
  match c with
  | Some q => truthy (Finite q)
  | None => false
  end.

(** [c !== 0] *)
Definition cellNotZero (c : cell) : bool :=
  match c with
  | Some q => negb (strictEq (Finite q) zero)
  | None => true
  end.

(** The number a cell stands for in arithmetic. *)
Definition cellNum (c : cell) : num :=
  match c with
  | Some q => Finite q
  | None => NaN
  end.

Record betaTriple : Type := {
  beta_5y : nullable;
  beta_3y : nullable;
  beta_1y : nullable
}.

Inductive window : Type := w5y | w3y | w1y.

(** 5 years = 60 months, 3 years = 36 months, 1 year = 12 months. *)
Definition monthsOf (w : window) : nat :=
  match w with
  | w5y => 60
  | w3y => 36
  | w1y => 12
  end.

Definition betaOf (t : betaTriple) (w : window) : nullable :=
  match w with
  | w5y => beta_5y t
  | w3y => beta_3y t
  | w1y => beta_1y t
  end.

Record stateInfo : Type := {
  state_name : string;
  latest_data : option row;
  betas : metric -> betaTriple
}.

(** The fields of [this] the engine reads and writes. *)
Record processor : Type := {
  nationalData : list row;
  stateData : gmap string (list row);
  metroData : gmap string (list row);
  processedBetas : gmap string stateInfo;
  processedMetroBetas : gmap string stateInfo
}.

(** The comparator of every sort by date: newest first. *)
Definition byDateDescending (a b : row) : Z :=
  parseInt (month_date_yyyymm b) - parseInt (month_date_yyyymm a).

(** The constructor. *)
Definition constructor : processor :=
  {| nationalData := [];
     stateData := ∅;
     metroData := ∅;
     processedBetas := ∅;
     processedMetroBetas := ∅ |}.

(** [loadNationalData], from the parsed rows. *)
Definition loadNationalData (this : processor) (rows : list row) : processor :=
  {| nationalData := Array_sort byDateDescending rows;
     stateData := stateData this;
     metroData := metroData this;
     processedBetas := processedBetas this;
     processedMetroBetas := processedMetroBetas this |}.

(** [if (!store[key]) store[key] = []; store[key].push(row)].  A key that
    names a member of [Object.prototype], and is no own property of the
    store, reads as that member: it is truthy, so nothing is stored, and it
    has no [push], so the call raises. *)
Definition pushRow (store : gmap string (list row)) (key : string) (r : row)
  : completion (gmap string (list row)) :=
  let store' :=
    match get store key with
    | Undefined => <[key := []]> store
    | _ => store
    end in
  match get store' key with
  | Own rows => Normal (<[key := rows ++ [r]]> store')
  | _ => TypeError
  end.

(** [rows.forEach(row => ...)] with the key [key(row)]: the first push
    that raises ends the loop. *)
Definition groupRows (key : row -> string) (rows : list row)
  (store : gmap string (list row)) : completion (gmap string (list row)) :=
  fold_left (fun acc r => store' ← acc; pushRow store' (key r) r) rows
    (mret store).

(** [loadStateData], from the parsed rows: group by state, then sort every
    group. *)
Definition loadStateData (this : processor) (stateRows : list row)
  : completion processor :=
  grouped ← groupRows row_state stateRows (stateData this);
  mret {| nationalData := nationalData this;
          stateData := Array_sort byDateDescending <$> grouped;
          metroData := metroData this;
          processedBetas := processedBetas this;
          processedMetroBetas := processedMetroBetas this |}.

(** ToBoolean of a label column. *)
Definition labelPresent (v : option string) : bool :=
  match v with
  | Some s => negb (String.eqb s "")
  | None => false
  end.

(** [row.cbsa_title || row.metro_name || row.metro], as a property key. *)
Definition metroKey (r : row) : string :=
  let chosen :=
    if labelPresent (row_cbsa_title r) then row_cbsa_title r
    else if labelPresent (row_metro_name r) then row_metro_name r
    else row_metro r in
  default "undefined"%string chosen.

(** [loadMetroData], from the parsed rows.  The function catches what its
    body raises and then sets [metroData] to an empty object. *)
Definition loadMetroData (this : processor) (metroRows : list row) : processor :=
  {| nationalData := nationalData this;
     stateData := stateData this;
     metroData :=
       match groupRows metroKey metroRows (metroData this) with
       | Normal grouped => Array_sort byDateDescending <$> grouped
       | TypeError => ∅
       end;
     processedBetas := processedBetas this;
     processedMetroBetas := processedMetroBetas this |}.

Definition getCommonDates (stateData nationalData : list row) : list Z :=
  let stateDates := Set_from (map month_date_yyyymm stateData) in
  let nationalDates := Set_from (map month_date_yyyymm nationalData) in
  Array_sort (fun a b => b - a)
    (map parseInt (filter (fun date => date ∈ nationalDates) stateDates)).

Definition getCommonDatesMetro (metroData nationalData : list row) : list Z :=
  let metroDates := Set_from (map month_date_yyyymm metroData) in
  let nationalDates := Set_from (map month_date_yyyymm nationalData) in
  Array_sort (fun a b => b - a)
    (map parseInt (filter (fun date => date ∈ nationalDates) metroDates)).

(** The lookup table of [getReturns]: a later row of the same date replaces
    an earlier one. *)
Definition buildDataMap (timeSeries : list row) : gmap Z row :=
  fold_left (fun dataMap r => <[parseInt (month_date_yyyymm r) := r]> dataMap)
    timeSeries ∅.

(** [dataMap[date]?.[metric]] *)
Definition valueAt (dataMap : gmap Z row) (metric : metric) (date : Z) : cell :=
  dataMap !! date ≫= field metric.

(** The loop of [getReturns] over [dates[i]], [dates[i + 1]]. *)
Fixpoint returnsLoop (dataMap : gmap Z row) (metric : metric) (dates : list Z)
  : list num :=
  match dates with
  | currentDate :: ((previousDate :: _) as rest) =>
      let currentValue := valueAt dataMap metric currentDate in
      let previousValue := valueAt dataMap metric previousDate in
      if cellTruthy currentValue && cellTruthy previousValue
         && cellNotZero previousValue
      then div (sub (cellNum currentValue) (cellNum previousValue))
               (cellNum previousValue)
           :: returnsLoop dataMap metric rest
      else returnsLoop dataMap metric rest
  | _ => []
  end.

Definition getReturns (timeSeries : list row) (metric : metric) (dates : list Z)
  : list num :=
  returnsLoop (buildDataMap timeSeries) metric dates.

Definition getMetroReturns (timeSeries : list row) (metric : metric)
  (dates : list Z) : list num :=
  returnsLoop (buildDataMap timeSeries) metric dates.

(** [x.reduce((sum, val) => sum + val, 0)] *)
Definition sumReduce (x : list num) : num := fold_left add x zero.

(** [x[i]]; out of range the read is [undefined], NaN in arithmetic. *)
Definition at_ (x : list num) (i : nat) : num := nth i x NaN.

Definition calculateCovariance (x y : list num) : num :=
  let n := length x in
  if negb (n =? length y)%nat || (n =? 0)%nat then zero
  else
    let meanX := div (sumReduce x) (ofNat n) in
    let meanY := div (sumReduce y) (ofNat n) in
    let covariance :=
      fold_left
        (fun covariance i =>
           add covariance (mul (sub (at_ x i) meanX) (sub (at_ y i) meanY)))
        (seq 0 n) zero in
    div covariance (sub (ofNat n) one).

Definition calculateVariance (x : list num) : num :=
  let n := length x in
  if (n =? 0)%nat then zero
  else
    let mean := div (sumReduce x) (ofNat n) in
    let variance :=
      fold_left
        (fun variance i => add variance (Math_pow (sub (at_ x i) mean) 2))
        (seq 0 n) zero in
    div variance (sub (ofNat n) one).

(** [timeSeries.forEach] on [undefined] raises. *)
Definition seriesOf (store : gmap string (list row)) (name : string)
  : completion (list row) :=
  match store !! name with
  | Some timeSeries => Normal timeSeries
  | None => TypeError
  end.

Definition calculateBeta (this : processor) (state : string) (metric : metric)
  (months : nat) (commonDates : list Z) : completion nullable :=
  if (length commonDates <? months)%nat then mret None
  else
    let relevantDates := take months commonDates in
    stateSeries ← seriesOf (stateData this) state;
    let stateReturns := getReturns stateSeries metric relevantDates in
    let nationalReturns := getReturns (nationalData this) metric relevantDates in
    if negb (length stateReturns =? length nationalReturns)%nat
       || (length stateReturns <? 2)%nat
    then mret None
    else
      let covariance := calculateCovariance stateReturns nationalReturns in
      let nationalVariance := calculateVariance nationalReturns in
      if strictEq nationalVariance zero then mret None
      else mret (Some (div covariance nationalVariance)).

Definition calculateMetroBeta (this : processor) (metro : string)
  (metric : metric) (months : nat) (commonDates : list Z)
  : completion nullable :=
  if (length commonDates <? months)%nat then mret None
  else
    let relevantDates := take months commonDates in
    metroSeries ← seriesOf (metroData this) metro;
    let metroReturns := getMetroReturns metroSeries metric relevantDates in
    let nationalReturns := getReturns (nationalData this) metric relevantDates in
    if negb (length metroReturns =? length nationalReturns)%nat
       || (length metroReturns <? 2)%nat
    then mret None
    else
      let covariance := calculateCovariance metroReturns nationalReturns in
      let nationalVariance := calculateVariance nationalReturns in
      if strictEq nationalVariance zero then mret None
      else mret (Some (div covariance nationalVariance)).

Definition betasOf (this : processor) (state : string)
  (commonDates : list Z) (metric : metric) : completion betaTriple :=
  b5 ← calculateBeta this state metric 60 commonDates;
  b3 ← calculateBeta this state metric 36 commonDates;
  b1 ← calculateBeta this state metric 12 commonDates;
  mret {| beta_5y := b5; beta_3y := b3; beta_1y := b1 |}.

Definition calculateStateBetas (this : processor) (state : string)
  : completion stateInfo :=
  stateTimeSeries ← seriesOf (stateData this) state;
  let commonDates := getCommonDates stateTimeSeries (nationalData this) in
  active ← betasOf this state commonDates active_listing_count;
  new ← betasOf this state commonDates new_listing_count;
  pending ← betasOf this state commonDates pending_listing_count;
  median ← betasOf this state commonDates median_listing_price;
  mret {| state_name := state;
          latest_data := stateTimeSeries !! 0%nat;
          betas := fun metric =>
            match metric with
            | active_listing_count => active
            | new_listing_count => new
            | pending_listing_count => pending
            | median_listing_price => median
            end |}.

Definition metroBetasOf (this : processor) (metro : string)
  (commonDates : list Z) (metric : metric) : completion betaTriple :=
  b5 ← calculateMetroBeta this metro metric 60 commonDates;
  b3 ← calculateMetroBeta this metro metric 36 commonDates;
  b1 ← calculateMetroBeta this metro metric 12 commonDates;
  mret {| beta_5y := b5; beta_3y := b3; beta_1y := b1 |}.

Definition calculateMetroAreaBetas (this : processor) (metro : string)
  : completion stateInfo :=
  metroTimeSeries ← seriesOf (metroData this) metro;
  let commonDates := getCommonDatesMetro metroTimeSeries (nationalData this) in
  active ← metroBetasOf this metro commonDates active_listing_count;
  new ← metroBetasOf this metro commonDates new_listing_count;
  pending ← metroBetasOf this metro commonDates pending_listing_count;
  median ← metroBetasOf this metro commonDates median_listing_price;
  mret {| state_name := metro;
          latest_data := metroTimeSeries !! 0%nat;
          betas := fun metric =>
            match metric with
            | active_listing_count => active
            | new_listing_count => new
            | pending_listing_count => pending
            | median_listing_price => median
            end |}.

Definition setProcessedBetas (this : processor) (t : gmap string stateInfo)
  : processor :=
  {| nationalData := nationalData this;
     stateData := stateData this;
     metroData := metroData this;
     processedBetas := t;
     processedMetroBetas := processedMetroBetas this |}.

Definition setProcessedMetroBetas (this : processor)
  (t : gmap string stateInfo) : processor :=
  {| nationalData := nationalData this;
     stateData := stateData this;
     metroData := metroData this;
     processedBetas := processedBetas this;
     processedMetroBetas := t |}.

(** [Object.keys(o)]; the order of the keys does not matter to the tables
    built from them. *)
Definition Object_keys {V} (o : gmap string V) : list string :=
  (map_to_list o).*1.

(** [keys.forEach(body)] over a processor that [body] updates. *)
Definition forEach (keys : list string)
  (body : processor -> string -> completion processor) (this : processor)
  : completion processor :=
  fold_left (fun acc key => this' ← acc; body this' key) keys (mret this).

(** [this.processedBetas[state] = this.calculateStateBetas(state)] *)
Definition storeStateBetas (this : processor) (state : string)
  : completion processor :=
  info ← calculateStateBetas this state;
  mret (setProcessedBetas this (<[state := info]> (processedBetas this))).

Definition calculateBetas (this : processor) : completion processor :=
  forEach (Object_keys (stateData this)) storeStateBetas this.

(** [this.processedMetroBetas[metro] = this.calculateMetroAreaBetas(metro)] *)
Definition storeMetroBetas (this : processor) (metro : string)
  : completion processor :=
  info ← calculateMetroAreaBetas this metro;
  mret (setProcessedMetroBetas this
          (<[metro := info]> (processedMetroBetas this))).

Definition calculateMetroBetas (this : processor) : completion processor :=
  forEach (Object_keys (metroData this)) storeMetroBetas this.

(** [loadData], from the parsed rows of the three files; a [TypeError]
    stands for the [catch] branch, which returns [false], and [Normal] for
    the return of [true], with the processor as the call leaves it. *)
Definition loadData (this : processor)
  (nationalRows stateRows metroRows : list row) : completion processor :=
  let this := loadNationalData this nationalRows in
  this ← loadStateData this stateRows;
  let this := loadMetroData this metroRows in
  this ← calculateBetas this;
  calculateMetroBetas this.

(** ** Change calculator *)

Record changes : Type := { mom : num; yoy : num }.

Definition calculateChanges (timeSeries : option (list row)) (metric : metric)
  : changes :=
  match timeSeries with
  | None => {| mom := zero; yoy := zero |}
  | Some timeSeries =>
      if (length timeSeries <? 2)%nat then {| mom := zero; yoy := zero |}
      else
        let sortedData := Array_sort byDateDescending timeSeries in
        let currentValue := sortedData !! 0%nat ≫= field metric in
        let mom :=
          if (2 <=? length sortedData)%nat then
            let previousMonthValue := sortedData !! 1%nat ≫= field metric in
            if cellTruthy currentValue && cellTruthy previousMonthValue
               && cellNotZero previousMonthValue
            then sub (div (cellNum currentValue) (cellNum previousMonthValue)) one
            else zero
          else zero in
        let yoy :=
          if (13 <=? length sortedData)%nat then
            let yearAgoValue := sortedData !! 12%nat ≫= field metric in
            if cellTruthy currentValue && cellTruthy yearAgoValue
               && cellNotZero yearAgoValue
            then sub (div (cellNum currentValue) (cellNum yearAgoValue)) one
            else zero
          else zero in
        {| mom := mom; yoy := yoy |}
  end.

(** ** The records handed to the map *)

(** The numeric fields of one entry of [getFormattedStateData]:
    [current m] is the field [<m>], [change_mm m] is [<m>_mm], [change_yy m]
    is [<m>_yy] and [beta m w] is [<m>_beta_5y], [<m>_beta_3y] or
    [<m>_beta_1y]. *)
Record formattedEntry : Type := {
  current : metric -> num;
  change_mm : metric -> num;
  change_yy : metric -> num;
  beta : metric -> window -> num;
  last_updated : Z
}.

(** [c || 0] on a cell. *)
Definition cellOrZero (c : cell) : num :=
  if cellTruthy c then cellNum c else zero.

(** [c || x || 0] *)
Definition cellOrElse (c : cell) (x : num) : num :=
  if cellTruthy c then cellNum c else if truthy x then x else zero.

Definition formatEntry (this : processor) (state : string) (info : stateInfo)
  : completion formattedEntry :=
  match latest_data info with
  | None => TypeError
  | Some latest =>
      let stateTimeSeries := stateData this !! state in
      let medianChanges := calculateChanges stateTimeSeries median_listing_price in
      mret {| current := fun m => cellOrZero (field m latest);
              change_mm := fun m =>
                match m with
                | median_listing_price =>
                    cellOrElse (row_mm latest m) (mom medianChanges)
                | _ => cellOrZero (row_mm latest m)
                end;
              change_yy := fun m =>
                match m with
                | median_listing_price =>
                    cellOrElse (row_yy latest m) (yoy medianChanges)
                | _ => cellOrZero (row_yy latest m)
                end;
              beta := fun m w => orZero (betaOf (betas info m) w);
              last_updated := month_date_yyyymm latest |}
  end.

(** One turn of the loop of [getFormattedStateData]. *)
Definition formatState (this : processor)
  (acc : completion (gmap string formattedEntry)) (state : string)
  : completion (gmap string formattedEntry) :=
  formatted ← acc;
  match processedBetas this !! state with
  | None => TypeError
  | Some stateInfo =>
      entry ← formatEntry this state stateInfo;
      mret (<[state := entry]> formatted)
  end.

(** [getFormattedStateData]: one entry per key of [processedBetas]; a
    [TypeError] in any entry aborts the call. *)
Definition getFormattedStateData (this : processor)
  : completion (gmap string formattedEntry) :=
  fold_left (formatState this) (Object_keys (processedBetas this)) (mret ∅).

End DataProcessor.

(** ** JavaScript strings *)

Module Str.

Definition chr (c : ascii) : string := String c EmptyString.

(** The class [\s], which is also what [trim] removes: tab, line feed,
    vertical tab, form feed, carriage return, space and no-break space. *)
Definition isSpace (c : ascii) : bool :=
  let n := nat_of_ascii c in
  ((9 <=? n)%nat && (n <=? 13)%nat) || (n =? 32)%nat || (n =? 160)%nat.

(** The line terminators that [.] does not match. *)
Definition isLineTerminator (c : ascii) : bool :=
  let n := nat_of_ascii c in (n =? 10)%nat || (n =? 13)%nat.

Fixpoint trimStart (s : string) : string :=
  match s with
  | String c s' => if isSpace c then trimStart s' else s
  | EmptyString => EmptyString
  end.

Fixpoint trimEnd (s : string) : string :=
  match s with
  | EmptyString => EmptyString
  | String c s' =>
      match trimEnd s' with
      | EmptyString => if isSpace c then EmptyString else chr c
      | t => String c t
      end
  end.

(** Whether [c] occurs in [s]. *)
Fixpoint hasChar (c : ascii) (s : string) : bool :=
  match s with
  | EmptyString => false
  | String a s' => (a =? c)%char || hasChar c s'
  end.

Definition startsWithSpace (s : string) : bool :=
  match s with
  | String c _ => isSpace c
  | EmptyString => false
  end.

Fixpoint lastChar (s : string) : option ascii :=
  match s with
  | EmptyString => None
  | String c EmptyString => Some c
  | String _ s' => lastChar s'
  end.

Definition endsWithSpace (s : string) : bool :=
  match lastChar s with
  | Some c => isSpace c
  | None => false
  end.

(** [s.trim()] *)
Definition trim (s : string) : string := trimEnd (trimStart s).

(** The lower case of a code unit: [A]-[Z], and the accented capitals
    [192]-[222] other than the multiplication sign [215]. *)
Definition lowerChar (c : ascii) : ascii :=
  let n := nat_of_ascii c in
  if ((65 <=? n)%nat && (n <=? 90)%nat)
     || ((192 <=? n)%nat && (n <=? 222)%nat && negb (n =? 215)%nat)
  then ascii_of_nat (n + 32)
  else c.

(** [s.toLowerCase()] *)
Fixpoint toLowerCase (s : string) : string :=
  match s with
  | EmptyString => EmptyString
  | String c s' => String (lowerChar c) (toLowerCase s')
  end.

(** [s.includes(sub)] *)
Fixpoint includes (s sub : string) : bool :=
  String.prefix sub s
  || match s with
     | EmptyString => false
     | String _ s' => includes s' sub
     end.

(** [s.split(/[...]/)] for a character class [sep]. *)
Fixpoint split (sep : ascii -> bool) (s : string) : list string :=
  match s with
  | EmptyString => [EmptyString]
  | String c s' =>
      if sep c then EmptyString :: split sep s'
      else match split sep s' with
           | t :: ts => String c t :: ts
           | [] => [chr c]
           end
  end.

(** [s.replace(/[^...]/g, '')] for a character class [keep]. *)
Fixpoint keepOnly (keep : ascii -> bool) (s : string) : string :=
  match s with
  | EmptyString => EmptyString
  | String c s' =>
      if keep c then String c (keepOnly keep s') else keepOnly keep s'
  end.

(** [s.replace(/\s+/g, ' ')]; [inRun] holds inside a run of white space
    whose replacement has been written. *)
Fixpoint collapseFrom (inRun : bool) (s : string) : string :=
  match s with
  | EmptyString => EmptyString
  | String c s' =>
      if isSpace c then
        if inRun then collapseFrom true s'
        else String " " (collapseFrom true s')
      else String c (collapseFrom false s')
  end.

Definition collapseSpaces (s : string) : string := collapseFrom false s.

(** [s.replace(/\s+(w1|w2|...).*$/i, '')] for lower-case ASCII [words]: the
    text is cut at the first run of white space that is followed by one of
    [words], in any case, and then by no line terminator up to the end. *)
Definition hasNoLineTerminator (s : string) : bool :=
  negb (existsb isLineTerminator (list_ascii_of_string s)).

Definition tailMatches (words : list string) (s : string) : bool :=
  existsb (fun w => String.prefix w (toLowerCase s)) words
  && hasNoLineTerminator s.

Fixpoint cutAtWords (words : list string) (s : string) : string :=
  match s with
  | EmptyString => EmptyString
  | String c s' =>
      if isSpace c && tailMatches words (trimStart s') then EmptyString
      else String c (cutAtWords words s')
  end.

End Str.

(** ** Tabular parser *)

Module Parser.
Import Str.

(** The double-quote character. *)
Definition dquote : ascii := "034"%char.

(** The loop of [parseCSVLine] over the characters of the line. *)
Fixpoint parseLoop (line : string) (values : list string) (current : string)
  (inQuotes : bool) : list string :=
  match line with
  | EmptyString => values ++ [trim current]
  | String char rest =>
      if (char =? dquote)%char then parseLoop rest values current (negb inQuotes)
      else if (char =? ",")%char && negb inQuotes
           then parseLoop rest (values ++ [trim current]) EmptyString inQuotes
           else parseLoop rest values (String.append current (chr char)) inQuotes
  end.

Definition parseCSVLine (line : string) : list string :=
  parseLoop line [] EmptyString false.

End Parser.

(** ** Geography name reconciler *)

Module Reconciler.
Import Str.
Local Open Scope string_scope.

(** The table [hardcodedMappings], in the order of the source. *)
Definition hardcodedEntries : list (string * string) :=
  [
    ("New York, NY", "New York-Newark-Jersey City, NY-NJ Metro Area");
    ("New York", "New York-Newark-Jersey City, NY-NJ Metro Area");
    ("New York City", "New York-Newark-Jersey City, NY-NJ Metro Area");
    ("NYC", "New York-Newark-Jersey City, NY-NJ Metro Area");
    ("New York-Newark-Jersey City", "New York-Newark-Jersey City, NY-NJ Metro Area");
    ("New York-Newark-Jersey City, NY-NJ-PA", "New York-Newark-Jersey City, NY-NJ Metro Area");
    ("Washington, DC", "Washington-Arlington-Alexandria, DC-VA-MD-WV Metro Area");
    ("Washington", "Washington-Arlington-Alexandria, DC-VA-MD-WV Metro Area");
    ("Washington DC", "Washington-Arlington-Alexandria, DC-VA-MD-WV Metro Area");
    ("DC", "Washington-Arlington-Alexandria, DC-VA-MD-WV Metro Area");
    ("Washington-Arlington-Alexandria", "Washington-Arlington-Alexandria, DC-VA-MD-WV Metro Area");
    ("Washington-Arlington-Alexandria, DC-VA-MD-WV", "Washington-Arlington-Alexandria, DC-VA-MD-WV Metro Area");
    ("Las Vegas, NV", "Las Vegas-Henderson-North Las Vegas, NV Metro Area");
    ("Las Vegas", "Las Vegas-Henderson-North Las Vegas, NV Metro Area");
    ("Las Vegas Nevada", "Las Vegas-Henderson-North Las Vegas, NV Metro Area");
    ("Las Vegas-Henderson", "Las Vegas-Henderson-North Las Vegas, NV Metro Area");
    ("Las Vegas-Henderson-Paradise, NV", "Las Vegas-Henderson-North Las Vegas, NV Metro Area");
    ("Las Vegas-Henderson-Paradise", "Las Vegas-Henderson-North Las Vegas, NV Metro Area");
    ("Las Vegas-Henderson-North Las Vegas, NV", "Las Vegas-Henderson-North Las Vegas, NV Metro Area");
    ("Las Vegas-Henderson-North Las Vegas", "Las Vegas-Henderson-North Las Vegas, NV Metro Area");
    ("Miami, FL", "Miami-Fort Lauderdale-West Palm Beach, FL Metro Area");
    ("Miami", "Miami-Fort Lauderdale-West Palm Beach, FL Metro Area");
    ("Miami-Fort Lauderdale", "Miami-Fort Lauderdale-West Palm Beach, FL Metro Area");
    ("Miami-Fort Lauderdale-Pompano Beach, FL", "Miami-Fort Lauderdale-West Palm Beach, FL Metro Area");
    ("Miami-Fort Lauderdale-Pompano Beach", "Miami-Fort Lauderdale-West Palm Beach, FL Metro Area");
    ("San Francisco, CA", "San Francisco-Oakland-Fremont, CA Metro Area");
    ("San Francisco", "San Francisco-Oakland-Fremont, CA Metro Area");
    ("SF", "San Francisco-Oakland-Fremont, CA Metro Area");
    ("San Francisco-Oakland", "San Francisco-Oakland-Fremont, CA Metro Area");
    ("San Francisco Bay Area", "San Francisco-Oakland-Fremont, CA Metro Area");
    ("San Francisco-Oakland-Berkeley, CA", "San Francisco-Oakland-Fremont, CA Metro Area");
    ("San Francisco-Oakland-Berkeley", "San Francisco-Oakland-Fremont, CA Metro Area");
    ("Lafayette, LA", "Lafayette, LA Metro Area");
    ("Lafayette-West Lafayette, IN", "Lafayette-West Lafayette, IN Metro Area");
    ("Charleston-North Charleston, SC", "Charleston-North Charleston, SC Metro Area");
    ("Birmingham-Hoover, AL", "Birmingham, AL Metro Area");
    ("Nashville-Davidson-Murfreesboro-Franklin, TN", "Nashville-Davidson--Murfreesboro--Franklin, TN Metro Area");
    ("Atlanta-Sandy Springs-Alpharetta, GA", "Atlanta-Sandy Springs-Roswell, GA Metro Area")
  ].

(** The own properties of the object literal: a later entry of the same
    key would replace an earlier one. *)
Definition hardcodedMappings : gmap string string :=
  fold_left (fun o kv => <[kv.1 := kv.2]> o) hardcodedEntries ∅.

(** What a property of the result holds: the name of a metro area, or,
    under a label that names a member of [Object.prototype], that member
    [Object.prototype[key]]. *)
Inductive target : Type :=
| Name (cbsaName : string)
| Member (key : string).

#[global] Instance target_eq_dec : EqDecision target.
Proof. solve_decision. Defined.

(** ToBoolean of [hardcodedMappings[csvName]]. *)
Definition listed (p : JS.property string) : bool :=
  match p with
  | JS.Own canonical => negb (String.eqb canonical "")
  | JS.Inherited => true
  | JS.Undefined => false
  end.

(** ToBoolean of [mapping[csvName]]. *)
Definition mapped (p : JS.property target) : bool :=
  match p with
  | JS.Own (Name cbsaName) => negb (String.eqb cbsaName "")
  | JS.Own (Member _) => true
  | JS.Inherited => true
  | JS.Undefined => false
  end.

(** ToBoolean of [bestMatch]: a name, or [null]. *)
Definition present (v : option string) : bool :=
  match v with
  | Some s => negb (String.eqb s "")
  | None => false
  end.

Definition isAlnumOrSpace (c : ascii) : bool :=
  let n := nat_of_ascii c in
  ((97 <=? n)%nat && (n <=? 122)%nat)
  || ((48 <=? n)%nat && (n <=? 57)%nat)
  || isSpace c.

Definition normalize (name : string) : string :=
  trim (collapseSpaces (keepOnly isAlnumOrSpace (toLowerCase name))).

Definition isHyphenOrComma (c : ascii) : bool :=
  (c =? "-")%char || (c =? ",")%char.

Definition extractCityNames (name : string) : list string :=
  map normalize
    (map (cutAtWords ["metro"; "micro"; "area"; "msa"])
       (List.filter (fun part => (2 <? String.length part)%nat)
          (map trim (split isHyphenOrComma name)))).

(** [len >= minLength * 0.8], both sides multiplied by 10. *)
Definition atLeast80Percent (len minLength : nat) : bool :=
  (8 * minLength <=? 10 * len)%nat.

(** The callback of [cbsaCities.some]. *)
Definition cityMatch (city cbsaCity : string) : bool :=
  if (String.length city <? 4)%nat || (String.length cbsaCity <? 4)%nat
  then false
  else
    let minLength := Nat.min (String.length city) (String.length cbsaCity) in
    let maxLength := Nat.max (String.length city) (String.length cbsaCity) in
    if String.eqb city cbsaCity then true
    else if includes city cbsaCity
            && atLeast80Percent (String.length cbsaCity) minLength then true
    else if includes cbsaCity city
            && atLeast80Percent (String.length city) minLength then true
    else false.

(** The score of one candidate. *)
Definition scoreOf (csvNormalized : string) (csvCities : list string)
  (cbsaName : string) : Z :=
  let cbsaNormalized := normalize cbsaName in
  let cbsaCities := extractCityNames cbsaName in
  if String.eqb csvNormalized cbsaNormalized then 100
  else if includes cbsaNormalized csvNormalized then 80
  else
    let cityMatches :=
      Z.of_nat
        (length
           (List.filter
              (fun city => existsb (fun cbsaCity => cityMatch city cbsaCity)
                             cbsaCities)
              csvCities)) in
    if (0 <? cityMatches)%Z then Z.min (50 + cityMatches * 15) 90 else 0.

(** One turn of [cbsaNames.forEach] on the pair [(bestMatch, bestScore)]. *)
Definition consider (csvName csvNormalized : string) (csvCities : list string)
  (best : option string * Z) (cbsaName : string) : option string * Z :=
  if includes (toLowerCase csvName) "las vegas"
     && includes cbsaName "Las Vegas, NM"
  then best
  else
    let score := scoreOf csvNormalized csvCities cbsaName in
    if (best.2 <? score)%Z then (Some cbsaName, score) else best.

Definition bestCandidate (csvName : string) (cbsaNames : list string)
  : option string * Z :=
  fold_left (consider csvName (normalize csvName) (extractCityNames csvName))
    cbsaNames (None, 0).

(** One turn of the first [csvNames.forEach]:
    [if (hardcodedMappings[csvName]) mapping[csvName] = hardcodedMappings[csvName]]. *)
Definition applyHardcoded (mapping : gmap string target) (csvName : string)
  : gmap string target :=
  if listed (JS.get hardcodedMappings csvName)
  then match JS.get hardcodedMappings csvName with
       | JS.Own canonical => JS.assign mapping csvName (Name canonical)
       | JS.Inherited => JS.assign mapping csvName (Member csvName)
       | JS.Undefined => mapping
       end
  else mapping.

(** One turn of the second [csvNames.forEach]. *)
Definition matchOne (cbsaNames : list string) (mapping : gmap string target)
  (csvName : string) : gmap string target :=
  if mapped (JS.get mapping csvName) then mapping
  else
    let '(bestMatch, bestScore) := bestCandidate csvName cbsaNames in
    if present bestMatch && (75 <=? bestScore)%Z
    then match bestMatch with
         | Some cbsaName => JS.assign mapping csvName (Name cbsaName)
         | None => mapping
         end
    else mapping.

Definition createMetroNameMapping (csvNames cbsaNames : list string)
  : gmap string target :=
  let mapping := fold_left applyHardcoded csvNames ∅ in
  fold_left (matchOne cbsaNames) csvNames mapping.

End Reconciler.

(** * Reference notions used in the statements *)

(** Descending order of dates. *)
Definition descending (l : list Z) : Prop := Sorted (fun a b => b <= a) l.

(** A parsed field with no double quote and no white space at either end. *)
Definition fieldClean (f : string) : Prop :=
  Str.hasChar Parser.dquote f = false
  /\ Str.startsWithSpace f = false
  /\ Str.endsWithSpace f = false.

(** The overlap rule of the token stage as the specification words it: one
    token contains the other, and the shorter one is at least 80% as long as
    the longer one. *)
Definition overlapRule (a b : string) : bool :=
  (Str.includes a b || Str.includes b a)
  && (8 * Nat.max (String.length a) (String.length b)
      <=? 10 * Nat.min (String.length a) (String.length b))%nat.

(** ** Sample statistics as the specification writes them *)

Module Reference.
Import JS.

(** The sum of a series. *)
Definition total (l : list Qc) : Qc := foldr Qcplus 0%Qc l.

Definition size (l : list Qc) : Qc := Qc_ofZ (Z.of_nat (length l)).

Definition mean (l : list Qc) : Qc := (total l / size l)%Qc.

(** [Σ((x_i − mean_x)(y_i − mean_y)) / (n − 1)] *)
Definition sampleCovariance (xs ys : list Qc) : Qc :=
  (total (zip_with (fun x y => (x - mean xs) * (y - mean ys)) xs ys)
   / (size xs - 1))%Qc.

(** The same form on a single series. *)
Definition sampleVariance (ys : list Qc) : Qc := sampleCovariance ys ys.

(** The null-or-number the beta of two finite return series must be. *)
Definition betaFormula (xs ys : list Qc) : nullable :=
  if Qc_eqb (sampleVariance ys) 0 then None
  else Some (Finite (sampleCovariance xs ys / sampleVariance ys)%Qc).

End Reference.

(** ** The window of a series, pair by pair *)

Module Pairs.
Import JS DataProcessor.

(** [(dates[i], dates[i + 1])] for every [i]. *)
Definition consecutivePairs (dates : list Z) : list (Z * Z) :=
  zip dates (drop 1 dates).

(** The test of [getReturns] on one pair of dates. *)
Definition kept (dataMap : gmap Z row) (metric : metric) (p : Z * Z) : bool :=
  cellTruthy (valueAt dataMap metric p.1)
  && cellTruthy (valueAt dataMap metric p.2)
  && cellNotZero (valueAt dataMap metric p.2).

(** [(current − previous) / previous] *)
Definition fractionalChange (current previous : Qc) : Qc :=
  ((current - previous) / previous)%Qc.

Definition changeOver (dataMap : gmap Z row) (metric : metric) (p : Z * Z) : Qc :=
  match valueAt dataMap metric p.1, valueAt dataMap metric p.2 with
  | Some current, Some previous => fractionalChange current previous
  | _, _ => 0%Qc
  end.

(** The pairs of [dates] that give a return of [series]. *)
Definition keptPairs (series : list row) (metric : metric) (dates : list Z)
  : list (Z * Z) :=
  List.filter (kept (buildDataMap series) metric) (consecutivePairs dates).

(** The returns of [series] over [dates], as rationals. *)
Definition returnsQ (series : list row) (metric : metric) (dates : list Z)
  : list Qc :=
  map (changeOver (buildDataMap series) metric) (keptPairs series metric dates).

(** Steps 2 to 6 of the beta algorithm on a local and a national series:
    [null] for a calendar shorter than the window, for return series of
    different lengths or of fewer than two terms, and for a national
    variance of zero; the quotient of covariance and variance otherwise. *)
Definition windowBeta (local national : list row) (metric : metric)
  (months : nat) (calendar : list Z) : nullable :=
  if (length calendar <? months)%nat then None
  else
    let xs := returnsQ local metric (take months calendar) in
    let ys := returnsQ national metric (take months calendar) in
    if negb (length xs =? length ys)%nat || (length xs <? 2)%nat then None
    else Reference.betaFormula xs ys.

End Pairs.

(** ** Sample data *)

Module Sample.
Import JS DataProcessor.

Definition valued (z : Z) : cell := Some (Qc_ofZ z).

(** A row whose four metrics all hold [value], with no precomputed change. *)
Definition observation (date : Z) (value : cell) : row :=
  {| month_date_yyyymm := date;
     row_state := "Nevada";
     row_cbsa_title := Some "Reno, NV"%string;
     row_metro_name := None;
     row_metro := None;
     row_active_listing_count := value;
     row_new_listing_count := value;
     row_pending_listing_count := value;
     row_median_listing_price := value;
     row_mm := fun _ => None;
     row_yy := fun _ => None |}.

Definition seriesOfValues (dates : list Z) (values : list cell) : list row :=
  zip_with observation dates values.

Definition processorOf (national state : list row) : processor :=
  {| nationalData := national;
     stateData := {[ "Nevada"%string := state ]};
     metroData := {[ "Reno, NV"%string := state ]};
     processedBetas := ∅;
     processedMetroBetas := ∅ |}.

(** Three months of history, newest first. *)
Definition months3 : list Z := [202507; 202506; 202505].

Definition national3 : list row :=
  seriesOfValues months3 [valued 1210; valued 1100; valued 1000].

Definition state3 : list row :=
  seriesOfValues months3 [valued 610; valued 560; valued 500].

Definition threeMonths : processor := processorOf national3 state3.

(** Thirteen months of history, newest first. *)
Definition months13 : list Z :=
  [202507; 202506; 202505; 202504; 202503; 202502; 202501;
   202412; 202411; 202410; 202409; 202408; 202407].

Definition nationalValues : list cell :=
  map valued [1300; 1250; 1200; 1220; 1180; 1150; 1100;
              1120; 1080; 1050; 1000; 1010; 980].

Definition stateValues : list cell :=
  map valued [650; 640; 600; 615; 580; 570; 560;
              575; 540; 520; 500; 510; 480].

Definition state13 : list row := seriesOfValues months13 stateValues.

(** The same year with two empty cells: the state's newest month, and the
    national series' month 202408, the oldest of the twelve-month window. *)
Definition state13gap : list row :=
  seriesOfValues months13 (<[0%nat := None]> stateValues).

Definition national13gap : list row :=
  seriesOfValues months13 (<[11%nat := None]> nationalValues).

Definition oneYearWithGaps : processor := processorOf national13gap state13gap.

(** A quoted field: a double quote, [a], two double quotes, [b], and a
    closing double quote. *)
Definition quotedWithDoubledQuote (a b : string) : string :=
  String Parser.dquote
    (String.append a
       (String Parser.dquote
          (String Parser.dquote (String.append b (Str.chr Parser.dquote))))).


End Sample.

(** ** What loading stores *)

Module Loading.
Import JS DataProcessor.

(** No row is keyed by the name of a member of [Object.prototype]. *)
Definition ordinaryKeys (key : row -> string) (rows : list row) : Prop :=
  Forall (fun r => inherited (key r) = false) rows.

(** No own key of the store names a member of [Object.prototype]. *)
Definition ownKeysOrdinary (store : gmap string (list row)) : Prop :=
  forall k, is_Some (store !! k) -> inherited k = false.

(** The store with [r] added at the end of the rows of [key]. *)
Definition appendRow (store : gmap string (list row)) (key : string) (r : row)
  : gmap string (list row) :=
  <[key := default [] (store !! key) ++ [r]]> store.

(** The rows grouped by key, each group in the order of the file. *)
Definition grouping (key : row -> string) (rows : list row)
  (store : gmap string (list row)) : gmap string (list row) :=
  fold_left (fun store r => appendRow store (key r) r) rows store.

(** The series of a key: its rows, newest first, the rows of one date in the
    order of the file; nothing for a key that has no row. *)
Definition seriesOfKey (key : row -> string) (rows : list row) (k : string)
  : option (list row) :=
  match filter (fun r => key r = k) rows with
  | [] => None
  | own => Some (Array_sort byDateDescending own)
  end.

(** The processor after the three loading steps on a new processor, when
    the state rows are grouped without failure. *)
Definition loadedFrom (nationalRows stateRows metroRows : list row) : processor :=
  loadMetroData
    {| nationalData := Array_sort byDateDescending nationalRows;
       stateData := Array_sort byDateDescending <$> grouping row_state stateRows ∅;
       metroData := ∅;
       processedBetas := ∅;
       processedMetroBetas := ∅ |}
    metroRows.

End Loading.

(** ** The entry of a state in the formatted table *)

Module Formatted.
Import JS DataProcessor.

(** The entry [getFormattedStateData] builds for [state], if it builds one. *)
Definition entryOf (this : processor) (state : string) : option formattedEntry :=
  match processedBetas this !! state with
  | Some info =>
      match formatEntry this state info with
      | Normal entry => Some entry
      | TypeError => None
      end
  | None => None
  end.

(** The processor with the state tables and the metro tables exchanged. *)
Definition swapStores (this : processor) : processor :=
  {| nationalData := nationalData this;
     stateData := metroData this;
     metroData := stateData this;
     processedBetas := processedMetroBetas this;
     processedMetroBetas := processedBetas this |}.

End Formatted.

(** ** Reference notions for the change calculator *)

Module Changes.
Import JS DataProcessor.

(** The series as [calculateChanges] orders it: newest first. *)
Definition sortedData (timeSeries : list row) : list row :=
  Array_sort byDateDescending timeSeries.



End Changes.

(** * Further parts of the program

    The accessors and the metro table of [dataProcessor.js], its parser of
    a whole file, and from [app.js] the colour and the wording shown for a
    beta and the size classes of the metro areas.

    Built-in functions.  [parseFloat] and [isFinite] on a text are section
    variables: what is proved of [parseCSV] holds whatever they return.

    Objects.  Where the order of the keys of an object matters, in
    [categorizeMetrosBySize], the object is the list of its entries in that
    order.  Decimal literals are exact rationals, in line with the
    numbers. *)

(** A series ordered newest first. *)
Definition newestFirst (series : list DataProcessor.row) : Prop :=
  Sorted
    (fun a b => DataProcessor.month_date_yyyymm b <= DataProcessor.month_date_yyyymm a)
    series.

(** ** The accessors of [DataProcessor] *)

Module Accessors.
Import JS DataProcessor.

Definition getStateList (this : processor) : list string :=
  Object_keys (processedBetas this).

(** What [table[key] || null] returns: a stored entry (an object, which is
    truthy), a member of [Object.prototype] (truthy as well), or [null]. *)
Inductive lookedUp : Type :=
| Entry (info : stateInfo)
| PrototypeMember
| Null.

Definition orNull (p : property stateInfo) : lookedUp :=
  match p with
  | Own info => Entry info
  | Inherited => PrototypeMember
  | Undefined => Null
  end.

(** [this.processedBetas[state] || null] *)
Definition getStateBetas (this : processor) (state : string) : lookedUp :=
  orNull (get (processedBetas this) state).

Definition getAllStatesData (this : processor) : gmap string stateInfo :=
  processedBetas this.

Definition getMetroList (this : processor) : list string :=
  Object_keys (processedMetroBetas this).

(** [this.processedMetroBetas[metro] || null] *)
Definition getMetroBetas (this : processor) (metro : string) : lookedUp :=
  orNull (get (processedMetroBetas this) metro).

Definition getAllMetroData (this : processor) : gmap string stateInfo :=
  processedMetroBetas this.

End Accessors.

(** ** The formatted table of the metro areas *)

Module MetroTable.
Import JS DataProcessor.

(** The fields of one entry of [getFormattedMetroData] that a [row] of this
    development can supply: the label [cbsa_title], the numeric fields
    (the same as those of a state entry) and [metro_name].  The identifiers
    [cbsa_code] and [metro_id] are read from columns that a [row] does not
    carry; they are plain property reads and cannot fail. *)
Record formattedMetroEntry : Type := {
  cbsa_title : string;
  numbers : formattedEntry;
  metro_name : string
}.

Definition formatMetroEntry (this : processor) (metro : string)
  (metroInfo : stateInfo) : completion formattedMetroEntry :=
  match latest_data metroInfo with
  | None => TypeError
  | Some latest =>
      let metroTimeSeries := metroData this !! metro in
      let medianChanges := calculateChanges metroTimeSeries median_listing_price in
      mret {| cbsa_title :=
                if labelPresent (row_cbsa_title latest)
                then default metro (row_cbsa_title latest)
                else metro;
              numbers :=
                {| current := fun m => cellOrZero (field m latest);
                   change_mm := fun m =>
                     match m with
                     | median_listing_price =>
                         cellOrElse (row_mm latest m) (mom medianChanges)
                     | _ => cellOrZero (row_mm latest m)
                     end;
                   change_yy := fun m =>
                     match m with
                     | median_listing_price =>
                         cellOrElse (row_yy latest m) (yoy medianChanges)
                     | _ => cellOrZero (row_yy latest m)
                     end;
                   beta := fun m w => orZero (betaOf (betas metroInfo m) w);
                   last_updated := month_date_yyyymm latest |};
              metro_name := metro |}
  end.

(** One turn of the loop of [getFormattedMetroData]. *)
Definition formatMetro (this : processor)
  (acc : completion (gmap string formattedMetroEntry)) (metro : string)
  : completion (gmap string formattedMetroEntry) :=
  formatted ← acc;
  match processedMetroBetas this !! metro with
  | None => TypeError
  | Some metroInfo =>
      entry ← formatMetroEntry this metro metroInfo;
      mret (<[metro := entry]> formatted)
  end.

Definition getFormattedMetroData (this : processor)
  : completion (gmap string formattedMetroEntry) :=
  fold_left (formatMetro this) (Object_keys (processedMetroBetas this)) (mret ∅).

(** The metro table and the state table hold the same numeric fields, or
    both calls failed. *)
Definition sameNumbers
  (metros : completion (gmap string formattedMetroEntry))
  (states : completion (gmap string formattedEntry)) : Prop :=
  match metros with
  | Normal table => states = Normal (numbers <$> table)
  | TypeError => states = TypeError
  end.

End MetroTable.

(** ** The parser of a whole file *)

Module Csv.
Import JS Str Parser.

(** A parsed field: a number where the text is numeric, the text itself
    otherwise. *)
Inductive parsed : Type :=
| Number (n : num)
| Text (s : string).

Definition isNewline (c : ascii) : bool := (c =? "010")%char.

Definition isComma (c : ascii) : bool := (c =? ",")%char.

(** [isNaN(x)] on a number. *)
Definition isNaN (x : num) : bool :=
  match x with
  | NaN => true
  | _ => false
  end.

Section ParseCSV.

(** The built-in functions [parseFloat] and [isFinite], applied to a
    text. *)
Context (parseFloat : string -> num) (isFinite : string -> bool).

Definition isNumeric (value : string) : bool :=
  negb (isNaN (parseFloat value)) && isFinite value
  && negb (String.eqb value "").

(** The value stored for one field. *)
Definition convert (value : string) : parsed :=
  if isNumeric value then Number (parseFloat value) else Text value.

(** [headers.forEach((header, index) => row[header] = ...)] on a new
    object; it runs when [values] is as long as [headers]. *)
Definition buildRow (headers values : list string) : gmap string parsed :=
  fold_left (fun row hv => assign row hv.1 (convert hv.2)) (zip headers values) ∅.

(** The loop over [lines[1]], [lines[2]], ... *)
Fixpoint rowsLoop (headers : list string) (lines : list string)
  : list (gmap string parsed) :=
  match lines with
  | [] => []
  | line :: rest =>
      let values := parseCSVLine line in
      if (length values =? length headers)%nat
      then buildRow headers values :: rowsLoop headers rest
      else rowsLoop headers rest
  end.

Definition parseCSV (csvText : string) : list (gmap string parsed) :=
  let lines := split isNewline (trim csvText) in
  let headers := split isComma (default EmptyString (head lines)) in
  rowsLoop headers (tail lines).

End ParseCSV.

(** [l.join(sep)] *)
Fixpoint join (sep : string) (l : list string) : string :=
  match l with
  | [] => EmptyString
  | [s] => s
  | s :: rest => String.append s (String.append sep (join sep rest))
  end.

(** A field between double quotes. *)
Definition quoted (f : string) : string :=
  String dquote (String.append f (chr dquote)).

(** The text of a table: the header line, then one line of quoted fields
    for every record. *)
Definition render (headers : list string) (records : list (list string))
  : string :=
  join (chr "010")
    (join (chr ",") headers
     :: map (fun record => join (chr ",") (map quoted record)) records).

(** A table whose names hold neither comma nor line feed, and whose fields
    hold neither double quote nor line feed. *)
Definition wellFormed (names : list string) (records : list (list string))
  : Prop :=
  Forall (fun h => hasChar "," h = false /\ hasChar "010" h = false) names
  /\ Forall
       (fun record =>
          length record = length names
          /\ Forall (fun f => hasChar dquote f = false
                              /\ hasChar "010" f = false) record)
       records.

End Csv.

(** ** Notions for the second pass of the reconciler *)

Module Scoring.
Import Str Reconciler.
Local Open Scope string_scope.

(** The guard at the head of the inner loop: the candidate is passed
    over. *)
Definition skipped (csvName cbsaName : string) : bool :=
  includes (toLowerCase csvName) "las vegas"
  && includes cbsaName "Las Vegas, NM".

(** The score the inner loop gives a candidate for a label. *)
Definition candidateScore (csvName cbsaName : string) : Z :=
  scoreOf (normalize csvName) (extractCityNames csvName) cbsaName.

(** The number of tokens of the label that match a token of the
    candidate. *)
Definition cityMatches (csvCities cbsaCities : list string) : nat :=
  length
    (List.filter
       (fun city => existsb (fun cbsaCity => cityMatch city cbsaCity) cbsaCities)
       csvCities).

(** What the first pass stores for a listed label: the override of a label
    of the table, and for the name of a member of [Object.prototype] other
    than [__proto__] that member. *)
Definition override (label : string) : option target :=
  match hardcodedMappings !! label with
  | Some canonical => Some (Name canonical)
  | None =>
      if JS.inherited label && negb (String.eqb label "__proto__")
      then Some (Member label)
      else None
  end.

(** Every value of the mapping is truthy. *)
Definition wellKept (mapping : gmap string target) : Prop :=
  map_Forall (fun _ stored => mapped (JS.Own stored) = true) mapping.

(** What the second pass stores for a label that has no entry yet. *)
Definition chosen (csvName : string) (cbsaNames : list string)
  : option string :=
  let '(bestMatch, bestScore) := bestCandidate csvName cbsaNames in
  if present bestMatch && (75 <=? bestScore)%Z then bestMatch else None.

(** A lower-case letter or a digit: the class [a-z0-9]. *)
Definition isLowerOrDigit (c : ascii) : bool :=
  let n := nat_of_ascii c in
  ((97 <=? n)%nat && (n <=? 122)%nat) || ((48 <=? n)%nat && (n <=? 57)%nat).

(** Lower-case letters, digits and spaces only, with no space next to
    another; [afterSpace] holds where a space may not stand. *)
Fixpoint singleSpaced (afterSpace : bool) (s : string) : bool :=
  match s with
  | EmptyString => true
  | String c s' =>
      if (c =? " ")%char then negb afterSpace && singleSpaced true s'
      else isLowerOrDigit c && singleSpaced false s'
  end.

(** The shape of a normalised name: words of lower-case letters and digits
    separated by single spaces, with no space at either end. *)
Definition isNormalised (s : string) : bool :=
  singleSpaced true s && negb (endsWithSpace s).

End Scoring.

(** ** What the map shows for a beta *)

Module Display.
Import JS DataProcessor.
Local Open Scope string_scope.

(** [x < y] on numbers; a comparison with NaN is false. *)
Definition lessThan (x y : num) : bool :=
  match x, y with
  | Finite a, Finite b =>
      match (this a ?= this b)%Q with
      | Lt => true
      | _ => false
      end
  | NegInf, (Finite _ | PosInf) | Finite _, PosInf => true
  | _, _ => false
  end.

(** [x > y] *)
Definition greaterThan (x y : num) : bool := lessThan y x.

(** A decimal literal [n / d]. *)
Definition literal (n : Z) (d : positive) : num := Finite (Q2Qc (n # d)).

Definition getBetaColor (beta : num) : string :=
  if lessThan beta (literal 5 10) then "#00bfff"
  else if lessThan beta (literal 8 10) then "#40e0d0"
  else if lessThan beta (literal 12 10) then "#ffd700"
  else if lessThan beta (literal 15 10) then "#ff6347"
  else "#ff1493".

Definition getBetaInterpretation (beta : num) : string :=
  if negb (truthy beta) || Csv.isNaN beta then "Beta data unavailable"
  else if lessThan beta (literal 8 10) then "Lower volatility than national market"
  else if greaterThan beta (literal 12 10) then "Higher volatility than national market"
  else "Similar volatility to national market".

(** [x || y] on numbers. *)
Definition orElse (x y : num) : num := if truthy x then x else y.

(** The fill colour of a state's circle in the first dashboard:
    [getBetaColor(stateData.active_listing_count_beta_5y || 0)]. *)
Definition circleColor (stateData : formattedEntry) : string :=
  let beta5y := orElse (beta stateData active_listing_count w5y) zero in
  getBetaColor beta5y.

(** The fill colour of a marker in the dashboard with the metro view:
    [getBetaColor(stateData.active_listing_count_beta_5y || 1)]. *)
Definition markerColor (stateData : formattedEntry) : string :=
  let beta5y := orElse (beta stateData active_listing_count w5y) one in
  getBetaColor beta5y.

(** A metro area with its count of active listings. *)
Record sized : Type := { name : string; count : num }.

(** The sign of a comparator's result, as [sort] reads it; NaN counts as
    0. *)
Definition signOf (x : num) : Z :=
  match x with
  | Finite q =>
      match Qc_sgn q with
      | Lt => -1
      | Eq => 0
      | Gt => 1
      end
  | PosInf => 1
  | NegInf => -1
  | NaN => 0
  end.

(** [(a, b) => b.count - a.count] *)
Definition byCountDescending (a b : sized) : Z :=
  signOf (sub (count b) (count a)).

(** [Math.ceil(x)], as a bound of [slice]: a bound that is not a finite
    number acts as 0. *)
Definition Math_ceil (x : num) : Z :=
  match x with
  | Finite q => Qceiling (this q)
  | _ => 0
  end.

(** [l.slice(from, to)] for [0 <= from <= to]. *)
Definition slice {A} (from to : nat) (l : list A) : list A :=
  take (to - from) (drop from l).

Record sizes : Type := {
  large : list string;
  medium : list string;
  small : list string
}.

(** [categorizeMetrosBySize]; [metroData] lists the entries of the object
    in the order of its keys, which are distinct. *)
Definition categorizeMetrosBySize
  (metroData : list (string * MetroTable.formattedMetroEntry)) : sizes :=
  let metrosWithCounts :=
    Array_sort byCountDescending
      (map (fun entry =>
              {| name := entry.1;
                 count :=
                   orElse (current (MetroTable.numbers entry.2)
                             active_listing_count) zero |})
         metroData) in
  let totalMetros := length metrosWithCounts in
  let largeCount :=
    Z.to_nat (Math_ceil (mul (ofNat totalMetros) (literal 5 100))) in
  let mediumCount :=
    Z.to_nat (Math_ceil (mul (ofNat totalMetros) (literal 10 100))) in
  {| large := map name (slice 0 largeCount metrosWithCounts);
     medium :=
       map name (slice largeCount (largeCount + mediumCount) metrosWithCounts);
     small := map name (drop (largeCount + mediumCount) metrosWithCounts) |}.

(** The counts of two metro areas are finite and the first is not below
    the second. *)
Definition notSmaller (a b : sized) : Prop :=
  exists p q, count a = Finite p /\ count b = Finite q /\ (q <= p)%Qc.

End Display.

(** ** Sample metro entries *)

Module SampleMetros.
Import JS DataProcessor MetroTable.
Local Open Scope string_scope.

(** An entry whose count of active listings is [listings], with nothing
    else. *)
Definition entryWith (label : string) (listings : Z) : formattedMetroEntry :=
  {| cbsa_title := label;
     numbers :=
       {| current := fun m =>
            match m with
            | active_listing_count => ofZ listings
            | _ => zero
            end;
          change_mm := fun _ => zero;
          change_yy := fun _ => zero;
          beta := fun _ _ => zero;
          last_updated := 202507 |};
     metro_name := label |}.

Definition threeMetros : list (string * formattedMetroEntry) :=
  [("Reno, NV", entryWith "Reno, NV" 1200);
   ("Boise City, ID", entryWith "Boise City, ID" 3100);
   ("Elko, NV", entryWith "Elko, NV" 0)].

End SampleMetros.

(** * The numeric path over binary64

    [getReturns], [calculateCovariance], [calculateVariance] and
    [calculateBeta] once more, with the numbers JavaScript computes with: a
    number is a binary64 value, and every [+], [-], [*] and [/] is the
    IEEE-754 operation, rounded to nearest, ties to even.  A cell holds what
    [parseCSV] stores for a field: a number, a text that is not numeric, or
    nothing where the column is missing.

    Built-in functions.  The conversion of a text to a number, which [-]
    and [/] apply to a text cell, is a section variable: what is proved
    holds whatever it returns. *)

Module Binary64.
Local Open Scope float_scope.

#[global] Instance metric_eq_dec : EqDecision DataProcessor.metric.
Proof. solve_decision. Defined.

(** The length of an array as a number.  An array has fewer than [2^32]
    elements; the conversion is exact below [2^53]. *)
Definition ofNat (n : nat) : float := of_uint63 (Uint63.of_Z (Z.of_nat n)).

(** An integer of the data as a number, exact below [2^53]. *)
Definition ofZ (z : Z) : float :=
  if (z <? 0)%Z then - of_uint63 (Uint63.of_Z (- z))
  else of_uint63 (Uint63.of_Z z).

(** [x === y] on numbers: [0] equals [-0], and NaN equals nothing. *)
Definition strictEq (x y : float) : bool := (x =? y).

(** ToBoolean on numbers: [0], [-0] and NaN are falsy. *)
Definition truthy (x : float) : bool := negb (x =? 0) && negb (is_nan x).

(** [Math.pow(x, 2)].  ECMAScript leaves the precision of [Math.pow] to the
    engine; for the exponent 2 the engines return the correctly rounded
    square, which is the product [x * x]. *)
Definition square (x : float) : float := x * x.

Inductive cell : Type :=
| Number (x : float)
| Text (s : string)
| Missing.

(** One parsed row: the date as the integer [YYYYMM], and the cell of each
    metric. *)
Record row : Type := {
  month_date_yyyymm : Z;
  cells : DataProcessor.metric -> cell
}.

(** [row[metric]] *)
Definition field (metric : DataProcessor.metric) (r : row) : cell :=
  cells r metric.

(** ToBoolean of a cell: the empty text and a missing cell are falsy. *)
Definition cellTruthy (c : cell) : bool :=
  match c with
  | Number x => truthy x
  | Text s => negb (String.eqb s "")
  | Missing => false
  end.

(** [c !== 0] *)
Definition cellNotZero (c : cell) : bool :=
  match c with
  | Number x => negb (strictEq x 0)
  | Text _ | Missing => true
  end.

(** The fields of [this] that [calculateBeta] reads. *)
Record processor : Type := {
  nationalData : list row;
  stateData : gmap string (list row)
}.

(** The lookup table of [getReturns]: a later row of the same date replaces
    an earlier one. *)
Definition buildDataMap (timeSeries : list row) : gmap Z row :=
  fold_left
    (fun dataMap r =>
       <[DataProcessor.parseInt (month_date_yyyymm r) := r]> dataMap)
    timeSeries ∅.

(** [dataMap[date]?.[metric]] *)
Definition valueAt (dataMap : gmap Z row) (metric : DataProcessor.metric)
  (date : Z) : cell :=
  match dataMap !! date with
  | Some r => field metric r
  | None => Missing
  end.

(** [x.reduce((sum, val) => sum + val, 0)] *)
Definition sumReduce (x : list float) : float := fold_left add x 0.

(** [x[i]]; out of range the read is [undefined], NaN in arithmetic. *)
Definition at_ (x : list float) (i : nat) : float := nth i x nan.

Definition calculateCovariance (x y : list float) : float :=
  let n := length x in
  if negb (n =? length y)%nat || (n =? 0)%nat then 0
  else
    let meanX := sumReduce x / ofNat n in
    let meanY := sumReduce y / ofNat n in
    let covariance :=
      fold_left
        (fun covariance i => covariance + (at_ x i - meanX) * (at_ y i - meanY))
        (seq 0 n) 0 in
    covariance / (ofNat n - 1).

Definition calculateVariance (x : list float) : float :=
  let n := length x in
  if (n =? 0)%nat then 0
  else
    let mean := sumReduce x / ofNat n in
    let variance :=
      fold_left (fun variance i => variance + square (at_ x i - mean))
        (seq 0 n) 0 in
    variance / (ofNat n - 1).

(** [timeSeries.forEach] on [undefined], or on a member of
    [Object.prototype], raises. *)
Definition seriesOf (store : gmap string (list row)) (name : string)
  : JS.completion (list row) :=
  match store !! name with
  | Some timeSeries => JS.Normal timeSeries
  | None => JS.TypeError
  end.

Section Engine.

(** The number a text stands for in arithmetic. *)
Context (ToNumber : string -> float).

(** The number a cell stands for in arithmetic. *)
Definition cellNum (c : cell) : float :=
  match c with
  | Number x => x
  | Text s => ToNumber s
  | Missing => nan
  end.

(** The loop of [getReturns] over [dates[i]], [dates[i + 1]]. *)
Fixpoint returnsLoop (dataMap : gmap Z row) (metric : DataProcessor.metric)
  (dates : list Z) : list float :=
  match dates with
  | currentDate :: ((previousDate :: _) as rest) =>
      let currentValue := valueAt dataMap metric currentDate in
      let previousValue := valueAt dataMap metric previousDate in
      if cellTruthy currentValue && cellTruthy previousValue
         && cellNotZero previousValue
      then (cellNum currentValue - cellNum previousValue) / cellNum previousValue
           :: returnsLoop dataMap metric rest
      else returnsLoop dataMap metric rest
  | _ => []
  end.

Definition getReturns (timeSeries : list row) (metric : DataProcessor.metric)
  (dates : list Z) : list float :=
  returnsLoop (buildDataMap timeSeries) metric dates.

Definition calculateBeta (this : processor) (state : string)
  (metric : DataProcessor.metric) (months : nat) (commonDates : list Z)
  : JS.completion (option float) :=
  if (length commonDates <? months)%nat then mret None
  else
    let relevantDates := take months commonDates in
    stateSeries ← seriesOf (stateData this) state;
    let stateReturns := getReturns stateSeries metric relevantDates in
    let nationalReturns := getReturns (nationalData this) metric relevantDates in
    if negb (length stateReturns =? length nationalReturns)%nat
       || (length stateReturns <? 2)%nat
    then mret None
    else
      let covariance := calculateCovariance stateReturns nationalReturns in
      let nationalVariance := calculateVariance nationalReturns in
      if strictEq nationalVariance 0 then mret None
      else mret (Some (covariance / nationalVariance)).

End Engine.

(** ** Sample statistics as the specification writes them

    [Σ] adds the terms from left to right, starting from 0; the order
    matters, since the sum of binary64 numbers is rounded at every step. *)

Definition total (l : list float) : float := fold_left add l 0.

Definition size (l : list float) : float := ofNat (length l).

Definition mean (l : list float) : float := total l / size l.

(** [Σ((x_i − mean_x)(y_i − mean_y)) / (n − 1)] *)
Definition sampleCovariance (xs ys : list float) : float :=
  total (zip_with (fun x y => (x - mean xs) * (y - mean ys)) xs ys)
  / (size xs - 1).

(** The same form on a single series. *)
Definition sampleVariance (ys : list float) : float := sampleCovariance ys ys.

(** ** Rescaled series *)






(** ** Sample data *)

(** A row whose four metrics all hold the number [value]. *)
Definition observation (date : Z) (value : float) : row :=
  {| month_date_yyyymm := date; cells := fun _ => Number value |}.

Definition seriesOfValues (dates : list Z) (values : list Z) : list row :=
  zip_with (fun date value => observation date (ofZ value)) dates values.

Definition processorOf (national state : list row) : processor :=
  {| nationalData := national;
     stateData := {[ "Nevada"%string := state ]} |}.

(** Thirteen months of history, newest first. *)
Definition months13 : list Z :=
  [202507; 202506; 202505; 202504; 202503; 202502; 202501;
   202412; 202411; 202410; 202409; 202408; 202407]%Z.

Definition national13 : list row :=
  seriesOfValues months13
    [1300; 1250; 1200; 1220; 1180; 1150; 1100;
     1120; 1080; 1050; 1000; 1010; 980]%Z.

Definition state13 : list row :=
  seriesOfValues months13
    [650; 640; 600; 615; 580; 570; 560;
     575; 540; 520; 500; 510; 480]%Z.

Definition oneYear : processor := processorOf national13 state13.

(** A national series that grows by one tenth every month, from [10^12]:
    the value of month [k] is [10^(12 - k) * 11^k], and every return is
    the binary64 number nearest to one tenth. *)
Definition nationalTenth : list row :=
  seriesOfValues months13
    [3138428376721; 2853116706110; 2593742460100; 2357947691000;
     2143588810000; 1948717100000; 1771561000000; 1610510000000;
     1464100000000; 1331000000000; 1210000000000; 1100000000000;
     1000000000000]%Z.

Definition steadyGrowth : processor := processorOf nationalTenth state13.

(** A national series that grows by one half every month, from [2^12]:
    the value of month [k] is [2^(12 - k) * 3^k], and every return is
    one half. *)
Definition nationalHalf : list row :=
  seriesOfValues months13
    [531441; 354294; 236196; 157464; 104976; 69984; 46656; 31104; 20736;
     13824; 9216; 6144; 4096]%Z.

Definition fastGrowth : processor := processorOf nationalHalf state13.

(** The conversion of a text that is not numeric: NaN. *)
Definition notANumber (s : string) : float := nan.

End Binary64.
(** * Properties *)

Import JS DataProcessor Reference Pairs Formatted Loading.

(** ** Numbers *)

Lemma Qc_eqb_eq (a b : Qc) : Qc_eqb a b = true <-> a = b.
Proof.
  unfold Qc_eqb. rewrite Qeq_bool_iff. split.
  - apply Qc_is_canon.
  - intros ->. reflexivity.
Qed.


Lemma Qc_eqb_neq (a b : Qc) : Qc_eqb a b = false <-> a <> b.
Proof.
  rewrite <- Qc_eqb_eq. destruct (Qc_eqb a b); split; congruence.
Qed.


Lemma Qc_ofZ_eq_0 z : Qc_ofZ z = 0%Qc <-> z = 0.
Proof.
  unfold Qc_ofZ. split.
  - intros H. apply (f_equal this) in H. simpl in H.
    assert (inject_Z z == 0)%Q as Hq.
    { rewrite <- (Qred_correct (inject_Z z)), H. reflexivity. }
    unfold Qeq in Hq. simpl in Hq. lia.
  - intros ->. apply Qc_is_canon. reflexivity.
Qed.

Lemma Qc_ofZ_sub a b : (Qc_ofZ a - Qc_ofZ b)%Qc = Qc_ofZ (a - b).
Proof.
  apply Qc_is_canon. unfold Qc_ofZ. simpl.
  rewrite !Qred_correct. unfold Qminus. rewrite <- inject_Z_opp, <- inject_Z_plus.
  reflexivity.
Qed.

Lemma Qc_ofZ_succ n : Qc_ofZ (Z.of_nat (S n)) = (Qc_ofZ (Z.of_nat n) + 1)%Qc.
Proof.
  apply Qc_is_canon. unfold Qc_ofZ. simpl this.
  rewrite !Qred_correct, Nat2Z.inj_succ. unfold Z.succ.
  rewrite inject_Z_plus. reflexivity.
Qed.


Lemma div_finite a b : b <> 0%Qc -> div (Finite a) (Finite b) = Finite (a / b)%Qc.
Proof. intros Hb. unfold div. by rewrite (proj2 (Qc_eqb_neq b 0) Hb). Qed.

Lemma truthy_finite a : truthy (Finite a) = true <-> a <> 0%Qc.
Proof. simpl. rewrite negb_true_iff. apply Qc_eqb_neq. Qed.


Lemma ofNat_finite n : ofNat n = Finite (Qc_ofZ (Z.of_nat n)).
Proof. reflexivity. Qed.

Lemma sub_ofNat_one n : sub (ofNat n) one = Finite (Qc_ofZ (Z.of_nat n) - 1)%Qc.
Proof. reflexivity. Qed.

Lemma size_nonzero l : (0 < length l)%nat -> size l <> 0%Qc.
Proof. unfold size. rewrite Qc_ofZ_eq_0. lia. Qed.

Lemma size_pred_nonzero l : (2 <= length l)%nat -> (size l - 1)%Qc <> 0%Qc.
Proof.
  unfold size. change 1%Qc with (Qc_ofZ 1).
  rewrite Qc_ofZ_sub, Qc_ofZ_eq_0. lia.
Qed.

(** ** Sorting and the aligned calendar *)

Section SortFacts.
Context {A : Type} (cmp : A -> A -> Z).

Lemma sortInsert_Permutation x l : sortInsert cmp x l ≡ₚ x :: l.
Proof.
  induction l as [|y l IH]; simpl; [done|].
  destruct (cmp x y <=? 0); [done|].
  rewrite IH. apply Permutation_swap.
Qed.

Lemma Array_sort_Permutation l : Array_sort cmp l ≡ₚ l.
Proof.
  induction l as [|x l IH]; simpl; [done|].
  rewrite sortInsert_Permutation. by f_equiv.
Qed.

Lemma Array_sort_length l : length (Array_sort cmp l) = length l.
Proof. by rewrite Array_sort_Permutation. Qed.
End SortFacts.

(** Sorting by a key, largest key first. *)
Lemma sortInsert_by_key {A} (key : A -> Z) x l :
  Sorted (fun a b => key b <= key a) l ->
  Sorted (fun a b => key b <= key a) (sortInsert (fun a b => key b - key a) x l).
Proof.
  induction 1 as [|y l Hl IH Hy]; simpl.
  - repeat constructor.
  - destruct (Z.leb_spec (key y - key x) 0).
    + constructor; [by constructor|]. constructor. lia.
    + constructor; [done|].
      destruct Hy as [|z l' Hz]; simpl in *.
      * constructor. lia.
      * destruct (Z.leb_spec (key z - key x) 0); constructor; lia.
Qed.

Lemma Array_sort_by_key {A} (key : A -> Z) l :
  Sorted (fun a b => key b <= key a) (Array_sort (fun a b => key b - key a) l).
Proof.
  induction l as [|x l IH]; simpl; [constructor|].
  by apply sortInsert_by_key.
Qed.

Lemma Array_sort_descending l : descending (Array_sort (fun a b => b - a) l).
Proof. apply (Array_sort_by_key (fun d => d)). Qed.

Lemma Set_add_fold_spec (l acc : list Z) :
  NoDup acc ->
  NoDup (fold_left Set_add l acc)
  /\ forall d, d ∈ fold_left Set_add l acc <-> d ∈ acc \/ d ∈ l.
Proof.
  revert acc. induction l as [|x l IH]; intros acc Hacc; simpl.
  - split; [done|]. intros d. rewrite elem_of_nil. tauto.
  - unfold Set_add at 2 4. case_bool_decide as Hx.
    + destruct (IH acc Hacc) as [Hnd Hin]. split; [done|].
      intros d. rewrite Hin, elem_of_cons. split; [tauto|].
      intros [?|[->|?]]; tauto.
    + assert (NoDup (acc ++ [x])) as Hacc'.
      { apply NoDup_app. split_and!; [done| |apply NoDup_singleton].
        intros y Hy ->%list_elem_of_singleton. done. }
      destruct (IH _ Hacc') as [Hnd Hin]. split; [done|].
      intros d. rewrite Hin, elem_of_app, list_elem_of_singleton, elem_of_cons.
      tauto.
Qed.

Lemma Set_from_NoDup l : NoDup (Set_from l).
Proof. apply Set_add_fold_spec, NoDup_nil_2. Qed.

Lemma Set_from_elem_of l d : d ∈ Set_from l <-> d ∈ l.
Proof.
  unfold Set_from.
  destruct (Set_add_fold_spec l [] (NoDup_nil_2)) as [_ H].
  rewrite H, elem_of_nil. tauto.
Qed.

(** The calendar of [getCommonDates] is the intersection of the two
    series' dates, without repetition and in descending order. *)
Lemma getCommonDates_spec stateSeries nationalSeries :
  let calendar := getCommonDates stateSeries nationalSeries in
  (forall d, d ∈ calendar <->
             d ∈ map month_date_yyyymm stateSeries
             /\ d ∈ map month_date_yyyymm nationalSeries)
  /\ NoDup calendar
  /\ descending calendar.
Proof.
  unfold getCommonDates. cbv zeta. split_and!.
  - intros d. rewrite Array_sort_Permutation.
    unfold parseInt. rewrite map_id.
    rewrite list_elem_of_filter, !Set_from_elem_of. tauto.
  - rewrite Array_sort_Permutation. unfold parseInt. rewrite map_id.
    apply NoDup_filter, Set_from_NoDup.
  - apply Array_sort_descending.
Qed.

Lemma getCommonDatesMetro_eq metroSeries nationalSeries :
  getCommonDatesMetro metroSeries nationalSeries
  = getCommonDates metroSeries nationalSeries.
Proof. reflexivity. Qed.

Lemma getCommonDates_dates s1 s2 n1 n2 :
  map month_date_yyyymm s1 = map month_date_yyyymm s2 ->
  map month_date_yyyymm n1 = map month_date_yyyymm n2 ->
  getCommonDates s1 n1 = getCommonDates s2 n2.
Proof. unfold getCommonDates. by intros -> ->. Qed.

(** ** The loops of the covariance and of the variance *)

Lemma sumReduce_from (l : list Qc) (a : Qc) :
  fold_left add (map Finite l) (Finite a) = Finite (a + total l)%Qc.
Proof.
  revert a. induction l as [|x l IH]; intros a; simpl.
  - f_equal. ring.
  - rewrite IH. f_equal. ring.
Qed.

Lemma sumReduce_finite l : sumReduce (map Finite l) = Finite (total l).
Proof.
  unfold sumReduce, zero, ofZ. rewrite sumReduce_from. f_equal.
  change (Qc_ofZ 0) with 0%Qc. ring.
Qed.

Lemma fold_left_map_index {B} (f : B -> nat -> B) (h : nat -> nat) l a :
  fold_left f (map h l) a = fold_left (fun acc i => f acc (h i)) l a.
Proof. revert a. induction l as [|i l IH]; intros a; simpl; [done|]. apply IH. Qed.

(** A loop that reads [x[i]] and [y[i]] for [i] below the common length
    visits the pairs of the two arrays in order. *)
Lemma index_loop_zip (g : num -> num -> num -> num) (x y : list num) n a :
  n = length x -> n = length y ->
  fold_left (fun acc i => g acc (at_ x i) (at_ y i)) (seq 0 n) a
  = fold_left (fun acc p => g acc p.1 p.2) (zip x y) a.
Proof.
  revert y n a. induction x as [|u x IH]; intros [|v y] n a -> Hlen;
    simpl in *; try done.
  rewrite <- seq_shift, fold_left_map_index. simpl.
  apply (IH y _ (g a u v)); [done|lia].
Qed.

Lemma covariance_loop (xs ys : list Qc) (mx my a : Qc) :
  fold_left
    (fun acc p => add acc (mul (sub p.1 (Finite mx)) (sub p.2 (Finite my))))
    (zip (map Finite xs) (map Finite ys)) (Finite a)
  = Finite (a + total (zip_with (fun x y => (x - mx) * (y - my)) xs ys))%Qc.
Proof.
  revert ys a. induction xs as [|x xs IH]; intros [|y ys] a; simpl;
    try (f_equal; ring).
  rewrite IH. f_equal. ring.
Qed.

Lemma variance_loop (xs : list Qc) (m a : Qc) :
  fold_left
    (fun acc p => add acc (Math_pow (sub p.1 (Finite m)) 2))
    (zip (map Finite xs) (map Finite xs)) (Finite a)
  = Finite (a + total (zip_with (fun x y => (x - m) * (y - m)) xs xs))%Qc.
Proof.
  revert a. induction xs as [|x xs IH]; intros a; simpl.
  - f_equal. ring.
  - rewrite IH. f_equal. change (Qc_ofZ 1) with 1%Qc. ring.
Qed.

(** On finite series of equal length two or more, [calculateCovariance] is
    the sample covariance. *)
Lemma calculateCovariance_finite (xs ys : list Qc) :
  length xs = length ys -> (2 <= length xs)%nat ->
  calculateCovariance (map Finite xs) (map Finite ys)
  = Finite (sampleCovariance xs ys).
Proof.
  intros Hlen Hn. unfold calculateCovariance.
  rewrite !length_map.
  rewrite (proj2 (Nat.eqb_eq _ _) Hlen).
  rewrite (proj2 (Nat.eqb_neq (length xs) 0)) by lia. cbn [negb orb].
  rewrite !sumReduce_finite, !ofNat_finite.
  rewrite !div_finite by (apply (size_nonzero xs); lia).
  rewrite (index_loop_zip
             (fun acc u v =>
                add acc (mul (sub u (Finite (total xs / Qc_ofZ (Z.of_nat (length xs)))))
                             (sub v (Finite (total ys / Qc_ofZ (Z.of_nat (length xs))))))))
    by (by rewrite !length_map).
  unfold zero, ofZ. rewrite covariance_loop.
  rewrite <- ofNat_finite, sub_ofNat_one.
  rewrite div_finite by (apply (size_pred_nonzero xs); lia).
  f_equal. unfold sampleCovariance, mean, size. rewrite <- Hlen.
  change (Qc_ofZ 0) with 0%Qc. f_equal. ring.
Qed.

Lemma calculateVariance_shape (ys : list Qc) :
  (1 <= length ys)%nat ->
  calculateVariance (map Finite ys)
  = div (Finite (total (zip_with (fun x y => (x - mean ys) * (y - mean ys))%Qc ys ys)))
        (Finite (size ys - 1)%Qc).
Proof.
  intros Hn. unfold calculateVariance.
  rewrite !length_map.
  rewrite (proj2 (Nat.eqb_neq (length ys) 0)) by lia.
  rewrite !sumReduce_finite, !ofNat_finite.
  rewrite !div_finite by (apply (size_nonzero ys); lia).
  rewrite (index_loop_zip
             (fun acc u v =>
                add acc (Math_pow
                           (sub u (Finite (total ys / Qc_ofZ (Z.of_nat (length ys)))))
                           2))
             (map Finite ys) (map Finite ys))
    by (by rewrite !length_map).
  unfold zero, ofZ. rewrite variance_loop.
  rewrite <- ofNat_finite, sub_ofNat_one.
  unfold mean, size. change (Qc_ofZ 0) with 0%Qc. do 2 f_equal. ring.
Qed.

Lemma calculateVariance_finite (ys : list Qc) :
  (2 <= length ys)%nat ->
  calculateVariance (map Finite ys) = Finite (sampleVariance ys).
Proof.
  intros Hn. rewrite calculateVariance_shape by lia.
  rewrite div_finite by (apply (size_pred_nonzero ys); lia).
  reflexivity.
Qed.

(** ** Returns *)

Lemma consecutivePairs_cons2 a b rest :
  consecutivePairs (a :: b :: rest) = (a, b) :: consecutivePairs (b :: rest).
Proof. reflexivity. Qed.

Lemma returnsLoop_cons2 dataMap metric a b rest :
  returnsLoop dataMap metric (a :: b :: rest)
  = if kept dataMap metric (a, b)
    then div (sub (cellNum (valueAt dataMap metric a))
                  (cellNum (valueAt dataMap metric b)))
             (cellNum (valueAt dataMap metric b))
         :: returnsLoop dataMap metric (b :: rest)
    else returnsLoop dataMap metric (b :: rest).
Proof. reflexivity. Qed.

Lemma returnsLoop_pairs dataMap metric dates :
  returnsLoop dataMap metric dates
  = map Finite
      (map (changeOver dataMap metric)
         (List.filter (kept dataMap metric) (consecutivePairs dates))).
Proof.
  induction dates as [|a [|b rest] IH]; [done..|].
  rewrite consecutivePairs_cons2, returnsLoop_cons2. cbn [List.filter].
  rewrite IH.
  destruct (kept dataMap metric (a, b)) eqn:Hk; [|done].
  cbn [map]. f_equal.
  unfold kept, changeOver in *. cbn [fst snd] in *.
  destruct (valueAt dataMap metric a) as [c|]; [|done].
  destruct (valueAt dataMap metric b) as [p|]; [|by rewrite andb_false_r in Hk].
  apply andb_true_iff in Hk as [[_ Hp]%andb_true_iff _].
  apply truthy_finite in Hp.
  cbn [cellNum]. unfold sub. cbn [neg add].
  by rewrite div_finite.
Qed.

(** The returns of a series are finite numbers: one fractional change for
    every kept pair of the window, in the order of the window. *)
Lemma getReturns_finite series metric dates :
  getReturns series metric dates = map Finite (returnsQ series metric dates).
Proof. apply returnsLoop_pairs. Qed.

Lemma getMetroReturns_eq series metric dates :
  getMetroReturns series metric dates = getReturns series metric dates.
Proof. reflexivity. Qed.

(** ** The beta of two return series *)


Lemma calculateBeta_on_returns this state metric months commonDates series :
  (months <= length commonDates)%nat ->
  stateData this !! state = Some series ->
  let xs := returnsQ series metric (take months commonDates) in
  let ys := returnsQ (nationalData this) metric (take months commonDates) in
  calculateBeta this state metric months commonDates
  = Normal (if negb (length xs =? length ys)%nat || (length xs <? 2)%nat
            then None else betaFormula xs ys).
Proof.
  intros Hm Hs xs ys. unfold calculateBeta.
  rewrite (proj2 (Nat.ltb_ge _ _) Hm).
  unfold seriesOf. rewrite Hs. cbn [mbind completion_bind].
  rewrite !getReturns_finite. fold xs ys. rewrite !length_map.
  destruct (Nat.eqb_spec (length xs) (length ys)) as [Hlen|]; [|done].
  destruct (Nat.ltb_spec (length xs) 2) as [|Hn]; [done|].
  cbn [negb orb].
  rewrite calculateCovariance_finite, calculateVariance_finite by lia.
  unfold betaFormula. cbn [strictEq zero ofZ].
  change (Qc_ofZ 0) with 0%Qc.
  destruct (Qc_eqb (sampleVariance ys) 0) eqn:Hv; [done|].
  cbn [mret completion_ret]. do 2 f_equal.
  apply div_finite. by apply Qc_eqb_neq.
Qed.

Lemma calculateBeta_windowBeta this state metric months commonDates series :
  stateData this !! state = Some series ->
  calculateBeta this state metric months commonDates
  = Normal (windowBeta series (nationalData this) metric months commonDates).
Proof.
  intros Hs. unfold windowBeta.
  destruct (Nat.ltb_spec (length commonDates) months) as [Hshort|Hm].
  - unfold calculateBeta. by rewrite (proj2 (Nat.ltb_lt _ _) Hshort).
  - by rewrite (calculateBeta_on_returns _ _ _ _ _ _ Hm Hs).
Qed.



(** The beta depends on the two series through their returns only. *)
Lemma calculateBeta_returns_ext this1 this2 state metric months commonDates s1 s2 :
  stateData this1 !! state = Some s1 ->
  stateData this2 !! state = Some s2 ->
  (forall dates, getReturns s1 metric dates = getReturns s2 metric dates) ->
  (forall dates, getReturns (nationalData this1) metric dates
                 = getReturns (nationalData this2) metric dates) ->
  calculateBeta this1 state metric months commonDates
  = calculateBeta this2 state metric months commonDates.
Proof.
  intros H1 H2 Hs Hn. unfold calculateBeta, seriesOf.
  rewrite H1, H2. cbn [mbind completion_bind].
  by rewrite Hs, Hn.
Qed.

(** ** The tables of betas *)

(** For a state of the store [calculateStateBetas] returns normally, with
    the twelve betas of the state over its aligned calendar. *)
Lemma calculateStateBetas_spec this state series :
  stateData this !! state = Some series ->
  exists info,
    calculateStateBetas this state = Normal info
    /\ latest_data info = series !! 0%nat
    /\ forall metric w,
         betaOf (betas info metric) w
         = windowBeta series (nationalData this) metric (monthsOf w)
             (getCommonDates series (nationalData this)).
Proof.
  intros Hs. unfold calculateStateBetas, seriesOf. rewrite Hs.
  cbn [mbind completion_bind]. unfold betasOf.
  rewrite !(calculateBeta_windowBeta _ _ _ _ _ _ Hs).
  cbn [mbind completion_bind mret completion_ret].
  eexists. split_and!; [reflexivity..|].
  by intros [] [].
Qed.

Lemma calculateStateBetas_ext this1 this2 state :
  stateData this1 = stateData this2 ->
  nationalData this1 = nationalData this2 ->
  calculateStateBetas this1 state = calculateStateBetas this2 state.
Proof.
  intros Hs Hn.
  unfold calculateStateBetas, betasOf, calculateBeta. by rewrite Hs, Hn.
Qed.

Lemma elem_of_Object_keys {V} (o : gmap string V) k :
  k ∈ Object_keys o <-> is_Some (o !! k).
Proof.
  unfold Object_keys. rewrite list_elem_of_fmap. split.
  - intros [[k' v] [-> Hin%elem_of_map_to_list]]. by exists v.
  - intros [v Hv]. exists (k, v). split; [done|]. by apply elem_of_map_to_list.
Qed.

(** The loop of [calculateBetas] over any list of states of the store. *)
Lemma calculateBetas_loop (this0 : processor) keys this :
  stateData this = stateData this0 ->
  nationalData this = nationalData this0 ->
  (forall k, k ∈ keys -> is_Some (stateData this0 !! k)) ->
  exists this',
    forEach keys storeStateBetas this = Normal this'
    /\ stateData this' = stateData this0
    /\ nationalData this' = nationalData this0
    /\ metroData this' = metroData this
    /\ processedMetroBetas this' = processedMetroBetas this
    /\ forall state,
         processedBetas this' !! state
         = if bool_decide (state ∈ keys)
           then match calculateStateBetas this0 state with
                | Normal info => Some info
                | TypeError => None
                end
           else processedBetas this !! state.
Proof.
  unfold forEach. revert this.
  induction keys as [|k keys IH] using rev_ind; intros this Hs Hn Hkeys.
  - exists this. split_and!; [done..|]. intros state.
    by rewrite bool_decide_eq_false_2 by apply not_elem_of_nil.
  - destruct (IH this Hs Hn) as (this1 & Hrun & Hs1 & Hn1 & Hm1 & Hp1 & Hlook).
    { intros k' Hk'. apply Hkeys, elem_of_app. by left. }
    rewrite fold_left_app. cbn [fold_left]. rewrite Hrun.
    cbn [mbind completion_bind]. unfold storeStateBetas.
    destruct (Hkeys k) as [series Hk]; [apply elem_of_app; right; by left|].
    rewrite <- Hs1 in Hk.
    destruct (calculateStateBetas_spec this1 k series Hk) as (info & Hinfo & _).
    rewrite Hinfo. cbn [mbind completion_bind mret completion_ret].
    eexists. split_and!; [reflexivity|done..|].
    intros state. cbn [processedBetas setProcessedBetas].
    rewrite (calculateStateBetas_ext this1 this0) in Hinfo by done.
    destruct (decide (k = state)) as [->|Hne].
    + rewrite lookup_insert_eq.
      rewrite bool_decide_eq_true_2 by (apply elem_of_app; right; by left).
      by rewrite Hinfo.
    + rewrite lookup_insert_ne by done. rewrite Hlook.
      destruct (decide (state ∈ keys)) as [Hin|Hnin].
      * rewrite !bool_decide_eq_true_2; [done| |done].
        apply elem_of_app. by left.
      * rewrite !bool_decide_eq_false_2; [done| |done].
        rewrite elem_of_app, list_elem_of_singleton. intros [?|?]; congruence.
Qed.

Lemma calculateBetas_spec this :
  exists this',
    calculateBetas this = Normal this'
    /\ stateData this' = stateData this
    /\ nationalData this' = nationalData this
    /\ metroData this' = metroData this
    /\ processedMetroBetas this' = processedMetroBetas this
    /\ forall state,
         processedBetas this' !! state
         = match stateData this !! state with
           | Some _ =>
               match calculateStateBetas this state with
               | Normal info => Some info
               | TypeError => None
               end
           | None => processedBetas this !! state
           end.
Proof.
  destruct (calculateBetas_loop this (Object_keys (stateData this)) this)
    as (this' & Hrun & Hs & Hn & Hm & Hp & Hlook); [done..| |].
  { intros k. by rewrite elem_of_Object_keys. }
  exists this'. split_and!; [done..|].
  intros state. rewrite Hlook.
  destruct (stateData this !! state) as [series|] eqn:Hstate.
  - rewrite bool_decide_eq_true_2; [done|].
    apply elem_of_Object_keys. by rewrite Hstate.
  - rewrite bool_decide_eq_false_2; [done|].
    rewrite elem_of_Object_keys, Hstate. by intros [? ?].
Qed.

(** ** The metro tables are the state tables with the stores exchanged *)

(** Every statement on the state path holds on the metro path, read on the
    processor with the two stores exchanged. *)
Lemma calculateMetroBeta_swap this metro metric months commonDates :
  calculateMetroBeta this metro metric months commonDates
  = calculateBeta (swapStores this) metro metric months commonDates.
Proof. reflexivity. Qed.

Lemma calculateMetroAreaBetas_swap this metro :
  calculateMetroAreaBetas this metro
  = calculateStateBetas (swapStores this) metro.
Proof. reflexivity. Qed.

Lemma forEach_storeMetroBetas keys this :
  forEach keys storeMetroBetas this
  = match forEach keys storeStateBetas (swapStores this) with
    | Normal this' => Normal (swapStores this')
    | TypeError => TypeError
    end.
Proof.
  unfold forEach.
  induction keys as [|k keys IH] using rev_ind.
  - by destruct this.
  - rewrite !fold_left_app. cbn [fold_left]. rewrite IH.
    destruct (fold_left _ keys (mret (swapStores this))) as [this1|]; [|done].
    cbn [mbind completion_bind]. unfold storeMetroBetas, storeStateBetas.
    rewrite calculateMetroAreaBetas_swap.
    assert (swapStores (swapStores this1) = this1) as -> by (by destruct this1).
    by destruct (calculateStateBetas this1 k).
Qed.


(** ** The formatted table *)


(** The loop of [getFormattedStateData] over keys that all give an entry. *)
Lemma formatted_loop this keys acc :
  (forall k, k ∈ keys -> is_Some (entryOf this k)) ->
  exists formatted,
    fold_left (formatState this) keys (Normal acc) = Normal formatted
    /\ forall state,
         formatted !! state
         = if bool_decide (state ∈ keys) then entryOf this state
           else acc !! state.
Proof.
  induction keys as [|k keys IH] using rev_ind; intros Hkeys.
  - exists acc. split; [done|]. intros state.
    by rewrite bool_decide_eq_false_2 by apply not_elem_of_nil.
  - destruct IH as (formatted & Hrun & Hlook).
    { intros k' Hk'. apply Hkeys, elem_of_app. by left. }
    rewrite fold_left_app. cbn [fold_left]. rewrite Hrun.
    unfold formatState at 1. cbn [mbind completion_bind].
    destruct (Hkeys k) as [entry Hentry]; [apply elem_of_app; right; by left|].
    pose proof Hentry as Hentry'. unfold entryOf in Hentry.
    destruct (processedBetas this !! k) as [info|]; [|done].
    destruct (formatEntry this k info) as [entry'|]; [|done].
    injection Hentry as ->.
    cbn [mbind completion_bind mret completion_ret].
    eexists. split; [reflexivity|].
    intros state. destruct (decide (k = state)) as [->|Hne].
    + rewrite lookup_insert_eq.
      by rewrite bool_decide_eq_true_2 by (apply elem_of_app; right; by left).
    + rewrite lookup_insert_ne by done. rewrite Hlook.
      destruct (decide (state ∈ keys)) as [Hin|Hnin].
      * rewrite !bool_decide_eq_true_2; [done| |done].
        apply elem_of_app. by left.
      * rewrite !bool_decide_eq_false_2; [done| |done].
        rewrite elem_of_app, list_elem_of_singleton. intros [?|?]; congruence.
Qed.

Lemma getFormattedStateData_spec this :
  (forall k, is_Some (processedBetas this !! k) -> is_Some (entryOf this k)) ->
  exists formatted,
    getFormattedStateData this = Normal formatted
    /\ forall state, formatted !! state = entryOf this state.
Proof.
  intros Hkeys.
  destruct (formatted_loop this (Object_keys (processedBetas this)) ∅)
    as (formatted & Hrun & Hlook).
  { intros k Hk%elem_of_Object_keys. by apply Hkeys. }
  exists formatted. split; [done|]. intros state. rewrite Hlook.
  destruct (decide (state ∈ Object_keys (processedBetas this))) as [Hin|Hnin].
  - by rewrite bool_decide_eq_true_2.
  - rewrite bool_decide_eq_false_2 by done. rewrite lookup_empty.
    unfold entryOf. rewrite elem_of_Object_keys in Hnin.
    destruct (processedBetas this !! state); [|done].
    exfalso. apply Hnin. by eexists.
Qed.



(** ** Loading *)

Lemma pushRow_spec store key r :
  ownKeysOrdinary store ->
  pushRow store key r
  = if inherited key then TypeError else Normal (appendRow store key r).
Proof.
  intros Hown. unfold pushRow, appendRow, get.
  destruct (store !! key) as [rows|] eqn:Hk.
  - assert (inherited key = false) as Hi by (apply Hown; by eexists).
    by rewrite Hk, Hi.
  - destruct (inherited key) eqn:Hi.
    + by rewrite Hk.
    + by rewrite lookup_insert_eq, insert_insert_eq.
Qed.

Lemma appendRow_ordinary store key r :
  ownKeysOrdinary store -> inherited key = false ->
  ownKeysOrdinary (appendRow store key r).
Proof.
  intros Hown Hkey k. unfold appendRow.
  destruct (decide (key = k)) as [<-|Hne]; [done|].
  rewrite lookup_insert_ne by done. apply Hown.
Qed.

Lemma groupRows_raised (key : row -> string) rows :
  fold_left (fun acc r => store' ← acc; pushRow store' (key r) r) rows TypeError
  = TypeError.
Proof. by induction rows. Qed.

(** The loop that groups the rows runs to its end exactly when no row is
    keyed by the name of a member of [Object.prototype]. *)
Lemma groupRows_spec (key : row -> string) rows store :
  ownKeysOrdinary store ->
  groupRows key rows store
  = if decide (ordinaryKeys key rows) then Normal (grouping key rows store)
    else TypeError.
Proof.
  unfold groupRows, grouping, ordinaryKeys.
  change (mret store) with (Normal store). revert store.
  induction rows as [|r rows IH]; intros store Hown; cbn [fold_left].
  - by rewrite decide_True by constructor.
  - change (Normal store ≫= _) with (pushRow store (key r) r).
    rewrite pushRow_spec by done.
    destruct (inherited (key r)) eqn:Hi.
    + rewrite groupRows_raised, decide_False; [done|].
      intros [Hr _]%Forall_cons. congruence.
    + rewrite (IH (appendRow store (key r) r))
        by (by apply appendRow_ordinary).
      destruct (decide (Forall _ rows)) as [Hrows|Hrows].
      * by rewrite decide_True by (by constructor).
      * rewrite decide_False; [done|]. by intros [_ ?]%Forall_cons.
Qed.

Lemma empty_ordinary : ownKeysOrdinary ∅.
Proof. intros k [rows Hk]. by rewrite lookup_empty in Hk. Qed.



(** [loadData] goes through its three loading steps exactly when no state
    row is keyed by the name of a member of [Object.prototype]; otherwise a
    push raises and the [catch] branch is taken. *)
Lemma loadData_unfold nationalRows stateRows metroRows :
  loadData constructor nationalRows stateRows metroRows
  = if decide (ordinaryKeys row_state stateRows)
    then this ← calculateBetas (loadedFrom nationalRows stateRows metroRows);
         calculateMetroBetas this
    else TypeError.
Proof.
  unfold loadData, loadStateData.
  cbn [stateData loadNationalData constructor].
  rewrite groupRows_spec by apply empty_ordinary.
  by destruct (decide (ordinaryKeys row_state stateRows)).
Qed.


(** ** C1: a calendar shorter than the window *)

(** C1.  The aligned calendar of a geography and the national series is
    the set of their common dates, newest first.  When it has fewer entries
    than the window, the beta of every metric over that window is [null]:
    on the state path, on the metro path, and in the table
    [calculateStateBetas] builds. *)
Theorem beta_null_when_calendar_shorter_than_window
  (this : processor) (geography : string) (series : list row)
  (metric : metric) (w : window) :
  let calendar := getCommonDates series (nationalData this) in
  ((forall d, d ∈ calendar <->
              d ∈ map month_date_yyyymm series
              /\ d ∈ map month_date_yyyymm (nationalData this))
   /\ NoDup calendar
   /\ descending calendar)
  /\ ((length calendar < monthsOf w)%nat ->
      calculateBeta this geography metric (monthsOf w) calendar = Normal None
      /\ calculateMetroBeta this geography metric (monthsOf w)
           (getCommonDatesMetro series (nationalData this)) = Normal None
      /\ (forall info,
            stateData this !! geography = Some series ->
            calculateStateBetas this geography = Normal info ->
            betaOf (betas info metric) w = None)).
Proof.
  intros calendar. split; [apply getCommonDates_spec|].
  intros Hshort. rewrite getCommonDatesMetro_eq. fold calendar.
  pose proof Hshort as Hltb. apply Nat.ltb_lt in Hltb.
  split_and!.
  - unfold calculateBeta. by rewrite Hltb.
  - unfold calculateMetroBeta. by rewrite Hltb.
  - intros info Hs Hinfo.
    destruct (calculateStateBetas_spec this geography series Hs)
      as (info' & Hinfo' & _ & Hbetas).
    rewrite Hinfo in Hinfo'. injection Hinfo' as <-.
    rewrite Hbetas. fold calendar. unfold windowBeta. by rewrite Hltb.
Qed.

Lemma beta_null_when_calendar_shorter_than_window_witness :
  calculateBeta Sample.threeMonths "Nevada" median_listing_price (monthsOf w1y)
    (getCommonDates Sample.state3 (nationalData Sample.threeMonths))
  = Normal None
  /\ calculateMetroBeta Sample.threeMonths "Nevada" median_listing_price
       (monthsOf w1y)
       (getCommonDatesMetro Sample.state3 (nationalData Sample.threeMonths))
     = Normal None.
Proof.
  assert (length (getCommonDates Sample.state3
                    (nationalData Sample.threeMonths)) < monthsOf w1y)%nat
    as Hshort by (vm_compute; lia).
  pose proof (beta_null_when_calendar_shorter_than_window Sample.threeMonths
                "Nevada" Sample.state3 median_listing_price w1y)
    as (_ & Hnull).
  destruct (Hnull Hshort) as (Hstate & Hmetro & _).
  split; [exact Hstate|exact Hmetro].
Defined.

(** ** C2: which pairs give a return *)

(** C2, on the code.  A year in which the state has no value for its newest
    month and the national series has none for the oldest month of the
    window.  [getReturns] decides for each series on that series' own
    values: the pair (202507, 202506) has a missing value in the state
    series and still gives a national return.  Each series gives ten
    returns, over different pairs; the lengths agree, so the guard of
    [calculateBeta] lets them through, and the beta is computed from
    returns of different months as a number. *)
Lemma gaps_at_different_months_pair_unrelated_returns :
  let this := Sample.oneYearWithGaps in
  let calendar := getCommonDates Sample.state13gap Sample.national13gap in
  let window := take 12 calendar in
  valueAt (buildDataMap Sample.state13gap) median_listing_price 202507 = None
  /\ ((202507, 202506)
      ∈ keptPairs Sample.national13gap median_listing_price window)
  /\ ((202507, 202506)
      ∉ keptPairs Sample.state13gap median_listing_price window)
  /\ length (getReturns Sample.state13gap median_listing_price window)
     = length (getReturns Sample.national13gap median_listing_price window)
  /\ keptPairs Sample.state13gap median_listing_price window
     <> keptPairs Sample.national13gap median_listing_price window
  /\ calculateBeta this "Nevada" median_listing_price 12 calendar <> Normal None
  /\ calculateBeta this "Nevada" median_listing_price 12 calendar <> TypeError.
Proof. cbv zeta. split_and!; apply (bool_decide_unpack _); by vm_compute. Qed.

(** ** C3: what an insufficient window gives *)




(** ** C7: month-over-month and year-over-year change *)

Import Changes.








(** ** C8: the overlap rule of the token stage *)

Import Str Reconciler.

Lemma prefix_length p s : String.prefix p s = true -> (String.length p <= String.length s)%nat.
Proof.
  revert s. induction p as [|a p IH]; intros [|b s]; simpl; try done; try lia.
  destruct (ascii_dec a b); [|done]. intros H%IH. lia.
Qed.

Lemma includes_length s sub :
  includes s sub = true -> (String.length sub <= String.length s)%nat.
Proof.
  induction s as [|a s IH]; cbn [includes].
  - rewrite orb_false_r. apply prefix_length.
  - intros [H%prefix_length | H%IH]%orb_true_iff; cbn [String.length] in *; lia.
Qed.

Lemma includes_refl s : includes s s = true.
Proof.
  assert (String.prefix s s = true) as Hp.
  { induction s as [|a s IH]; simpl; [done|].
    destruct (ascii_dec a a); [exact IH|done]. }
  destruct s; cbn [includes]; by rewrite Hp.
Qed.

(** What the callback computes: both tokens have four characters or more and
    one contains the other.  The comparison with [minLength * 0.8] never
    fails, since the contained token is the shorter one. *)
Lemma cityMatch_spec city cbsaCity :
  cityMatch city cbsaCity
  = ((4 <=? String.length city)%nat && (4 <=? String.length cbsaCity)%nat)
    && (includes city cbsaCity || includes cbsaCity city).
Proof.
  unfold cityMatch, atLeast80Percent.
  rewrite !(Nat.leb_antisym _ 4).
  destruct (String.length city <? 4)%nat; [done|].
  destruct (String.length cbsaCity <? 4)%nat; [done|].
  cbn [orb negb andb].
  destruct (String.eqb_spec city cbsaCity) as [->|Hne].
  { by rewrite includes_refl. }
  destruct (includes city cbsaCity) eqn:Hi1; cbn [orb andb].
  { apply includes_length in Hi1.
    destruct (Nat.leb_spec
                (8 * Nat.min (String.length city) (String.length cbsaCity))
                (10 * String.length cbsaCity)); [done|lia]. }
  destruct (includes cbsaCity city) eqn:Hi2; cbn [orb andb]; [|done].
  apply includes_length in Hi2.
  destruct (Nat.leb_spec
              (8 * Nat.min (String.length city) (String.length cbsaCity))
              (10 * String.length city)); [done|lia].
Qed.

(** C8, on the code.  The tokens "south portland" (14 characters) and
    "portland" (8): one contains the other, the shorter is less than 80% of
    the longer, and the callback counts the pair; with it the Maine label
    reaches a score of 80 and is mapped to the Oregon metro area. *)
Lemma contained_token_counts_whatever_its_length :
  cityMatch "south portland" "portland" = true
  /\ overlapRule "south portland" "portland" = false
  /\ extractCityNames "Portland-South Portland, ME"
     = ["portland"; "south portland"]%string
  /\ extractCityNames "Portland-Vancouver-Hillsboro, OR-WA Metro Area"
     = ["portland"; "vancouver"; "hillsboro"; "wa"]%string
  /\ bestCandidate "Portland-South Portland, ME"
       ["Portland-Vancouver-Hillsboro, OR-WA Metro Area"%string]
     = (Some "Portland-Vancouver-Hillsboro, OR-WA Metro Area"%string, 80)
  /\ createMetroNameMapping
       ["Portland-South Portland, ME"%string]
       ["Portland-Vancouver-Hillsboro, OR-WA Metro Area"%string]
     !! "Portland-South Portland, ME"%string
     = Some (Name "Portland-Vancouver-Hillsboro, OR-WA Metro Area").
Proof. split_and!; by vm_compute. Qed.

(** ** C9: the override table comes first *)

Lemma fold_insert_lookup (entries : list (string * string))
  (o : gmap string string) k v :
  fold_left (fun o kv => <[kv.1 := kv.2]> o) entries o !! k = Some v ->
  (k, v) ∈ entries \/ o !! k = Some v.
Proof.
  revert o. induction entries as [|[k' v'] entries IH]; intros o; simpl.
  - by right.
  - intros [Hin|Ho]%IH; [left; by right|].
    destruct (decide (k' = k)) as [->|Hne].
    + rewrite lookup_insert_eq in Ho. injection Ho as ->. left. by left.
    + rewrite lookup_insert_ne in Ho by done. by right.
Qed.

Lemma hardcoded_values_present :
  map_Forall (fun _ canonical => present (Some canonical) = true) hardcodedMappings.
Proof.
  intros k v Hk. unfold hardcodedMappings in Hk.
  apply fold_insert_lookup in Hk as [Hin|Hempty];
    [|by rewrite lookup_empty in Hempty].
  assert (Forall (fun kv => present (Some kv.2) = true) hardcodedEntries) as Hall.
  { unfold hardcodedEntries. repeat (constructor; [reflexivity|]). constructor. }
  rewrite Forall_forall in Hall. by apply (Hall (k, v)).
Qed.

Lemma hardcoded_keys_ordinary :
  map_Forall (fun label _ => inherited label = false) hardcodedMappings.
Proof.
  intros k v Hk. unfold hardcodedMappings in Hk.
  apply fold_insert_lookup in Hk as [Hin|Hempty];
    [|by rewrite lookup_empty in Hempty].
  assert (Forall (fun kv => inherited kv.1 = false) hardcodedEntries) as Hall.
  { unfold hardcodedEntries. repeat (constructor; [reflexivity|]). constructor. }
  rewrite Forall_forall in Hall. by apply (Hall (k, v)).
Qed.

Lemma inherited_proto : inherited "__proto__" = true.
Proof. reflexivity. Qed.

Lemma not_inherited_not_proto key :
  inherited key = false -> String.eqb key "__proto__" = false.
Proof.
  intros Hk. apply String.eqb_neq. intros ->. by rewrite inherited_proto in Hk.
Qed.

Lemma lookup_assign {V} (o : gmap string V) key v k :
  assign o key v !! k
  = if decide (key = k)
    then if String.eqb key "__proto__" then o !! k else Some v
    else o !! k.
Proof.
  unfold assign. destruct (decide (key = k)) as [->|Hne].
  - destruct (String.eqb k "__proto__"); [done|apply lookup_insert_eq].
  - destruct (String.eqb key "__proto__"); [done|by apply lookup_insert_ne].
Qed.

Lemma applyHardcoded_lookup mapping csvName label :
  applyHardcoded mapping csvName !! label
  = if decide (csvName = label)
    then match Scoring.override label with
         | Some stored => Some stored
         | None => mapping !! label
         end
    else mapping !! label.
Proof.
  unfold applyHardcoded, Scoring.override, get.
  generalize hardcoded_values_present hardcoded_keys_ordinary.
  generalize hardcodedMappings. intros table Hvalues Hkeys.
  destruct (table !! csvName) as [canonical|] eqn:Hh.
  - cbn [listed]. pose proof (Hvalues _ _ Hh) as Hp. cbn [present] in Hp.
    rewrite Hp, lookup_assign.
    rewrite (not_inherited_not_proto csvName) by apply (Hkeys _ _ Hh).
    destruct (decide (csvName = label)) as [<-|Hne]; [by rewrite Hh|done].
  - destruct (inherited csvName) eqn:Hi; cbn [listed].
    + rewrite lookup_assign.
      destruct (decide (csvName = label)) as [<-|Hne]; [|done].
      rewrite Hh, Hi. by destruct (String.eqb csvName "__proto__").
    + destruct (decide (csvName = label)) as [<-|Hne]; [|done].
      by rewrite Hh, Hi.
Qed.

(** The first pass gives every listed label of the table its override. *)
Lemma first_pass_lookup csvNames mapping label canonical :
  hardcodedMappings !! label = Some canonical ->
  label ∈ csvNames \/ mapping !! label = Some (Name canonical) ->
  fold_left applyHardcoded csvNames mapping !! label = Some (Name canonical).
Proof.
  intros Hh. revert mapping.
  induction csvNames as [|n csvNames IH]; intros mapping Hin; cbn [fold_left].
  - destruct Hin as [Hin|Hm]; [|exact Hm]. by apply elem_of_nil in Hin.
  - apply IH. rewrite applyHardcoded_lookup. unfold Scoring.override.
    destruct (decide (n = label)) as [->|Hne].
    + right. rewrite Hh. reflexivity.
    + destruct Hin as [Hin|Hm]; [|right; exact Hm].
      apply elem_of_cons in Hin as [->|Hin]; [congruence|left; exact Hin].
Qed.

(** A label that is already mapped keeps its value through any turn of the
    second pass. *)
Lemma matchOne_keeps cbsaNames mapping csvName label stored :
  mapping !! label = Some stored ->
  mapped (Own stored) = true ->
  matchOne cbsaNames mapping csvName !! label = Some stored.
Proof.
  intros Hm Hp. unfold matchOne.
  destruct (decide (csvName = label)) as [->|Hne].
  - unfold get. rewrite Hm, Hp. exact Hm.
  - destruct (mapped (get mapping csvName)); [exact Hm|].
    destruct (bestCandidate csvName cbsaNames) as [bestMatch bestScore].
    destruct (present bestMatch && (75 <=? bestScore)%Z); [|exact Hm].
    destruct bestMatch; [|exact Hm].
    rewrite lookup_assign, decide_False by done. exact Hm.
Qed.

Lemma second_pass_keeps cbsaNames csvNames mapping label stored :
  mapping !! label = Some stored ->
  mapped (Own stored) = true ->
  fold_left (matchOne cbsaNames) csvNames mapping !! label = Some stored.
Proof.
  intros Hm Hp. revert mapping Hm.
  induction csvNames as [|n csvNames IH]; intros mapping Hm; cbn [fold_left];
    [exact Hm|].
  apply IH. apply matchOne_keeps; [exact Hm|exact Hp].
Qed.

(** C9.  A listed label that is a key of the override table is mapped to the
    table's canonical label whatever the canonical names are, and whenever
    its turn comes in the second pass the turn leaves the mapping as it is:
    no candidate is scored for it. *)
Theorem override_label_uses_override
  (csvNames cbsaNames : list string) (label canonical : string) :
  label ∈ csvNames ->
  hardcodedMappings !! label = Some canonical ->
  createMetroNameMapping csvNames cbsaNames !! label = Some (Name canonical)
  /\ forall earlier,
       let mapping :=
         fold_left (matchOne cbsaNames) earlier
           (fold_left applyHardcoded csvNames ∅) in
       matchOne cbsaNames mapping label = mapping.
Proof.
  intros Hin Hh.
  pose proof (hardcoded_values_present _ _ Hh) as Hp.
  assert (fold_left applyHardcoded csvNames ∅ !! label = Some (Name canonical))
    as H1.
  { apply first_pass_lookup; [exact Hh|left; exact Hin]. }
  split.
  - unfold createMetroNameMapping. apply second_pass_keeps; [exact H1|exact Hp].
  - intros earlier mapping.
    assert (mapping !! label = Some (Name canonical)) as Hm.
    { apply second_pass_keeps; [exact H1|exact Hp]. }
    unfold matchOne, get. rewrite Hm. cbn [mapped]. cbn [present] in Hp.
    rewrite Hp. reflexivity.
Qed.

Lemma override_label_uses_override_witness :
  createMetroNameMapping
    ["Las Vegas, NV"; "Boise City, ID"]%string
    ["Las Vegas, NV"; "Las Vegas-Henderson-North Las Vegas, NV Metro Area";
     "Boise City, ID Metro Area"]%string
  !! "Las Vegas, NV"%string
  = Some (Name "Las Vegas-Henderson-North Las Vegas, NV Metro Area").
Proof.
  apply (override_label_uses_override
           ["Las Vegas, NV"; "Boise City, ID"]%string
           ["Las Vegas, NV";
            "Las Vegas-Henderson-North Las Vegas, NV Metro Area";
            "Boise City, ID Metro Area"]%string
           "Las Vegas, NV"%string
           "Las Vegas-Henderson-North Las Vegas, NV Metro Area"%string).
  - apply list_elem_of_here.
  - vm_compute. reflexivity.
Defined.

(** ** C10: fields of the line parser *)

Import Parser.

Lemma append_cons a s t :
  String.append (String a s) t = String a (String.append s t).
Proof. reflexivity. Qed.

Lemma append_nil_l s : String.append EmptyString s = s.
Proof. reflexivity. Qed.

Lemma append_nil_r s : String.append s EmptyString = s.
Proof.
  induction s as [|a s IH]; [done|]. by rewrite append_cons, IH.
Qed.

Lemma append_assoc3 s t u :
  String.append (String.append s t) u = String.append s (String.append t u).
Proof.
  induction s as [|a s IH]; [done|]. by rewrite !append_cons, IH.
Qed.

Lemma hasChar_append c s t :
  hasChar c (String.append s t) = hasChar c s || hasChar c t.
Proof.
  induction s as [|a s IH]; [done|].
  rewrite append_cons. simpl. rewrite IH. by rewrite orb_assoc.
Qed.

Lemma hasChar_trimStart c s : hasChar c s = false -> hasChar c (trimStart s) = false.
Proof.
  induction s as [|a s IH]; simpl; [done|].
  intros [Ha Hs]%orb_false_iff.
  destruct (isSpace a); simpl; [auto|]. by rewrite Ha, Hs.
Qed.

Lemma hasChar_trimEnd c s : hasChar c s = false -> hasChar c (trimEnd s) = false.
Proof.
  induction s as [|a s IH]; simpl; [done|].
  intros [Ha Hs]%orb_false_iff. specialize (IH Hs).
  destruct (trimEnd s) as [|b t]; simpl in *.
  - destruct (isSpace a); simpl; [done|]. by rewrite Ha.
  - by rewrite Ha, IH.
Qed.

Lemma hasChar_trim c s : hasChar c s = false -> hasChar c (trim s) = false.
Proof. intros. by apply hasChar_trimEnd, hasChar_trimStart. Qed.

Lemma trimStart_head s : startsWithSpace (trimStart s) = false.
Proof.
  induction s as [|a s IH]; simpl; [done|].
  destruct (isSpace a) eqn:Ha; simpl; [done|]. by rewrite Ha.
Qed.

Lemma trimEnd_head s :
  startsWithSpace s = false -> startsWithSpace (trimEnd s) = false.
Proof.
  destruct s as [|a s]; simpl; [done|]. intros Ha.
  destruct (trimEnd s); simpl; by rewrite ?Ha.
Qed.

Lemma trimEnd_last s : endsWithSpace (trimEnd s) = false.
Proof.
  unfold endsWithSpace.
  induction s as [|a s IH]; simpl; [done|].
  destruct (trimEnd s) as [|b t] eqn:Ht.
  - destruct (isSpace a) eqn:Ha; simpl; [done|]. by rewrite Ha.
  - simpl in *. done.
Qed.

Lemma trim_clean s :
  startsWithSpace (trim s) = false /\ endsWithSpace (trim s) = false.
Proof.
  split; [apply trimEnd_head, trimStart_head | apply trimEnd_last].
Qed.

Lemma trim_fieldClean current :
  hasChar dquote current = false -> fieldClean (trim current).
Proof.
  intros H. split; [by apply hasChar_trim | apply trim_clean].
Qed.

Lemma parseLoop_clean line values current inQuotes :
  Forall fieldClean values ->
  hasChar dquote current = false ->
  Forall fieldClean (parseLoop line values current inQuotes).
Proof.
  revert values current inQuotes.
  induction line as [|char rest IH]; intros values current inQuotes Hv Hc; simpl.
  - apply Forall_app. split; [done|]. constructor; [|done].
    by apply trim_fieldClean.
  - destruct (Ascii.eqb_spec char dquote) as [->|Hq]; [by apply IH|].
    destruct ((char =? ",")%char && negb inQuotes).
    + apply IH; [|done]. apply Forall_app. split; [done|].
      constructor; [|done]. by apply trim_fieldClean.
    + apply IH; [done|]. rewrite hasChar_append, Hc. simpl.
      rewrite orb_false_r. by apply Ascii.eqb_neq.
Qed.

(** Text without quotes met inside a quoted field is appended as it is,
    commas included. *)
Lemma parseLoop_quoted a rest values current :
  hasChar dquote a = false ->
  parseLoop (String.append a rest) values current true
  = parseLoop rest values (String.append current a) true.
Proof.
  revert current. induction a as [|c a IH]; intros current Ha.
  - by rewrite append_nil_l, append_nil_r.
  - simpl in Ha. apply orb_false_iff in Ha as [Hc Ha].
    rewrite append_cons. simpl.
    rewrite Hc. rewrite andb_false_r. rewrite IH by done.
    by rewrite append_assoc3.
Qed.

(** C10.  No field returned by [parseCSVLine] contains a double quote, and
    none starts or ends with white space; in particular a quoted field with
    a doubled quote inside yields the text on both sides of the doubled
    quote, joined, with all four quote characters gone. *)
Theorem parseCSVLine_fields_have_no_quote_and_are_trimmed (line : string) :
  (forall field, field ∈ parseCSVLine line ->
     hasChar dquote field = false
     /\ startsWithSpace field = false
     /\ endsWithSpace field = false)
  /\ (forall a b,
        hasChar dquote a = false -> hasChar dquote b = false ->
        line = Sample.quotedWithDoubledQuote a b ->
        parseCSVLine line = [trim (String.append a b)]).
Proof.
  split.
  - intros field Hin.
    assert (Forall fieldClean (parseCSVLine line)) as Hall
      by (apply parseLoop_clean; [constructor | done]).
    rewrite Forall_forall in Hall. by apply Hall.
  - intros a b Ha Hb ->.
    unfold parseCSVLine, Sample.quotedWithDoubledQuote. simpl.
    rewrite parseLoop_quoted by done. simpl.
    rewrite parseLoop_quoted by done. simpl.
    by rewrite append_nil_l.
Qed.

Lemma parseCSVLine_fields_have_no_quote_and_are_trimmed_witness :
  let line := Sample.quotedWithDoubledQuote "Reno, " "NV " in
  parseCSVLine line = ["Reno, NV"%string]
  /\ hasChar dquote "Reno, NV" = false
  /\ startsWithSpace "Reno, NV" = false
  /\ endsWithSpace "Reno, NV" = false.
Proof.
  intros line.
  pose proof (parseCSVLine_fields_have_no_quote_and_are_trimmed line)
    as [Hclean Hquoted].
  assert (parseCSVLine line = ["Reno, NV"%string]) as Hline.
  { apply (Hquoted "Reno, "%string "NV "%string); reflexivity. }
  split; [exact Hline|].
  apply Hclean. rewrite Hline. apply list_elem_of_here.
Defined.

(** * The values the engine returns, in binary64 *)

Section Binary64Facts.
Import Binary64.
Local Open Scope float_scope.

(** ** Binary64 arithmetic *)

Lemma Prim2SF_zero : Prim2SF 0 = S754_zero false.
Proof. reflexivity. Qed.

(** A finite number is a zero or has a mantissa and an exponent. *)
Lemma finite_classes x :
  is_finite x = true ->
  match Prim2SF x with
  | S754_zero _ | S754_finite _ _ _ => True
  | _ => False
  end.
Proof.
  unfold is_finite, is_nan, is_infinity.
  rewrite !FloatAxioms.eqb_spec, abs_spec.
  destruct (Prim2SF x) as [s|s| |s m e]; try done.
  change (Prim2SF infinity) with (S754_infinity false). by destruct s.
Qed.

(** A finite number differs by a zero from a number that [===] holds equal
    to it. *)
Lemma sub_of_equal x y :
  is_finite y = true -> (x =? y) = true ->
  exists s, Prim2SF (y - x) = S754_zero s.
Proof.
  intros Hy%finite_classes. rewrite FloatAxioms.eqb_spec, sub_spec.
  unfold SFeqb, SF64sub.
  destruct (Prim2SF x) as [sx|sx| |sx mx ex], (Prim2SF y) as [sy|sy| |sy my ey];
    try done.
  - intros _. destruct sy, sx; by eexists.
  - cbn [SFcompare]. by destruct sy.
  - cbn [SFcompare]. by destruct sx.
  - cbn [SFcompare]. by destruct sx.
  - cbn [SFcompare]. by destruct sx.
  - cbn [SFcompare]. intros Heq.
    assert (sx = sy /\ ex = ey /\ mx = my) as (-> & -> & ->).
    { destruct sx, sy; try done;
        destruct (Z.compare_spec ex ey) as [He| |]; try done;
        destruct (Pos.compare_cont Eq mx my) eqn:Hm; try done;
        apply Pos.compare_eq in Hm; by subst. }
    exists false. cbn [SFsub]. by rewrite Z.sub_diag.
Qed.

Lemma square_of_zero d s : Prim2SF d = S754_zero s -> square d = 0.
Proof.
  intros Hd. apply Prim2SF_inj. unfold square.
  rewrite mul_spec, Hd, Prim2SF_zero. by destruct s.
Qed.

Lemma zero_div_positive d : (0 <? d) = true -> 0 / d = 0.
Proof.
  rewrite ltb_spec, Prim2SF_zero. intros Hd.
  apply Prim2SF_inj. rewrite div_spec, Prim2SF_zero.
  unfold SFltb in Hd.
  destruct (Prim2SF d) as [s|s| |s m e]; try done; by destruct s.
Qed.

Lemma total_zeros n : total (replicate n 0) = 0.
Proof.
  unfold total. induction n as [|n IH]; [done|].
  cbn [replicate fold_left]. exact IH.
Qed.

(** ** The loops of [calculateCovariance] and [calculateVariance] *)

Lemma fold_left_fmap {A B C} (f : A -> C -> A) (h : B -> C) (l : list B) a :
  fold_left f (map h l) a = fold_left (fun acc b => f acc (h b)) l a.
Proof. revert a. induction l as [|b l IH]; intros a; [done|apply IH]. Qed.

(** The loop over the indices reads the two arrays pair by pair. *)
Lemma binary64_index_loop_zip (g : float -> float -> float -> float)
  (x y : list float) a :
  length x = length y ->
  fold_left (fun acc i => g acc (at_ x i) (at_ y i)) (seq 0 (length x)) a
  = fold_left (fun acc p => g acc p.1 p.2) (zip x y) a.
Proof.
  revert y a. induction x as [|x0 x IH]; intros [|y0 y] a Hlen; try done.
  cbn [length seq fold_left zip zip_with fst snd].
  rewrite <- seq_shift, fold_left_fmap.
  injection Hlen as Hlen. exact (IH y _ Hlen).
Qed.

Lemma total_zip_with (f : float -> float -> float) (xs ys : list float) :
  total (zip_with f xs ys)
  = fold_left (fun acc p => acc + f p.1 p.2) (zip xs ys) 0.
Proof.
  unfold total. generalize 0. revert ys.
  induction xs as [|x xs IH]; intros [|y ys] a; try done.
  cbn [zip_with zip fold_left fst snd]. apply IH.
Qed.

Lemma sumReduce_total x : sumReduce x = total x.
Proof. reflexivity. Qed.

Lemma calculateCovariance_spec (xs ys : list float) :
  length xs = length ys -> (1 <= length xs)%nat ->
  calculateCovariance xs ys = sampleCovariance xs ys.
Proof.
  intros Hlen Hn. unfold calculateCovariance, sampleCovariance, mean, size.
  rewrite <- Hlen, Nat.eqb_refl.
  destruct (Nat.eqb_spec (length xs) 0) as [|_]; [lia|]. cbn [negb orb].
  rewrite !sumReduce_total, total_zip_with.
  by rewrite (binary64_index_loop_zip
                (fun acc a b =>
                   acc + (a - total xs / ofNat (length xs))
                         * (b - total ys / ofNat (length xs)))).
Qed.

Lemma calculateVariance_spec (ys : list float) :
  (1 <= length ys)%nat -> calculateVariance ys = sampleVariance ys.
Proof.
  intros Hn. unfold calculateVariance, sampleVariance, sampleCovariance,
    mean, size, square.
  destruct (Nat.eqb_spec (length ys) 0) as [|_]; [lia|].
  rewrite !sumReduce_total, total_zip_with.
  by rewrite <- (binary64_index_loop_zip
                   (fun acc a b =>
                      acc + (a - total ys / ofNat (length ys))
                            * (b - total ys / ofNat (length ys)))).
Qed.

Context (ToNumber : string -> float).

(** [calculateBeta] from its first guard on, for a state of the store. *)
Lemma binary64_calculateBeta_on_returns this state metric months commonDates series :
  (months <= length commonDates)%nat ->
  stateData this !! state = Some series ->
  let xs := getReturns ToNumber series metric (take months commonDates) in
  let ys :=
    getReturns ToNumber (nationalData this) metric (take months commonDates) in
  calculateBeta ToNumber this state metric months commonDates
  = JS.Normal
      (if negb (length xs =? length ys)%nat || (length xs <? 2)%nat then None
       else if (calculateVariance ys =? 0) then None
            else Some (calculateCovariance xs ys / calculateVariance ys)).
Proof.
  intros Hm Hs xs ys. unfold calculateBeta, seriesOf.
  rewrite (proj2 (Nat.ltb_ge _ _) Hm), Hs.
  cbn [mbind JS.completion_bind]. fold xs ys.
  destruct (negb _ || _); [done|]. unfold strictEq.
  by destruct (calculateVariance ys =? 0).
Qed.

(** ** C4: beta is sample covariance over sample variance *)

(** C4.  Let [xs] be the returns of the local series and [ys] those of the
    national series over the window, of one length [n >= 2].  Then
    [calculateCovariance] is [Σ((x_i − mean_x)(y_i − mean_y)) / (n − 1)],
    [calculateVariance] of [ys] is the same form on [ys] alone, and beta is
    [null] exactly when that variance is zero and their quotient otherwise;
    sums, means, products and quotients are those of binary64, the terms
    of a sum being added from left to right. *)
Theorem beta_is_sample_covariance_over_sample_variance
  (this : processor) (state : string) (metric : DataProcessor.metric)
  (months : nat) (commonDates : list Z) (series : list row)
  (xs ys : list float) :
  (months <= length commonDates)%nat ->
  stateData this !! state = Some series ->
  getReturns ToNumber series metric (take months commonDates) = xs ->
  getReturns ToNumber (nationalData this) metric (take months commonDates)
    = ys ->
  length xs = length ys ->
  (2 <= length xs)%nat ->
  calculateCovariance xs ys = sampleCovariance xs ys
  /\ calculateVariance ys = sampleVariance ys
  /\ (calculateBeta ToNumber this state metric months commonDates
      = JS.Normal None
      <-> (sampleVariance ys =? 0) = true)
  /\ ((sampleVariance ys =? 0) = false ->
      calculateBeta ToNumber this state metric months commonDates
      = JS.Normal (Some (sampleCovariance xs ys / sampleVariance ys))).
Proof.
  intros Hm Hs Hx Hy Hlen Hn.
  pose proof (binary64_calculateBeta_on_returns this state metric months commonDates
                series Hm Hs) as Hbeta.
  cbv zeta in Hbeta. rewrite Hx, Hy in Hbeta.
  rewrite (proj2 (Nat.eqb_eq _ _) Hlen) in Hbeta.
  rewrite (proj2 (Nat.ltb_ge _ _) Hn) in Hbeta. cbn [negb orb] in Hbeta.
  rewrite calculateCovariance_spec in * by (done || lia).
  rewrite calculateVariance_spec in * by lia.
  split_and!; [done..| |].
  - rewrite Hbeta. by destruct (sampleVariance ys =? 0).
  - intros Hv. by rewrite Hbeta, Hv.
Qed.

(** ** C5: rescaling a series *)



(** ** C6: constant series *)

Lemma sampleVariance_constant (v : float) (n : nat) :
  is_finite v = true ->
  (mean (replicate n v) =? v) = true ->
  sampleVariance (replicate n v) = 0 / (ofNat n - 1).
Proof.
  intros Hv Hmean. unfold sampleVariance, sampleCovariance, size.
  rewrite length_replicate. f_equal.
  destruct (sub_of_equal _ v Hv Hmean) as [s Hs].
  rewrite zip_with_replicate.
  change (?d * ?d) with (square d).
  rewrite (square_of_zero _ s Hs). apply total_zeros.
Qed.

(** C6, as amended.  Take a series that repeats one finite value [v], whose
    mean as [calculateVariance] computes it, the sum from left to right
    divided by [n], comes out equal to [v].  For a single term the variance
    is NaN; for [n] terms with [n − 1] positive it is exactly [0], and a
    national return series of that kind makes the beta [null]. *)
Theorem constant_series_variance_and_beta (v : float) (n : nat) :
  is_finite v = true ->
  (mean (replicate n v) =? v) = true ->
  (n = 1%nat -> calculateVariance (replicate n v) = nan)
  /\ ((0 <? ofNat n - 1) = true ->
      calculateVariance (replicate n v) = 0
      /\ forall this state metric months commonDates series,
           stateData this !! state = Some series ->
           getReturns ToNumber (nationalData this) metric
             (take months commonDates) = replicate n v ->
           calculateBeta ToNumber this state metric months commonDates
           = JS.Normal None).
Proof.
  intros Hv Hmean.
  pose proof (sampleVariance_constant v n Hv Hmean) as Hvar.
  split.
  - intros ->. rewrite calculateVariance_spec by done. by rewrite Hvar.
  - intros Hpos.
    assert (n <> 0%nat) as Hn by (intros ->; by vm_compute in Hpos).
    assert (calculateVariance (replicate n v) = 0) as Hzero.
    { rewrite calculateVariance_spec by (rewrite length_replicate; lia).
      rewrite Hvar. by apply zero_div_positive. }
    split; [done|].
    intros this state metric months commonDates series Hs Hy.
    destruct (Nat.ltb_spec (length commonDates) months) as [Hshort|Hm].
    + unfold calculateBeta. by rewrite (proj2 (Nat.ltb_lt _ _) Hshort).
    + rewrite (binary64_calculateBeta_on_returns _ _ _ _ _ _ Hm Hs). cbv zeta.
      rewrite Hy, Hzero. by destruct (negb _ || _).
Qed.

End Binary64Facts.


(** ** Evaluations on sample data *)

Section Binary64Evaluations.
Import Binary64.
Local Open Scope float_scope.

Lemma beta_is_sample_covariance_over_sample_variance_witness :
  let xs := [(650 - 640) / 640; (640 - 600) / 600] in
  let ys := [(1300 - 1250) / 1250; (1250 - 1200) / 1200] in
  getReturns notANumber state13 DataProcessor.median_listing_price (take 3 months13) = xs
  /\ getReturns notANumber (nationalData oneYear) DataProcessor.median_listing_price
       (take 3 months13) = ys
  /\ (sampleVariance ys =? 0) = false
  /\ calculateBeta notANumber oneYear "Nevada" DataProcessor.median_listing_price 3 months13
     = JS.Normal (Some (sampleCovariance xs ys / sampleVariance ys))
  /\ sampleCovariance xs ys / sampleVariance ys = 0x1.ea00000000010p+4.
Proof.
  intros xs ys.
  assert (getReturns notANumber state13 DataProcessor.median_listing_price (take 3 months13) = xs)
    as Hx by (vm_compute; reflexivity).
  assert (getReturns notANumber (nationalData oneYear) DataProcessor.median_listing_price
            (take 3 months13) = ys) as Hy by (vm_compute; reflexivity).
  assert ((sampleVariance ys =? 0) = false) as Hv by (vm_compute; reflexivity).
  split_and!; [exact Hx|exact Hy|exact Hv| |vm_compute; reflexivity].
  refine (proj2 (proj2 (proj2
    (beta_is_sample_covariance_over_sample_variance notANumber oneYear
       "Nevada" DataProcessor.median_listing_price 3 months13 state13 xs ys
       _ _ Hx Hy _ _))) Hv).
  - vm_compute; lia.
  - vm_compute; reflexivity.
  - reflexivity.
  - vm_compute; lia.
Defined.



Lemma constant_series_variance_and_beta_witness :
  calculateVariance (replicate 1 (1 / 2)) = nan
  /\ getReturns notANumber (nationalData fastGrowth) DataProcessor.median_listing_price
       (take 12 months13) = replicate 11 (1 / 2)
  /\ calculateVariance (replicate 11 (1 / 2)) = 0
  /\ calculateBeta notANumber fastGrowth "Nevada" DataProcessor.median_listing_price 12 months13
     = JS.Normal None.
Proof.
  assert (getReturns notANumber (nationalData fastGrowth) DataProcessor.median_listing_price
            (take 12 months13) = replicate 11 (1 / 2)) as Hy
    by (vm_compute; reflexivity).
  split_and!; [| exact Hy | |].
  - refine (proj1 (constant_series_variance_and_beta notANumber (1 / 2) 1 _ _)
              eq_refl); vm_compute; reflexivity.
  - refine (proj1 (proj2 (constant_series_variance_and_beta notANumber (1 / 2)
                            11 _ _) _)); vm_compute; reflexivity.
  - refine (proj2 (proj2 (constant_series_variance_and_beta notANumber (1 / 2)
                            11 _ _) _) fastGrowth "Nevada" DataProcessor.median_listing_price 12%nat
              months13 state13 _ Hy); vm_compute; reflexivity.
Defined.

(** C6, where the claim fails.  Three returns of one tenth have the mean
    [0.10000000000000002], and [calculateVariance] returns [1.5 * 2^-111],
    about [2.9e-34], for them, not [0]; for a single return it returns NaN.
    Against a national series that grows by a tenth a month, whose eleven
    returns are all the number nearest to one tenth, the beta is a number,
    about [-0.227], not [null]. *)
Lemma constant_returns_with_rounded_mean_have_positive_variance :
  let tenth := 1 / 10 in
  (mean (replicate 3 tenth) =? tenth) = false
  /\ calculateVariance (replicate 3 tenth) = 0x1.8p-112
  /\ (calculateVariance (replicate 3 tenth) =? 0) = false
  /\ calculateVariance (replicate 1 tenth) = nan
  /\ getReturns notANumber (nationalData steadyGrowth) DataProcessor.median_listing_price
       (take 12 months13) = replicate 11 tenth
  /\ calculateBeta notANumber steadyGrowth "Nevada" DataProcessor.median_listing_price 12 months13
     = JS.Normal (Some (-0x1.d1745d1745d17p-3)).
Proof. intros tenth. split_and!; vm_compute; reflexivity. Qed.

End Binary64Evaluations.

(** * Further properties *)

Import Accessors MetroTable Csv Scoring Display.
(** ** Sorted series *)


Lemma byDateDescending_key :
  byDateDescending
  = fun a b => month_date_yyyymm b - month_date_yyyymm a.
Proof. reflexivity. Qed.

Lemma Array_sort_newestFirst series :
  newestFirst (Array_sort byDateDescending series).
Proof. apply (Array_sort_by_key month_date_yyyymm). Qed.

(** Sorting a sorted array leaves it as it is. *)
Lemma Array_sort_sorted {A} (key : A -> Z) l :
  Sorted (fun a b => key b <= key a) l ->
  Array_sort (fun a b => key b - key a) l = l.
Proof.
  induction 1 as [|x l Hl IH Hx]; [done|].
  cbn [Array_sort foldr]. fold (Array_sort (fun a b => key b - key a) l).
  rewrite IH. destruct Hx as [|y l' Hy]; [done|].
  cbn [sortInsert]. destruct (Z.leb_spec (key y - key x) 0); [done|lia].
Qed.

Lemma Sorted_head_largest {A} (key : A -> Z) x l :
  Sorted (fun a b => key b <= key a) (x :: l) ->
  forall y, y ∈ l -> key y <= key x.
Proof.
  intros Hs. apply Sorted_StronglySorted in Hs; [|intros a b c; lia].
  apply StronglySorted_inv in Hs as [_ Hall].
  rewrite List.Forall_forall in Hall. intros y Hy. apply Hall.
  by apply list_elem_of_In.
Qed.

Lemma key_injective_on {A} (key : A -> Z) l x y :
  NoDup (map key l) -> x ∈ l -> y ∈ l -> key x = key y -> x = y.
Proof.
  induction l as [|a l IH]; intros Hnd Hx Hy Hk; [by apply elem_of_nil in Hx|].
  cbn [map] in Hnd. apply NoDup_cons in Hnd as [Ha Hnd].
  apply elem_of_cons in Hx as [->|Hx], Hy as [->|Hy]; [done| | |by apply IH].
  - exfalso. apply Ha. rewrite Hk. by apply list_elem_of_fmap_2.
  - exfalso. apply Ha. rewrite <- Hk. by apply list_elem_of_fmap_2.
Qed.

(** Two orderings of the same elements, both sorted by a key that no two
    elements share, are the same list. *)
Lemma Sorted_unique {A} (key : A -> Z) l1 l2 :
  NoDup (map key l1) -> l1 ≡ₚ l2 ->
  Sorted (fun a b => key b <= key a) l1 ->
  Sorted (fun a b => key b <= key a) l2 ->
  l1 = l2.
Proof.
  revert l2. induction l1 as [|x l1 IH]; intros l2 Hnd Hp H1 H2.
  - by apply Permutation_nil_l in Hp.
  - destruct l2 as [|y l2]; [by apply Permutation_nil_r in Hp|].
    assert (x = y) as <-.
    { apply (key_injective_on key (x :: l1)); [done|by left| |].
      - rewrite Hp. by left.
      - assert (x ∈ y :: l2) as Hx by (rewrite <- Hp; by left).
        assert (y ∈ x :: l1) as Hy by (rewrite Hp; by left).
        apply elem_of_cons in Hx as [->|Hx]; [done|].
        apply elem_of_cons in Hy as [->|Hy]; [done|].
        pose proof (Sorted_head_largest key _ _ H1 y Hy).
        pose proof (Sorted_head_largest key _ _ H2 x Hx). lia. }
    f_equal. apply IH.
    + cbn [map] in Hnd. by apply NoDup_cons in Hnd as [_ ?].
    + by apply Permutation_cons_inv in Hp.
    + by apply Sorted_inv in H1 as [? _].
    + by apply Sorted_inv in H2 as [? _].
Qed.

Lemma Array_sort_Permutation_eq {A} (key : A -> Z) l1 l2 :
  NoDup (map key l1) -> l1 ≡ₚ l2 ->
  Array_sort (fun a b => key b - key a) l1
  = Array_sort (fun a b => key b - key a) l2.
Proof.
  intros Hnd Hp. apply (Sorted_unique key).
  - by rewrite Array_sort_Permutation.
  - by rewrite !Array_sort_Permutation.
  - apply Array_sort_by_key.
  - apply Array_sort_by_key.
Qed.

(** ** Loading: the groups *)

Lemma grouped_lookup (key : row -> string) rows (store : gmap string (list row)) k :
  grouping key rows store !! k
  = match store !! k, filter (fun r => key r = k) rows with
    | None, [] => None
    | None, own => Some own
    | Some old, own => Some (old ++ own)
    end.
Proof.
  unfold grouping. revert store.
  induction rows as [|r rows IH]; intros store; cbn [fold_left].
  - rewrite filter_nil. destruct (store !! k); [|done]. by rewrite app_nil_r.
  - rewrite IH, filter_cons. unfold appendRow.
    destruct (decide (key r = k)) as [<-|Hne].
    + rewrite lookup_insert_eq.
      destruct (store !! key r) as [old|]; cbn [default].
      * by rewrite <- app_assoc.
      * done.
    + by rewrite lookup_insert_ne.
Qed.

Lemma sorted_lookup (store : gmap string (list row)) k :
  (Array_sort byDateDescending <$> store) !! k
  = Array_sort byDateDescending <$> (store !! k).
Proof. apply lookup_fmap. Qed.

Lemma filter_nil_iff {A} (P : A -> Prop) `{forall x, Decision (P x)} (l : list A) :
  filter P l = [] <-> forall x, x ∈ l -> ~ P x.
Proof.
  split.
  - intros Hnil x Hx HP.
    assert (x ∈ filter P l) as Hin by (by apply list_elem_of_filter).
    rewrite Hnil in Hin. by apply elem_of_nil in Hin.
  - intros Hall. destruct (filter P l) as [|x l'] eqn:Hf; [done|].
    assert (x ∈ filter P l) as Hin by (rewrite Hf; by left).
    apply list_elem_of_filter in Hin as [HP Hx]. by destruct (Hall x Hx).
Qed.

(** What the loop of [calculateMetroBetas] leaves in the processor. *)
Lemma calculateMetroBetas_result this :
  exists this',
    calculateMetroBetas this = Normal this'
    /\ stateData this' = stateData this
    /\ nationalData this' = nationalData this
    /\ metroData this' = metroData this
    /\ processedBetas this' = processedBetas this
    /\ forall metro,
         processedMetroBetas this' !! metro
         = match metroData this !! metro with
           | Some _ =>
               match calculateMetroAreaBetas this metro with
               | Normal info => Some info
               | TypeError => None
               end
           | None => processedMetroBetas this !! metro
           end.
Proof.
  unfold calculateMetroBetas. rewrite forEach_storeMetroBetas.
  destruct (calculateBetas_loop (swapStores this)
              (Object_keys (metroData this)) (swapStores this))
    as (this' & Hrun & Hs & Hn & Hm & Hp & Hlook); [done..| |].
  { intros k. by rewrite elem_of_Object_keys. }
  rewrite Hrun. exists (swapStores this'). split_and!; [done..|].
  intros metro. cbn [processedMetroBetas swapStores]. rewrite Hlook.
  rewrite calculateMetroAreaBetas_swap.
  destruct (metroData this !! metro) as [series|] eqn:Hmetro.
  - rewrite bool_decide_eq_true_2; [done|].
    apply elem_of_Object_keys. by rewrite Hmetro.
  - rewrite bool_decide_eq_false_2; [done|].
    rewrite elem_of_Object_keys, Hmetro. by intros [? ?].
Qed.

(** [loadMetroData] on a processor without metro areas: the groups of the
    rows, or nothing at all when a push raised. *)
Lemma loadMetroData_lookup this metroRows metro :
  metroData this = ∅ ->
  metroData (loadMetroData this metroRows) !! metro
  = if decide (ordinaryKeys metroKey metroRows)
    then seriesOfKey metroKey metroRows metro
    else None.
Proof.
  intros Hempty. cbn [metroData loadMetroData].
  rewrite Hempty, groupRows_spec by apply empty_ordinary.
  destruct (decide (ordinaryKeys metroKey metroRows)); [|apply lookup_empty].
  rewrite sorted_lookup, grouped_lookup, lookup_empty. unfold seriesOfKey.
  by destruct (filter _ metroRows).
Qed.

Lemma loaded_stateData nationalRows stateRows metroRows state :
  stateData (loadedFrom nationalRows stateRows metroRows) !! state
  = seriesOfKey row_state stateRows state.
Proof.
  cbn [stateData loadMetroData loadedFrom].
  rewrite sorted_lookup, grouped_lookup, lookup_empty. unfold seriesOfKey.
  by destruct (filter _ stateRows).
Qed.

Lemma loaded_metroData nationalRows stateRows metroRows metro :
  metroData (loadedFrom nationalRows stateRows metroRows) !! metro
  = if decide (ordinaryKeys metroKey metroRows)
    then seriesOfKey metroKey metroRows metro
    else None.
Proof. by apply loadMetroData_lookup. Qed.

(** The processor that [loadData] hands over when it returns [true], from
    the parsed rows of the three files. *)
Lemma loadData_result nationalRows stateRows metroRows :
  ordinaryKeys row_state stateRows ->
  let loaded := loadedFrom nationalRows stateRows metroRows in
  exists this,
    loadData constructor nationalRows stateRows metroRows = Normal this
    /\ nationalData this = nationalData loaded
    /\ stateData this = stateData loaded
    /\ metroData this = metroData loaded
    /\ (forall state,
          processedBetas this !! state
          = match stateData loaded !! state with
            | Some _ =>
                match calculateStateBetas loaded state with
                | Normal info => Some info
                | TypeError => None
                end
            | None => None
            end)
    /\ (forall metro,
          processedMetroBetas this !! metro
          = match metroData loaded !! metro with
            | Some _ =>
                match calculateMetroAreaBetas loaded metro with
                | Normal info => Some info
                | TypeError => None
                end
            | None => None
            end).
Proof.
  intros Hkeys loaded.
  destruct (calculateBetas_spec loaded)
    as (this1 & Hrun1 & Hs1 & Hn1 & Hm1 & Hpm1 & Hlook1).
  destruct (calculateMetroBetas_result this1)
    as (this & Hrun & Hs & Hn & Hm & Hp & Hlook).
  exists this. rewrite loadData_unfold, decide_True by done.
  fold loaded. rewrite Hrun1.
  cbn [mbind completion_bind]. split_and!; [done|congruence..| |].
  - intros state. by rewrite Hp, Hlook1.
  - intros metro. rewrite Hlook, Hm1, Hpm1.
    rewrite !calculateMetroAreaBetas_swap.
    rewrite (calculateStateBetas_ext (swapStores this1) (swapStores loaded))
      by done.
    by destruct (metroData loaded !! metro).
Qed.

(** What [loadData] returns: [false] exactly when a state row is keyed by
    the name of a member of [Object.prototype]. *)
Lemma loadData_returns nationalRows stateRows metroRows :
  match loadData constructor nationalRows stateRows metroRows with
  | Normal _ => ordinaryKeys row_state stateRows
  | TypeError => ~ ordinaryKeys row_state stateRows
  end.
Proof.
  destruct (decide (ordinaryKeys row_state stateRows)) as [Hkeys|Hkeys].
  - by destruct (loadData_result nationalRows stateRows metroRows Hkeys)
      as (this & -> & _).
  - by rewrite loadData_unfold, decide_False.
Qed.

Lemma loadData_Normal nationalRows stateRows metroRows this :
  loadData constructor nationalRows stateRows metroRows = Normal this ->
  ordinaryKeys row_state stateRows.
Proof.
  intros Hrun. pose proof (loadData_returns nationalRows stateRows metroRows).
  by rewrite Hrun in *.
Qed.

(** ** X1: the groups of [loadStateData] and [loadMetroData] *)

(** X1.  On a new processor, [loadStateData] raises a [TypeError] exactly
    when some row is keyed by the name of a member of [Object.prototype];
    otherwise it stores under every state exactly the rows of that state,
    ordered newest first with the rows of one date in the order of the
    file, and stores nothing under a state that has no row.
    [loadMetroData] never raises: it does the same under the key
    [cbsa_title || metro_name || metro] of each row, and leaves no metro
    area at all when some row is keyed by such a name. *)
Theorem loading_groups_the_rows_by_key (rows : list row) (key : string) :
  match loadStateData constructor rows with
  | Normal this =>
      ordinaryKeys row_state rows
      /\ stateData this !! key = seriesOfKey row_state rows key
  | TypeError => Exists (fun r => inherited (row_state r) = true) rows
  end
  /\ metroData (loadMetroData constructor rows) !! key
     = if decide (ordinaryKeys metroKey rows)
       then seriesOfKey metroKey rows key
       else None.
Proof.
  split; [|by apply loadMetroData_lookup].
  unfold loadStateData. cbn [stateData constructor].
  rewrite groupRows_spec by apply empty_ordinary.
  destruct (decide (ordinaryKeys row_state rows)) as [Hkeys|Hkeys].
  - cbn [mbind completion_bind mret completion_ret stateData].
    split; [done|].
    rewrite sorted_lookup, grouped_lookup, lookup_empty. unfold seriesOfKey.
    by destruct (filter _ rows).
  - cbn [mbind completion_bind].
    apply not_Forall_Exists in Hkeys; [|apply _].
    eapply Exists_impl; [exact Hkeys|]. intros r Hr. cbn in Hr.
    by destruct (inherited (row_state r)).
Qed.

(** ** X2: every loaded series is ordered and non-empty *)

Lemma loaded_series_shape (key : row -> string) rows k series :
  seriesOfKey key rows k = Some series ->
  series <> [] /\ newestFirst series
  /\ series ≡ₚ filter (fun r => key r = k) rows.
Proof.
  unfold seriesOfKey.
  destruct (filter _ rows) as [|r own] eqn:Hf; [done|].
  intros Heq.
  assert (series = Array_sort byDateDescending (r :: own)) as -> by congruence.
  split_and!.
  - intros Hnil. apply (f_equal length) in Hnil.
    by rewrite Array_sort_length in Hnil.
  - apply Array_sort_newestFirst.
  - apply Array_sort_Permutation.
Qed.

(** X2.  [loadData] returns [false] exactly when a state row is keyed by
    the name of a member of [Object.prototype].  When it returns [true],
    the national series holds the national rows, ordered newest first,
    every state series and every metro series is non-empty and ordered
    newest first, every state that has a row has a series, and there is no
    metro series at all when a metro row is keyed by such a name. *)
Theorem loaded_series_are_newest_first
  (nationalRows stateRows metroRows : list row) :
  match loadData constructor nationalRows stateRows metroRows with
  | TypeError => Exists (fun r => inherited (row_state r) = true) stateRows
  | Normal this =>
      ordinaryKeys row_state stateRows
      /\ nationalData this ≡ₚ nationalRows
      /\ newestFirst (nationalData this)
      /\ map_Forall (fun _ series => series <> [] /\ newestFirst series)
           (stateData this)
      /\ map_Forall (fun _ series => series <> [] /\ newestFirst series)
           (metroData this)
      /\ (forall r, r ∈ stateRows -> is_Some (stateData this !! row_state r))
      /\ (~ ordinaryKeys metroKey metroRows -> metroData this = ∅)
  end.
Proof.
  destruct (decide (ordinaryKeys row_state stateRows)) as [Hkeys|Hkeys].
  - destruct (loadData_result nationalRows stateRows metroRows Hkeys)
      as (this & Hrun & Hn & Hs & Hm & _ & _).
    rewrite Hrun. split_and!; [done| | | | | |].
    + rewrite Hn. apply Array_sort_Permutation.
    + rewrite Hn. apply Array_sort_newestFirst.
    + rewrite Hs. intros state series Hk.
      rewrite loaded_stateData in Hk.
      by apply loaded_series_shape in Hk as (? & ? & _).
    + rewrite Hm. intros metro series Hk.
      rewrite loaded_metroData in Hk.
      destruct (decide (ordinaryKeys metroKey metroRows)); [|done].
      by apply loaded_series_shape in Hk as (? & ? & _).
    + intros r Hr. rewrite Hs, loaded_stateData. unfold seriesOfKey.
      destruct (filter _ stateRows) as [|r' own] eqn:Hf; [|by eexists].
      assert (r ∈ filter (fun r' => row_state r' = row_state r) stateRows)
        as Hin by (by apply list_elem_of_filter).
      rewrite Hf in Hin. by apply elem_of_nil in Hin.
    + intros Hmetro. rewrite Hm. apply map_eq. intros metro.
      by rewrite loaded_metroData, decide_False, lookup_empty.
  - rewrite loadData_unfold, decide_False by done.
    apply not_Forall_Exists in Hkeys; [|apply _].
    eapply Exists_impl; [exact Hkeys|]. intros r Hr. cbn in Hr.
    by destruct (inherited (row_state r)).
Qed.

(** ** The table of betas after loading *)

Lemma calculateStateBetas_name this state info :
  calculateStateBetas this state = Normal info -> state_name info = state.
Proof.
  unfold calculateStateBetas.
  destruct (seriesOf (stateData this) state) as [series|]; [|done].
  cbn [mbind completion_bind].
  destruct (betasOf _ _ _ active_listing_count); [|done].
  destruct (betasOf _ _ _ new_listing_count); [|done].
  destruct (betasOf _ _ _ pending_listing_count); [|done].
  destruct (betasOf _ _ _ median_listing_price); [|done].
  cbn [mbind completion_bind mret completion_ret]. by intros [= <-].
Qed.

(** The series of a state after loading, and the entry computed from
    it. *)
Lemma loaded_state_entry nationalRows stateRows metroRows this state :
  loadData constructor nationalRows stateRows metroRows = Normal this ->
  match processedBetas this !! state with
  | Some info =>
      exists latest rest,
        stateData this !! state = Some (latest :: rest)
        /\ latest :: rest ≡ₚ filter (fun r => row_state r = state) stateRows
        /\ newestFirst (latest :: rest)
        /\ latest_data info = Some latest
        /\ state_name info = state
  | None =>
      stateData this !! state = None
      /\ filter (fun r => row_state r = state) stateRows = []
  end.
Proof.
  intros Hrun.
  destruct (loadData_result nationalRows stateRows metroRows)
    as (this' & Hrun' & _ & Hs & _ & Hlook & _);
    [by apply loadData_Normal in Hrun|].
  rewrite Hrun in Hrun'. injection Hrun' as <-.
  rewrite Hlook, Hs.
  destruct (stateData _ !! state) as [series|] eqn:Hseries.
  - destruct (calculateStateBetas_spec _ state series Hseries)
      as (info & Hinfo & Hlatest & _).
    rewrite Hinfo.
    rewrite loaded_stateData in Hseries.
    apply loaded_series_shape in Hseries as (Hne & Hsorted & Hperm).
    destruct series as [|latest rest]; [done|].
    exists latest, rest. split_and!; [done..|].
    by apply calculateStateBetas_name in Hinfo.
  - split; [done|]. rewrite loaded_stateData in Hseries.
    unfold seriesOfKey in Hseries. by destruct (filter _ stateRows).
Qed.

Lemma newest_row_of_group (key : row -> string) (rows : list row) k latest rest :
  latest :: rest ≡ₚ filter (fun r => key r = k) rows ->
  newestFirst (latest :: rest) ->
  latest ∈ rows /\ key latest = k
  /\ forall r, r ∈ rows -> key r = k ->
       month_date_yyyymm r <= month_date_yyyymm latest.
Proof.
  intros Hperm Hsorted.
  assert (forall r, r ∈ latest :: rest <-> key r = k /\ r ∈ rows) as Hin.
  { intros r. by rewrite Hperm, list_elem_of_filter. }
  destruct (proj1 (Hin latest)) as [? ?]; [by left|].
  split_and!; [done..|].
  intros r Hr Hstate.
  assert (r ∈ latest :: rest) as [->|Hrest]%elem_of_cons by (by apply Hin).
  - lia.
  - by apply (Sorted_head_largest month_date_yyyymm latest rest).
Qed.

(** ** X3: the formatted entry of a state shows its newest row *)

(** X3.  When [loadData] returns [true], [getFormattedStateData] returns
    normally a table with an entry for exactly the states that have a row.
    The entry of a state is read from a row of that state whose date no
    other row of the state exceeds: [last_updated] is that date, the newest
    of the state, and each current value is that row's value, or 0 where it
    is missing or zero. *)
Theorem formatted_entry_shows_the_newest_row
  (nationalRows stateRows metroRows : list row) (this : processor) :
  loadData constructor nationalRows stateRows metroRows = Normal this ->
  exists formatted,
    getFormattedStateData this = Normal formatted
    /\ forall state,
         match formatted !! state with
         | Some entry =>
             exists latest,
               latest ∈ stateRows
               /\ row_state latest = state
               /\ (forall r, r ∈ stateRows -> row_state r = state ->
                     month_date_yyyymm r <= month_date_yyyymm latest)
               /\ last_updated entry = month_date_yyyymm latest
               /\ forall metric,
                    current entry metric = cellOrZero (field metric latest)
         | None => forall r, r ∈ stateRows -> row_state r <> state
         end.
Proof.
  intros Hrun.
  pose proof (loaded_state_entry nationalRows stateRows metroRows this) as Hentry.
  destruct (getFormattedStateData_spec this) as (formatted & Hfmt & Hlook).
  { intros k [info Hk]. specialize (Hentry k Hrun). rewrite Hk in Hentry.
    destruct Hentry as (latest & rest & _ & _ & _ & Hlatest & _).
    unfold entryOf, formatEntry. rewrite Hk, Hlatest. by eexists. }
  exists formatted. split; [done|].
  intros state. rewrite Hlook. unfold entryOf.
  specialize (Hentry state Hrun).
  destruct (processedBetas this !! state) as [info|].
  - destruct Hentry as (latest & rest & _ & Hperm & Hsorted & Hlatest & _).
    unfold formatEntry. rewrite Hlatest.
    destruct (newest_row_of_group row_state _ _ _ _ Hperm Hsorted) as (? & ? & ?).
    exists latest. by split_and!.
  - destruct Hentry as [_ Hnone].
    by apply (filter_nil_iff (fun r => row_state r = state)).
Qed.

Lemma formatted_entry_shows_the_newest_row_witness :
  match loadData constructor Sample.national3 Sample.state3 [] with
  | Normal this =>
      exists formatted,
        getFormattedStateData this = Normal formatted
        /\ forall state,
             match formatted !! state with
             | Some entry =>
                 exists latest,
                   latest ∈ Sample.state3
                   /\ row_state latest = state
                   /\ (forall r, r ∈ Sample.state3 -> row_state r = state ->
                         month_date_yyyymm r <= month_date_yyyymm latest)
                   /\ last_updated entry = month_date_yyyymm latest
                   /\ forall metric,
                        current entry metric = cellOrZero (field metric latest)
             | None => forall r, r ∈ Sample.state3 -> row_state r <> state
             end
  | TypeError => False
  end.
Proof.
  destruct (loadData constructor Sample.national3 Sample.state3 [])
    as [this|] eqn:Hrun.
  - exact (formatted_entry_shows_the_newest_row
             Sample.national3 Sample.state3 [] this Hrun).
  - vm_compute in Hrun. discriminate Hrun.
Defined.

(** ** The lookup table of [getReturns] *)

Lemma buildDataMap_from_lookup series (dataMap : gmap Z row) d :
  fold_left (fun dataMap r => <[parseInt (month_date_yyyymm r) := r]> dataMap)
    series dataMap !! d
  = match last (filter (fun r => month_date_yyyymm r = d) series) with
    | Some r => Some r
    | None => dataMap !! d
    end.
Proof.
  revert dataMap. induction series as [|r series IH]; intros dataMap;
    cbn [fold_left]; [done|].
  rewrite IH, filter_cons. unfold parseInt.
  destruct (decide (month_date_yyyymm r = d)) as [<-|Hne].
  - rewrite lookup_insert_eq.
    by destruct (filter _ series) as [|r' own] using rev_ind;
      [|rewrite app_comm_cons, !last_snoc].
  - by rewrite lookup_insert_ne.
Qed.

(** The table holds, for every date, the last row of that date. *)
Lemma buildDataMap_lookup series d :
  buildDataMap series !! d
  = last (filter (fun r => month_date_yyyymm r = d) series).
Proof.
  unfold buildDataMap. rewrite buildDataMap_from_lookup, lookup_empty.
  by destruct (last _).
Qed.

Lemma filter_date_short series d :
  NoDup (map month_date_yyyymm series) ->
  (length (filter (fun r => month_date_yyyymm r = d) series) <= 1)%nat.
Proof.
  induction series as [|r series IH]; intros Hnd; [simpl; lia|].
  cbn [map] in Hnd. apply NoDup_cons in Hnd as [Hr Hnd].
  rewrite filter_cons. destruct (decide (month_date_yyyymm r = d)) as [<-|Hne].
  - replace (filter _ series) with (@nil row); [simpl; lia|].
    symmetry. apply (filter_nil_iff (fun r' => month_date_yyyymm r' = month_date_yyyymm r)).
    intros r' Hr' Heq. apply Hr. rewrite <- Heq. by apply list_elem_of_fmap_2.
  - by apply IH.
Qed.

Lemma short_Permutation_eq {A} (l1 l2 : list A) :
  (length l1 <= 1)%nat -> l1 ≡ₚ l2 -> l1 = l2.
Proof.
  intros Hlen Hp. destruct l1 as [|x [|??]]; [| |simpl in Hlen; lia].
  - by apply Permutation_nil_l in Hp.
  - by apply Permutation_singleton_l in Hp.
Qed.

(** With one row per date, the table depends on the rows and not on their
    order. *)
Lemma buildDataMap_Permutation s1 s2 :
  NoDup (map month_date_yyyymm s1) -> s1 ≡ₚ s2 ->
  buildDataMap s1 = buildDataMap s2.
Proof.
  intros Hnd Hp. apply map_eq. intros d. rewrite !buildDataMap_lookup.
  f_equal. apply short_Permutation_eq; [by apply filter_date_short|].
  by rewrite Hp.
Qed.

Lemma buildDataMap_lookup_NoDup series r :
  NoDup (map month_date_yyyymm series) -> r ∈ series ->
  buildDataMap series !! month_date_yyyymm r = Some r.
Proof.
  intros Hnd Hr. rewrite buildDataMap_lookup.
  pose proof (filter_date_short series (month_date_yyyymm r) Hnd) as Hlen.
  assert (r ∈ filter (fun r' => month_date_yyyymm r' = month_date_yyyymm r) series)
    as Hin by (by apply list_elem_of_filter).
  destruct (filter _ series) as [|x [|??]]; [by apply elem_of_nil in Hin| |simpl in Hlen; lia].
  by apply list_elem_of_singleton in Hin as ->.
Qed.

(** ** X5: two rows of one date *)



(** ** X6: the order of the rows *)

(** X6.  When no two rows of a series share a date, neither the returns
    of [getReturns] nor the changes of [calculateChanges] depend on the
    order in which the array holds the rows. *)
Theorem results_do_not_depend_on_the_order_of_the_rows
  (series reordered : list row) (metric : metric) (dates : list Z) :
  NoDup (map month_date_yyyymm series) ->
  series ≡ₚ reordered ->
  getReturns series metric dates = getReturns reordered metric dates
  /\ calculateChanges (Some series) metric
     = calculateChanges (Some reordered) metric.
Proof.
  intros Hnd Hp. split.
  - unfold getReturns. by rewrite (buildDataMap_Permutation _ _ Hnd Hp).
  - unfold calculateChanges. rewrite byDateDescending_key.
    rewrite (Array_sort_Permutation_eq month_date_yyyymm _ _ Hnd Hp).
    by rewrite (Permutation_length Hp).
Qed.

Lemma results_do_not_depend_on_the_order_of_the_rows_witness :
  getReturns Sample.state3 median_listing_price Sample.months3
  = getReturns (reverse Sample.state3) median_listing_price Sample.months3
  /\ calculateChanges (Some Sample.state3) median_listing_price
     = calculateChanges (Some (reverse Sample.state3)) median_listing_price.
Proof.
  apply results_do_not_depend_on_the_order_of_the_rows.
  - apply (bool_decide_unpack _). by vm_compute.
  - symmetry. apply reverse_Permutation.
Defined.

(** ** Covariance and variance as operations on numbers *)

Lemma mul_comm (x y : num) : mul x y = mul y x.
Proof.
  destruct x as [a| | |], y as [b| | |]; cbn [mul]; try done.
  f_equal. ring.
Qed.

Lemma mul_one_r (x : num) : mul x one = x.
Proof.
  destruct x as [a| | |]; try done.
  cbn [mul one ofZ]. f_equal. change (Qc_ofZ 1) with 1%Qc. ring.
Qed.

Lemma fold_left_ext_all {A B} (f g : A -> B -> A) l a :
  (forall acc b, f acc b = g acc b) -> fold_left f l a = fold_left g l a.
Proof.
  intros Hfg. revert a. induction l as [|b l IH]; intros a; cbn [fold_left];
    [done|]. by rewrite Hfg, IH.
Qed.

(** ** X7: covariance is symmetric, and is the variance on one series *)

(** X7.  For any two arrays of numbers, [calculateCovariance(x, y)] equals
    [calculateCovariance(y, x)], and [calculateCovariance(x, x)] equals
    [calculateVariance(x)], whatever the lengths and whatever special
    values the arrays hold. *)
Theorem covariance_is_symmetric_and_extends_variance (x y : list num) :
  calculateCovariance x y = calculateCovariance y x
  /\ calculateCovariance x x = calculateVariance x.
Proof.
  split.
  - unfold calculateCovariance.
    rewrite (Nat.eqb_sym (length x) (length y)).
    destruct (Nat.eqb_spec (length y) (length x)) as [Hlen|]; [|done].
    rewrite Hlen. cbn [negb orb].
    destruct (length x =? 0)%nat; [done|]. f_equal.
    apply fold_left_ext_all. intros acc i. by rewrite mul_comm.
  - unfold calculateCovariance, calculateVariance.
    rewrite Nat.eqb_refl. cbn [negb orb].
    destruct (length x =? 0)%nat; [done|]. f_equal.
    apply fold_left_ext_all. intros acc i.
    cbn [Math_pow]. by rewrite mul_one_r.
Qed.


(** ** X11: a state that is not in the store *)

(** X11.  [calculateStateBetas] raises a [TypeError] exactly for a state
    that has no series in the store.  [calculateBeta] raises one exactly
    for such a state when the calendar is at least as long as the window;
    with a shorter calendar it returns [null] before it looks the state
    up. *)
Theorem a_state_without_series_raises_a_TypeError
  (this : processor) (state : string) :
  (calculateStateBetas this state = TypeError
   <-> stateData this !! state = None)
  /\ forall metric months commonDates,
       calculateBeta this state metric months commonDates = TypeError
       <-> stateData this !! state = None
           /\ (months <= length commonDates)%nat.
Proof.
  split.
  - destruct (stateData this !! state) as [series|] eqn:Hs.
    + destruct (calculateStateBetas_spec this state series Hs)
        as (info & -> & _). done.
    + unfold calculateStateBetas, seriesOf. by rewrite Hs.
  - intros metric months commonDates.
    destruct (stateData this !! state) as [series|] eqn:Hs.
    + rewrite (calculateBeta_windowBeta _ _ _ _ _ _ Hs). split; [done|].
      by intros [? _].
    + unfold calculateBeta, seriesOf. rewrite Hs.
      destruct (Nat.ltb_spec (length commonDates) months).
      * split; [done|]. intros [_ ?]. lia.
      * cbn [mbind completion_bind]. split; [|done]. intros _. split; [done|lia].
Qed.

(** ** X12: when the formatted table cannot be built *)




(** ** X14: the aligned calendar *)

Lemma calendar_unique (l1 l2 : list Z) :
  NoDup l1 -> NoDup l2 -> descending l1 -> descending l2 ->
  (forall d, d ∈ l1 <-> d ∈ l2) -> l1 = l2.
Proof.
  intros Hnd1 Hnd2 Hs1 Hs2 Hin.
  apply (Sorted_unique (fun d => d)); [by rewrite map_id| |done..].
  by apply NoDup_Permutation.
Qed.

(** X14.  The aligned calendar does not depend on which of the two series
    is given first, nor on the order of the rows inside either series, and
    it is never longer than either series. *)
Theorem calendar_is_symmetric_and_bounded (a b : list row) :
  getCommonDates a b = getCommonDates b a
  /\ (forall a' b', a ≡ₚ a' -> b ≡ₚ b' ->
        getCommonDates a b = getCommonDates a' b')
  /\ (length (getCommonDates a b) <= length a)%nat
  /\ (length (getCommonDates a b) <= length b)%nat.
Proof.
  destruct (getCommonDates_spec a b) as (Hab & Hnd & Hs). cbv zeta in *.
  assert (forall series, (length (getCommonDates a b) <= length series)%nat
            \/ ~ (forall d, d ∈ getCommonDates a b ->
                    d ∈ map month_date_yyyymm series)) as Hbound.
  { intros series.
    destruct (decide (Forall (fun d => d ∈ map month_date_yyyymm series)
                        (getCommonDates a b))) as [Hall|Hno].
    - left. rewrite Forall_forall in Hall.
      rewrite <- (length_map month_date_yyyymm series).
      apply submseteq_length, NoDup_submseteq; done.
    - right. by rewrite <- Forall_forall. }
  split_and!.
  - destruct (getCommonDates_spec b a) as (Hba & Hnd' & Hs'). cbv zeta in *.
    apply calendar_unique; [done..|]. intros d. rewrite Hab, Hba. tauto.
  - intros a' b' Ha Hb.
    destruct (getCommonDates_spec a' b') as (Hab' & Hnd' & Hs'). cbv zeta in *.
    apply calendar_unique; [done..|]. intros d.
    by rewrite Hab, Hab', Ha, Hb.
  - destruct (Hbound a) as [?|Hno]; [done|].
    exfalso. apply Hno. intros d Hd. by apply Hab in Hd as [? _].
  - destruct (Hbound b) as [?|Hno]; [done|].
    exfalso. apply Hno. intros d Hd. by apply Hab in Hd as [_ ?].
Qed.

(** ** X15: computing the table twice *)

Lemma processor_eq (p q : processor) :
  nationalData p = nationalData q ->
  stateData p = stateData q ->
  metroData p = metroData q ->
  processedBetas p = processedBetas q ->
  processedMetroBetas p = processedMetroBetas q ->
  p = q.
Proof. destruct p, q. cbn. by intros -> -> -> -> ->. Qed.

(** X15.  [calculateBetas] returns normally, leaves the national series,
    the two stores of series and the metro table as they were, and a second
    call on the processor it leaves changes nothing. *)
Theorem calculateBetas_twice_is_once (this : processor) :
  exists this',
    calculateBetas this = Normal this'
    /\ nationalData this' = nationalData this
    /\ stateData this' = stateData this
    /\ metroData this' = metroData this
    /\ processedMetroBetas this' = processedMetroBetas this
    /\ calculateBetas this' = Normal this'.
Proof.
  destruct (calculateBetas_spec this)
    as (this1 & Hrun1 & Hs1 & Hn1 & Hm1 & Hp1 & Hlook1).
  destruct (calculateBetas_spec this1)
    as (this2 & Hrun2 & Hs2 & Hn2 & Hm2 & Hp2 & Hlook2).
  exists this1. split_and!; [done..|].
  rewrite Hrun2. f_equal. apply processor_eq; [done..| |done].
  apply map_eq. intros state. rewrite Hlook2, Hs1, Hlook1.
  destruct (stateData this !! state); [|done].
  by rewrite (calculateStateBetas_ext this1 this).
Qed.

(** ** X16: the formatted table of the metro areas *)

Lemma loaded_metro_entry nationalRows stateRows metroRows this metro :
  loadData constructor nationalRows stateRows metroRows = Normal this ->
  ordinaryKeys metroKey metroRows ->
  match processedMetroBetas this !! metro with
  | Some info =>
      exists latest rest,
        metroData this !! metro = Some (latest :: rest)
        /\ latest :: rest ≡ₚ filter (fun r => metroKey r = metro) metroRows
        /\ newestFirst (latest :: rest)
        /\ latest_data info = Some latest
        /\ state_name info = metro
  | None =>
      metroData this !! metro = None
      /\ filter (fun r => metroKey r = metro) metroRows = []
  end.
Proof.
  intros Hrun Hkeys.
  destruct (loadData_result nationalRows stateRows metroRows)
    as (this' & Hrun' & _ & _ & Hm & _ & Hlook);
    [by apply loadData_Normal in Hrun|].
  rewrite Hrun in Hrun'. injection Hrun' as <-.
  rewrite Hlook, Hm.
  destruct (metroData _ !! metro) as [series|] eqn:Hseries.
  - rewrite calculateMetroAreaBetas_swap.
    destruct (calculateStateBetas_spec (swapStores _) metro series Hseries)
      as (info & Hinfo & Hlatest & _).
    rewrite Hinfo.
    rewrite loaded_metroData, decide_True in Hseries by done.
    apply loaded_series_shape in Hseries as (Hne & Hsorted & Hperm).
    destruct series as [|latest rest]; [done|].
    exists latest, rest. split_and!; [done..|].
    by apply calculateStateBetas_name in Hinfo.
  - split; [done|]. rewrite loaded_metroData, decide_True in Hseries by done.
    unfold seriesOfKey in Hseries. by destruct (filter _ metroRows).
Qed.

(** When a metro row is keyed by the name of a member of
    [Object.prototype], no metro area is left. *)
Lemma loaded_without_metros nationalRows stateRows metroRows this :
  loadData constructor nationalRows stateRows metroRows = Normal this ->
  ~ ordinaryKeys metroKey metroRows ->
  metroData this = ∅ /\ processedMetroBetas this = ∅.
Proof.
  intros Hrun Hkeys.
  destruct (loadData_result nationalRows stateRows metroRows)
    as (this' & Hrun' & _ & _ & Hm & _ & Hlook);
    [by apply loadData_Normal in Hrun|].
  rewrite Hrun in Hrun'. injection Hrun' as <-.
  split; apply map_eq; intros metro; rewrite lookup_empty.
  - by rewrite Hm, loaded_metroData, decide_False.
  - by rewrite Hlook, loaded_metroData, decide_False.
Qed.

(** The numeric fields of a metro entry are computed as those of a state
    entry, on the processor with the two stores exchanged. *)
Lemma formatMetroEntry_numbers this metro info :
  match formatMetroEntry this metro info with
  | Normal entry =>
      formatEntry (swapStores this) metro info = Normal (numbers entry)
  | TypeError => formatEntry (swapStores this) metro info = TypeError
  end.
Proof.
  unfold formatMetroEntry, formatEntry. by destruct (latest_data info).
Qed.

Lemma formatMetro_numbers this keys metros states :
  sameNumbers metros states ->
  sameNumbers (fold_left (formatMetro this) keys metros)
    (fold_left (formatState (swapStores this)) keys states).
Proof.
  revert metros states. induction keys as [|k keys IH];
    intros metros states Hrel; [done|].
  cbn [fold_left]. apply IH.
  unfold formatMetro, formatState, sameNumbers in *.
  destruct metros as [table|]; subst states; [|done].
  cbn [mbind completion_bind processedBetas swapStores].
  destruct (processedMetroBetas this !! k) as [info|]; [|done].
  pose proof (formatMetroEntry_numbers this k info) as Hentry.
  destruct (formatMetroEntry this k info) as [entry|]; rewrite Hentry; [|done].
  cbn [mbind completion_bind mret completion_ret].
  by rewrite fmap_insert.
Qed.

(** Every entry of the table was built by [formatMetroEntry] for its
    key. *)
Lemma formatMetro_entries this keys acc table :
  fold_left (formatMetro this) keys (Normal acc) = Normal table ->
  forall metro entry,
    table !! metro = Some entry ->
    acc !! metro = Some entry
    \/ exists info,
         processedMetroBetas this !! metro = Some info
         /\ formatMetroEntry this metro info = Normal entry.
Proof.
  revert table. induction keys as [|k keys IH] using rev_ind; intros table.
  - intros [= <-] metro entry Hentry. by left.
  - rewrite fold_left_app. cbn [fold_left].
    destruct (fold_left (formatMetro this) keys (Normal acc)) as [table'|];
      [|done].
    unfold formatMetro at 1. cbn [mbind completion_bind].
    destruct (processedMetroBetas this !! k) as [info|] eqn:Hk; [|done].
    destruct (formatMetroEntry this k info) as [entry'|] eqn:He; [|done].
    cbn [mbind completion_bind mret completion_ret].
    intros [= <-] metro entry.
    destruct (decide (k = metro)) as [->|Hne].
    + rewrite lookup_insert_eq. intros [= <-]. right. by exists info.
    + rewrite lookup_insert_ne by done. by apply IH.
Qed.

(** X16.  When [loadData] returns [true] and no metro row is keyed by the
    name of a member of [Object.prototype], [getFormattedMetroData] returns
    normally a table with an entry for exactly the keys
    [cbsa_title || metro_name || metro] of the metro rows.  In the entry of
    a key, [cbsa_title] and [metro_name] are both that key, [last_updated]
    is the newest date among the rows of the key, and the numeric fields
    are those [getFormattedStateData] computes when the metro store and
    table stand in place of the state store and table. *)
Theorem formatted_metro_entry_is_labelled_by_its_key
  (nationalRows stateRows metroRows : list row) (this : processor) :
  loadData constructor nationalRows stateRows metroRows = Normal this ->
  ordinaryKeys metroKey metroRows ->
  exists table,
    getFormattedMetroData this = Normal table
    /\ getFormattedStateData (swapStores this) = Normal (numbers <$> table)
    /\ forall metro,
         match table !! metro with
         | Some entry =>
             cbsa_title entry = metro
             /\ metro_name entry = metro
             /\ exists latest,
                  latest ∈ metroRows
                  /\ metroKey latest = metro
                  /\ (forall r, r ∈ metroRows -> metroKey r = metro ->
                        month_date_yyyymm r <= month_date_yyyymm latest)
                  /\ last_updated (numbers entry) = month_date_yyyymm latest
         | None => forall r, r ∈ metroRows -> metroKey r <> metro
         end.
Proof.
  intros Hrun Hkeys.
  pose proof (fun metro =>
                loaded_metro_entry nationalRows stateRows metroRows this metro
                  Hrun Hkeys) as Hentry.
  destruct (getFormattedStateData_spec (swapStores this))
    as (formatted & Hfmt & Hlook).
  { intros k [info Hk]. cbn [processedBetas swapStores] in Hk.
    specialize (Hentry k). rewrite Hk in Hentry.
    destruct Hentry as (latest & rest & _ & _ & _ & Hlatest & _).
    unfold entryOf, formatEntry. cbn [processedBetas swapStores].
    rewrite Hk, Hlatest. by eexists. }
  pose proof (formatMetro_numbers this
                (Object_keys (processedMetroBetas this))
                (mret ∅) (mret ∅)) as Hrel.
  fold (getFormattedMetroData this) in Hrel.
  change (fold_left _ _ _) with (getFormattedStateData (swapStores this))
    in Hrel at 1.
  specialize (Hrel (eq_sym (f_equal Normal (fmap_empty _)))).
  rewrite Hfmt in Hrel. unfold sameNumbers in Hrel.
  destruct (getFormattedMetroData this) as [table|] eqn:Hmetro; [|done].
  injection Hrel as ->.
  exists table. split_and!; [done..|].
  intros metro. specialize (Hentry metro).
  specialize (Hlook metro). rewrite lookup_fmap in Hlook.
  unfold entryOf in Hlook. cbn [processedBetas swapStores] in Hlook.
  destruct (table !! metro) as [entry|] eqn:Htable.
  - destruct (formatMetro_entries this _ ∅ table Hmetro metro entry Htable)
      as [Hempty|(info & Hk & He)]; [by rewrite lookup_empty in Hempty|].
    rewrite Hk in Hentry.
    destruct Hentry as (latest & rest & _ & Hperm & Hsorted & Hlatest & _).
    destruct (newest_row_of_group metroKey _ _ _ _ Hperm Hsorted)
      as (Hin & Hkey & Hmax).
    unfold formatMetroEntry in He. rewrite Hlatest in He.
    injection He as <-. cbn [cbsa_title metro_name numbers last_updated].
    split_and!; [|done|by exists latest].
    unfold metroKey in Hkey.
    destruct (labelPresent (row_cbsa_title latest)) eqn:Hlabel; [|done].
    by destruct (row_cbsa_title latest).
  - destruct (processedMetroBetas this !! metro) as [info|] eqn:Hk.
    + destruct Hentry as (latest & rest & _ & _ & _ & Hlatest & _).
      unfold formatEntry in Hlook. by rewrite Hlatest in Hlook.
    + destruct Hentry as [_ Hnone].
      by apply (filter_nil_iff (fun r => metroKey r = metro)).
Qed.

Lemma formatted_metro_entry_is_labelled_by_its_key_witness :
  match loadData constructor Sample.national3 [] Sample.state3 with
  | Normal this =>
      exists table,
        getFormattedMetroData this = Normal table
        /\ getFormattedStateData (swapStores this) = Normal (numbers <$> table)
        /\ forall metro,
             match table !! metro with
             | Some entry =>
                 cbsa_title entry = metro
                 /\ metro_name entry = metro
                 /\ exists latest,
                      latest ∈ Sample.state3
                      /\ metroKey latest = metro
                      /\ (forall r, r ∈ Sample.state3 -> metroKey r = metro ->
                            month_date_yyyymm r <= month_date_yyyymm latest)
                      /\ last_updated (numbers entry)
                         = month_date_yyyymm latest
             | None => forall r, r ∈ Sample.state3 -> metroKey r <> metro
             end
  | TypeError => False
  end.
Proof.
  destruct (loadData constructor Sample.national3 [] Sample.state3)
    as [this|] eqn:Hrun.
  - assert (ordinaryKeys metroKey Sample.state3) as Hkeys.
    { unfold ordinaryKeys, Sample.state3, Sample.seriesOfValues.
      cbn [zip_with Sample.months3].
      repeat (constructor; [reflexivity|]). constructor. }
    exact (formatted_metro_entry_is_labelled_by_its_key
             Sample.national3 [] Sample.state3 this Hrun Hkeys).
  - vm_compute in Hrun. discriminate Hrun.
Defined.

(** ** X17: the accessors after loading *)

(** The keys of a table that holds an entry for exactly the keys of the
    rows. *)
Lemma table_keys (table : gmap string stateInfo) (key : row -> string)
  (rows : list row) :
  (forall k,
     match table !! k with
     | Some info =>
         exists latest rest,
           latest :: rest ≡ₚ filter (fun r => key r = k) rows
           /\ latest_data info = Some latest
     | None => filter (fun r => key r = k) rows = []
     end) ->
  (forall k, k ∈ Object_keys table <-> exists r, r ∈ rows /\ key r = k)
  /\ (forall k, table !! k = None <-> forall r, r ∈ rows -> key r <> k)
  /\ (forall k info,
        table !! k = Some info ->
        exists latest,
          latest_data info = Some latest /\ latest ∈ rows /\ key latest = k).
Proof.
  intros Hentry.
  assert (forall k info,
            table !! k = Some info ->
            exists latest,
              latest_data info = Some latest /\ latest ∈ rows
              /\ key latest = k) as Hsome.
  { intros k info Hk. specialize (Hentry k). rewrite Hk in Hentry.
    destruct Hentry as (latest & rest & Hperm & Hlatest).
    exists latest. split; [done|].
    assert (latest ∈ filter (fun r => key r = k) rows) as Hin
      by (rewrite <- Hperm; by left).
    by apply list_elem_of_filter in Hin as [? ?]. }
  assert (forall k, table !! k = None
                    <-> forall r, r ∈ rows -> key r <> k) as Hnone.
  { intros k. rewrite <- (filter_nil_iff (fun r => key r = k)).
    specialize (Hentry k). destruct (table !! k) as [info|].
    - destruct Hentry as (latest & rest & Hperm & _).
      split; [done|]. intros Hnil. rewrite Hnil in Hperm.
      by apply Permutation_nil_r in Hperm.
    - done. }
  split_and!; [|done..].
  intros k. rewrite elem_of_Object_keys. split.
  - intros [info Hk]. destruct (Hsome k info Hk) as (latest & _ & ? & ?).
    by exists latest.
  - intros (r & Hr & Hkey). apply not_eq_None_Some. rewrite Hnone.
    intros Hno. by apply (Hno r).
Qed.

(** What [table[key] || null] returns on a table none of whose own keys
    names a member of [Object.prototype]. *)
Lemma orNull_get (table : gmap string stateInfo) k :
  (forall k, is_Some (table !! k) -> inherited k = false) ->
  (orNull (get table k) = Null <-> table !! k = None /\ inherited k = false)
  /\ (orNull (get table k) = PrototypeMember <-> inherited k = true)
  /\ (forall info, orNull (get table k) = Entry info <-> table !! k = Some info).
Proof.
  intros Hown. unfold get.
  destruct (table !! k) as [info|] eqn:Hk.
  - assert (inherited k = false) as Hi by (apply Hown; by eexists).
    cbn [orNull]. split_and!.
    + split; [done|]. by intros [? _].
    + split; [done|]. congruence.
    + intros info'. split; congruence.
  - destruct (inherited k); cbn [orNull]; split_and!;
      try (intros info'); split; try done; by intros [? ?].
Qed.

(** X17.  When [loadData] returns [true], [getStateList] lists, without
    repetition, exactly the states that occur in the state rows.
    [getStateBetas] returns a member of [Object.prototype] exactly for the
    name of such a member, and [null] exactly for any other state with no
    row; otherwise it returns the entry named after the state, whose
    [latest_data] is a row of that state.  When no metro row is keyed by
    the name of a member of [Object.prototype], [getMetroList] and
    [getMetroBetas] do the same for the keys
    [cbsa_title || metro_name || metro] of the metro rows; when one is,
    [getMetroList] is empty. *)
Theorem accessors_list_the_keys_of_the_rows
  (nationalRows stateRows metroRows : list row) (this : processor) :
  loadData constructor nationalRows stateRows metroRows = Normal this ->
  (NoDup (getStateList this)
   /\ (forall state,
         state ∈ getStateList this
         <-> exists r, r ∈ stateRows /\ row_state r = state)
   /\ (forall state,
         getStateBetas this state = Null
         <-> inherited state = false
             /\ forall r, r ∈ stateRows -> row_state r <> state)
   /\ (forall state,
         getStateBetas this state = PrototypeMember <-> inherited state = true)
   /\ forall state info,
        getStateBetas this state = Entry info ->
        state_name info = state
        /\ exists latest,
             latest_data info = Some latest
             /\ latest ∈ stateRows /\ row_state latest = state)
  /\ (ordinaryKeys metroKey metroRows ->
      NoDup (getMetroList this)
      /\ (forall metro,
            metro ∈ getMetroList this
            <-> exists r, r ∈ metroRows /\ metroKey r = metro)
      /\ (forall metro,
            getMetroBetas this metro = Null
            <-> inherited metro = false
                /\ forall r, r ∈ metroRows -> metroKey r <> metro)
      /\ (forall metro,
            getMetroBetas this metro = PrototypeMember
            <-> inherited metro = true)
      /\ forall metro info,
           getMetroBetas this metro = Entry info ->
           state_name info = metro
           /\ exists latest,
                latest_data info = Some latest
                /\ latest ∈ metroRows /\ metroKey latest = metro)
  /\ (~ ordinaryKeys metroKey metroRows -> getMetroList this = []).
Proof.
  intros Hrun.
  pose proof (loadData_Normal _ _ _ _ Hrun) as Hordinary.
  pose proof (loaded_state_entry nationalRows stateRows metroRows this)
    as Hstate.
  destruct (table_keys (processedBetas this) row_state stateRows)
    as (Hkeys & Hnone & Hsome).
  { intros k. specialize (Hstate k Hrun).
    destruct (processedBetas this !! k) as [info|]; [|by destruct Hstate].
    destruct Hstate as (latest & rest & _ & ? & _ & ? & _).
    by exists latest, rest. }
  assert (forall k, is_Some (processedBetas this !! k) -> inherited k = false)
    as Hown.
  { intros k [info Hk]. destruct (Hsome k info Hk) as (latest & _ & Hin & <-).
    unfold ordinaryKeys in Hordinary. rewrite Forall_forall in Hordinary.
    by apply Hordinary. }
  split_and!.
  - apply NoDup_fst_map_to_list.
  - done.
  - intros state. unfold getStateBetas.
    rewrite (proj1 (orNull_get _ state Hown)), Hnone. tauto.
  - intros state. apply (orNull_get _ state Hown).
  - intros state info Hinfo.
    apply (orNull_get _ state Hown) in Hinfo.
    split; [|by apply Hsome].
    specialize (Hstate state Hrun).
    rewrite Hinfo in Hstate. by destruct Hstate as (? & ? & _ & _ & _ & _ & ?).
  - intros Hmetros.
    pose proof (fun metro =>
                  loaded_metro_entry nationalRows stateRows metroRows this
                    metro Hrun Hmetros) as Hmetro.
    destruct (table_keys (processedMetroBetas this) metroKey metroRows)
      as (Hkeys' & Hnone' & Hsome').
    { intros k. specialize (Hmetro k).
      destruct (processedMetroBetas this !! k) as [info|];
        [|by destruct Hmetro].
      destruct Hmetro as (latest & rest & _ & ? & _ & ? & _).
      by exists latest, rest. }
    assert (forall k, is_Some (processedMetroBetas this !! k)
                      -> inherited k = false) as Hown'.
    { intros k [info Hk].
      destruct (Hsome' k info Hk) as (latest & _ & Hin & <-).
      unfold ordinaryKeys in Hmetros. rewrite Forall_forall in Hmetros.
      by apply Hmetros. }
    split_and!.
    + apply NoDup_fst_map_to_list.
    + done.
    + intros metro. unfold getMetroBetas.
      rewrite (proj1 (orNull_get _ metro Hown')), Hnone'. tauto.
    + intros metro. apply (orNull_get _ metro Hown').
    + intros metro info Hinfo.
      apply (orNull_get _ metro Hown') in Hinfo.
      split; [|by apply Hsome'].
      specialize (Hmetro metro).
      rewrite Hinfo in Hmetro.
      by destruct Hmetro as (? & ? & _ & _ & _ & _ & ?).
  - intros Hmetros.
    destruct (loaded_without_metros _ _ _ _ Hrun Hmetros) as [_ Hempty].
    unfold getMetroList, Object_keys. by rewrite Hempty, map_to_list_empty.
Qed.

Lemma accessors_list_the_keys_of_the_rows_witness :
  match loadData constructor Sample.national3 Sample.state3 [] with
  | Normal this =>
      getStateBetas this "toString" = PrototypeMember
      /\ getStateBetas this "Utah" = Null
      /\ "Nevada" ∈ getStateList this
  | TypeError => False
  end.
Proof.
  destruct (loadData constructor Sample.national3 Sample.state3 [])
    as [this|] eqn:Hrun.
  - destruct (accessors_list_the_keys_of_the_rows
                Sample.national3 Sample.state3 [] this Hrun)
      as ((_ & Hlist & Hnull & Hmember & _) & _).
    split; [|split].
    + exact (proj2 (Hmember "toString") eq_refl).
    + refine (proj2 (Hnull "Utah") (conj eq_refl _)).
      apply Forall_forall.
      unfold Sample.state3, Sample.seriesOfValues.
      cbn [zip_with Sample.months3].
      repeat (constructor; [cbn [row_state Sample.observation]; discriminate|]).
      constructor.
    + refine (proj2 (Hlist "Nevada") _).
      exists (Sample.observation 202507 (Sample.valued 610)).
      split; [|reflexivity].
      unfold Sample.state3, Sample.seriesOfValues.
      cbn [zip_with Sample.months3]. apply list_elem_of_here.
  - vm_compute in Hrun. discriminate Hrun.
Defined.

(** ** Splitting and joining *)

Lemma split_nonempty sep s : split sep s <> [].
Proof.
  destruct s as [|c s]; cbn [split]; [done|].
  destruct (sep c); [done|]. by destruct (split sep s).
Qed.

Lemma split_length_pos sep s : (1 <= length (split sep s))%nat.
Proof.
  pose proof (split_nonempty sep s). destruct (split sep s); [done|]. simpl. lia.
Qed.

(** A text without separator is one piece. *)
Lemma split_none c s :
  hasChar c s = false -> split (fun x => (x =? c)%char) s = [s].
Proof.
  induction s as [|a s IH]; cbn [split hasChar]; [done|].
  intros [Ha Hs]%orb_false_iff. rewrite Ha, IH by done. done.
Qed.

Lemma split_app_sep c s t :
  hasChar c s = false ->
  split (fun x => (x =? c)%char) (String.append s (String c t))
  = s :: split (fun x => (x =? c)%char) t.
Proof.
  induction s as [|a s IH]; cbn [hasChar].
  - intros _. rewrite append_nil_l. cbn [split]. by rewrite Ascii.eqb_refl.
  - intros [Ha Hs]%orb_false_iff. rewrite append_cons. cbn [split].
    by rewrite Ha, IH.
Qed.

Lemma join_cons2 sep s s' rest :
  join sep (s :: s' :: rest)
  = String.append s (String.append sep (join sep (s' :: rest))).
Proof. reflexivity. Qed.

(** Splitting undoes joining, when no piece holds the separator. *)
Lemma split_join c l :
  l <> [] -> Forall (fun s => hasChar c s = false) l ->
  split (fun x => (x =? c)%char) (join (chr c) l) = l.
Proof.
  induction l as [|s [|s' rest] IH]; intros Hne Hall; [done| |].
  - apply split_none. by apply Forall_inv in Hall.
  - rewrite join_cons2. change (String.append (chr c) ?t) with (String c t).
    apply Forall_cons in Hall as [Hs Hall].
    rewrite split_app_sep by done. f_equal. by apply IH.
Qed.

Lemma hasChar_join c sep l :
  hasChar c sep = false -> Forall (fun s => hasChar c s = false) l ->
  hasChar c (join sep l) = false.
Proof.
  intros Hsep. induction l as [|s [|s' rest] IH]; intros Hall; [done| |].
  - by apply Forall_inv in Hall.
  - apply Forall_cons in Hall as [Hs Hall].
    rewrite join_cons2, !hasChar_append, Hs, Hsep. by apply IH.
Qed.

(** ** X18: a line without quotes *)

Lemma parseLoop_unquoted line values current :
  hasChar dquote line = false ->
  parseLoop line values current false
  = values ++ map trim
      (match split isComma line with
       | t :: ts => String.append current t :: ts
       | [] => [current]
       end).
Proof.
  revert values current. induction line as [|char rest IH];
    intros values current; cbn [hasChar].
  - intros _. cbn [parseLoop split map]. by rewrite append_nil_r.
  - intros [Hchar Hrest]%orb_false_iff. cbn [parseLoop split].
    rewrite Hchar. unfold isComma at 1.
    destruct (char =? ",")%char eqn:Hcomma; cbn [negb andb].
    + rewrite IH by done. rewrite append_nil_r, <- app_assoc. cbn [map app].
      pose proof (split_nonempty isComma rest).
      destruct (split isComma rest) as [|t ts]; [done|].
      by rewrite append_nil_l.
    + rewrite IH by done.
      pose proof (split_nonempty isComma rest).
      destruct (split isComma rest) as [|t ts]; [done|].
      by rewrite append_assoc3.
Qed.

Lemma split_length sep s :
  length (split sep s)
  = S (length (List.filter sep (list_ascii_of_string s))).
Proof.
  induction s as [|c s IH]; cbn [split list_ascii_of_string List.filter];
    [done|].
  destruct (sep c); cbn [length]; [by rewrite IH|].
  pose proof (split_nonempty sep s).
  destruct (split sep s) as [|t ts]; [done|]. cbn [length] in *. done.
Qed.

(** X18.  On a line that holds no double quote, [parseCSVLine] returns the
    pieces between the commas, each one trimmed: one field more than the
    line has commas, so the empty line gives one empty field. *)
Theorem parseCSVLine_without_quotes_splits_at_every_comma (line : string) :
  hasChar dquote line = false ->
  parseCSVLine line = map trim (split isComma line)
  /\ length (parseCSVLine line)
     = S (length (List.filter isComma (list_ascii_of_string line))).
Proof.
  intros Hline.
  assert (parseCSVLine line = map trim (split isComma line)) as ->.
  { unfold parseCSVLine. rewrite parseLoop_unquoted by done.
    pose proof (split_nonempty isComma line).
    destruct (split isComma line) as [|t ts]; [done|].
    by rewrite append_nil_l. }
  split; [done|]. by rewrite length_map, split_length.
Qed.

Lemma parseCSVLine_without_quotes_splits_at_every_comma_witness :
  parseCSVLine "Nevada, 202507 ,,NV"
  = map trim (split isComma "Nevada, 202507 ,,NV")
  /\ length (parseCSVLine "Nevada, 202507 ,,NV")
     = S (length (List.filter isComma
                    (list_ascii_of_string "Nevada, 202507 ,,NV"))).
Proof.
  apply parseCSVLine_without_quotes_splits_at_every_comma. reflexivity.
Defined.

(** ** X19: quoted fields are read back *)

Lemma parseLoop_quoted_field f rest values :
  hasChar dquote f = false ->
  parseLoop (String.append (quoted f) rest) values EmptyString false
  = parseLoop rest values f false.
Proof.
  intros Hf. unfold quoted. rewrite append_cons, append_assoc3.
  cbn [parseLoop]. rewrite Ascii.eqb_refl. cbn [negb].
  rewrite parseLoop_quoted by done.
  change (String.append (chr dquote) rest) with (String dquote rest).
  cbn [parseLoop]. rewrite Ascii.eqb_refl. cbn [negb].
  by rewrite append_nil_l.
Qed.

Lemma parseLoop_quoted_fields fields values :
  fields <> [] ->
  Forall (fun f => hasChar dquote f = false) fields ->
  parseLoop (join (chr ",") (map quoted fields)) values EmptyString false
  = values ++ map trim fields.
Proof.
  revert values. induction fields as [|f [|f' rest] IH];
    intros values Hne Hall; [done| |].
  - apply Forall_inv in Hall. cbn [map join].
    rewrite <- (append_nil_r (quoted f)).
    by rewrite parseLoop_quoted_field.
  - apply Forall_cons in Hall as [Hf Hall].
    cbn [map]. rewrite join_cons2.
    rewrite parseLoop_quoted_field by done.
    change (String.append (chr ",") ?t) with (String "," t).
    cbn [parseLoop]. cbn [Ascii.eqb Bool.eqb andb negb].
    change (map quoted (f' :: rest)) with (quoted f' :: map quoted rest) in IH.
    rewrite IH by done. by rewrite <- app_assoc.
Qed.

(** X19.  A record written as fields between double quotes, separated by
    commas, is read back by [parseCSVLine] field by field, the commas
    inside the fields included; each field comes back trimmed. *)
Theorem parseCSVLine_reads_back_quoted_fields (fields : list string) :
  fields <> [] ->
  Forall (fun f => hasChar dquote f = false) fields ->
  parseCSVLine (join (chr ",") (map quoted fields)) = map trim fields.
Proof.
  intros Hne Hall. unfold parseCSVLine.
  by rewrite parseLoop_quoted_fields.
Qed.

Lemma parseCSVLine_reads_back_quoted_fields_witness :
  parseCSVLine (join (chr ",") (map quoted ["Reno, NV"; " 202507"; ""]))
  = map trim ["Reno, NV"; " 202507"; ""].
Proof.
  apply parseCSVLine_reads_back_quoted_fields.
  - discriminate.
  - repeat constructor.
Defined.

(** ** X20: the rows of [parseCSV] *)

Section ParseCSVFacts.
Context (parseFloat : string -> num) (isFinite : string -> bool).

Lemma convert_empty : convert parseFloat isFinite EmptyString = Text EmptyString.
Proof.
  unfold convert, isNumeric. cbn [String.eqb negb]. by rewrite andb_false_r.
Qed.

Lemma convert_Number value n :
  convert parseFloat isFinite value = Number n ->
  n = parseFloat value /\ n <> NaN /\ value <> EmptyString.
Proof.
  unfold convert, isNumeric.
  destruct (parseFloat value) eqn:Hn, (isFinite value), value;
    cbn [isNaN negb andb String.eqb]; intros [= <-]; done.
Qed.

Lemma buildRow_from_lookup (pairs : list (string * string))
  (row : gmap string parsed) name :
  fold_left (fun row hv => assign row hv.1 (convert parseFloat isFinite hv.2))
    pairs row !! name
  = if String.eqb name "__proto__" then row !! name
    else match last (filter (fun hv => hv.1 = name) pairs) with
         | Some hv => Some (convert parseFloat isFinite hv.2)
         | None => row !! name
         end.
Proof.
  revert row. induction pairs as [|[h v] pairs IH]; intros row;
    cbn [fold_left]; [by destruct (String.eqb _ _)|].
  rewrite IH, filter_cons, lookup_assign. cbn [fst snd].
  destruct (String.eqb_spec name "__proto__") as [Heq|Hname].
  - destruct (decide (h = name)) as [Hh|Hne]; [|done].
    rewrite Hh, Heq. by rewrite String.eqb_refl.
  - destruct (decide (h = name)) as [<-|Hne]; [|done].
    rewrite (proj2 (String.eqb_neq _ _) Hname).
    by destruct (filter _ pairs) as [|hv own] using rev_ind;
      [|rewrite app_comm_cons, !last_snoc].
Qed.

(** The cell of [name] in a row: the value of the last column of that
    name; an assignment under [__proto__] stores nothing. *)
Lemma buildRow_lookup headers values name :
  buildRow parseFloat isFinite headers values !! name
  = if String.eqb name "__proto__" then None
    else (fun hv => convert parseFloat isFinite hv.2)
           <$> last (filter (fun hv => hv.1 = name) (zip headers values)).
Proof.
  unfold buildRow. rewrite buildRow_from_lookup, lookup_empty.
  destruct (String.eqb _ _); [done|]. by destruct (last _).
Qed.

Lemma buildRow_keys headers values name :
  length values = length headers ->
  is_Some (buildRow parseFloat isFinite headers values !! name)
  <-> name ∈ headers /\ name <> "__proto__"%string.
Proof.
  intros Hlen. rewrite buildRow_lookup.
  destruct (String.eqb_spec name "__proto__") as [Heq|Hname].
  { split; [by intros [? ?]|by intros [_ ?]]. }
  rewrite fmap_is_Some.
  rewrite <- (fst_zip headers values) at 2 by lia.
  rewrite list_elem_of_fmap. split.
  - intros [hv Hlast]. apply last_Some_elem_of in Hlast.
    apply list_elem_of_filter in Hlast as [? ?]. split; [by exists hv|done].
  - intros [(hv & -> & Hin) _].
    assert (hv ∈ filter (fun hv' => hv'.1 = hv.1) (zip headers values)) as Hf
      by (by apply list_elem_of_filter).
    destruct (filter _ (zip headers values)) as [|x own] using rev_ind;
      [by apply elem_of_nil in Hf|].
    rewrite last_snoc. by eexists.
Qed.

(** The last column of a name among the headers. *)
Lemma last_named (headers values : list string) i name :
  length values = length headers ->
  headers !! i = Some name ->
  (forall j, (i < j)%nat -> headers !! j <> Some name) ->
  last (filter (fun hv : string * string => hv.1 = name) (zip headers values))
  = (fun v => (name, v)) <$> values !! i.
Proof.
  revert values i. induction headers as [|h headers IH];
    intros [|v values] i Hlen Hi Hlast; try done.
  cbn [length] in Hlen. cbn [zip zip_with]. rewrite filter_cons. cbn [fst].
  destruct i as [|i]; cbn [lookup list_lookup] in *.
  - injection Hi as ->. rewrite decide_True by done.
    replace (filter _ (zip headers values)) with (@nil (string * string));
      [done|].
    symmetry. apply (filter_nil_iff (fun hv : string * string => hv.1 = name)).
    intros [h' v'] Hin Heq. cbn [fst] in Heq. subst h'.
    apply elem_of_zip_l, list_elem_of_lookup in Hin as [j Hj].
    apply (Hlast (S j)); [lia|done].
  - assert (last (filter (fun hv : string * string => hv.1 = name)
                    (zip headers values))
            = (fun v => (name, v)) <$> values !! i) as Hrest.
    { apply IH; [lia|done|]. intros j Hj. apply (Hlast (S j)). lia. }
    destruct (values !! i) as [w|] eqn:Hw.
    + cbn [fmap option_fmap option_map] in *.
      destruct (decide (h = name)); [|done]. by rewrite last_cons, Hrest.
    + apply lookup_ge_None in Hw. apply lookup_lt_Some in Hi. lia.
Qed.

Lemma buildRow_cell headers values i name :
  length values = length headers ->
  headers !! i = Some name ->
  (forall j, (i < j)%nat -> headers !! j <> Some name) ->
  name <> "__proto__"%string ->
  buildRow parseFloat isFinite headers values !! name
  = convert parseFloat isFinite <$> values !! i.
Proof.
  intros Hlen Hi Hlast Hname.
  rewrite buildRow_lookup, (proj2 (String.eqb_neq _ _) Hname).
  rewrite (last_named headers values i) by done.
  by destruct (values !! i).
Qed.

Lemma rowsLoop_rows headers lines row :
  row ∈ rowsLoop parseFloat isFinite headers lines ->
  exists line,
    line ∈ lines
    /\ length (parseCSVLine line) = length headers
    /\ row = buildRow parseFloat isFinite headers (parseCSVLine line).
Proof.
  induction lines as [|line lines IH]; cbn [rowsLoop];
    [by intros ?%elem_of_nil|].
  destruct (Nat.eqb_spec (length (parseCSVLine line)) (length headers))
    as [Hlen|Hne].
  - intros [->|Hin]%elem_of_cons.
    + exists line. split_and!; [by left|done..].
    + destruct (IH Hin) as (line' & ? & ? & ?). exists line'.
      split_and!; [by right|done..].
  - intros Hin. destruct (IH Hin) as (line' & ? & ? & ?). exists line'.
    split_and!; [by right|done..].
Qed.

Lemma rowsLoop_length headers lines :
  (length (rowsLoop parseFloat isFinite headers lines) <= length lines)%nat.
Proof.
  induction lines as [|line lines IH]; cbn [rowsLoop]; [done|].
  destruct (_ =? _)%nat; cbn [length]; lia.
Qed.

(** X20.  Whatever the text, [parseCSV] returns at most one row for every
    line after the first.  Every row it returns comes from a line that has
    as many fields as the first line has names, and holds exactly those
    names as keys, [__proto__] apart: an assignment under that name stores
    nothing.  Under a name it holds the field at the last position where
    that name stands among the headers, converted.  A number stored in a
    row is never NaN, and an empty field is stored as the empty text. *)
Theorem parsed_rows_are_keyed_by_the_header_names (csvText : string) :
  let lines := split isNewline (trim csvText) in
  let headers := split isComma (default EmptyString (head lines)) in
  (length (parseCSV parseFloat isFinite csvText) <= length lines - 1)%nat
  /\ convert parseFloat isFinite EmptyString = Text EmptyString
  /\ forall row,
       row ∈ parseCSV parseFloat isFinite csvText ->
       (forall name,
          is_Some (row !! name)
          <-> name ∈ headers /\ name <> "__proto__"%string)
       /\ (forall name n, row !! name = Some (Number n) -> n <> NaN)
       /\ exists line,
            line ∈ tail lines
            /\ length (parseCSVLine line) = length headers
            /\ forall i name,
                 headers !! i = Some name ->
                 (forall j, (i < j)%nat -> headers !! j <> Some name) ->
                 name <> "__proto__"%string ->
                 row !! name
                 = convert parseFloat isFinite <$> parseCSVLine line !! i.
Proof.
  intros lines headers. unfold parseCSV. fold lines. fold headers.
  split_and!.
  - etrans; [apply rowsLoop_length|]. destruct lines; simpl; lia.
  - apply convert_empty.
  - intros row (line & Hline & Hlen & ->)%rowsLoop_rows. split_and!.
    + intros name. by apply buildRow_keys.
    + intros name n. rewrite buildRow_lookup.
      destruct (String.eqb _ _); [done|].
      destruct (last _) as [hv|]; [|done]. cbn [fmap option_fmap option_map].
      intros [= Hconv]. by apply convert_Number in Hconv as (_ & ? & _).
    + exists line. split_and!; [done..|].
      intros i name Hi Hlast Hname. by apply buildRow_cell.
Qed.

(** ** X21: a rendered table is read back *)

Lemma trim_fixed s :
  startsWithSpace s = false -> endsWithSpace s = false -> trim s = s.
Proof.
  intros Hstart Hend. unfold trim.
  assert (trimStart s = s) as ->.
  { destruct s as [|c s]; [done|]. cbn in *. by rewrite Hstart. }
  clear Hstart. unfold endsWithSpace in Hend.
  induction s as [|c s IH]; [done|]. cbn [trimEnd].
  destruct s as [|c' s].
  - cbn in *. by rewrite Hend.
  - rewrite IH by done. done.
Qed.

Lemma lastChar_append s t :
  t <> EmptyString -> lastChar (String.append s t) = lastChar t.
Proof.
  intros Ht. induction s as [|c s IH]; [done|].
  rewrite append_cons. cbn [lastChar]. rewrite IH.
  destruct (String.append s t) eqn:Happ; [|done].
  destruct s; [|done]. rewrite append_nil_l in Happ. done.
Qed.

Lemma append_nonempty_r s t : t <> EmptyString -> String.append s t <> EmptyString.
Proof. destruct s; [by rewrite append_nil_l|by rewrite append_cons]. Qed.

Lemma lastChar_quoted f : lastChar (quoted f) = Some dquote.
Proof.
  unfold quoted. change (String dquote ?t) with (String.append (chr dquote) t).
  rewrite lastChar_append by (by apply append_nonempty_r).
  by rewrite lastChar_append.
Qed.

Lemma lastChar_join sep l x c :
  last l = Some x -> lastChar x = Some c -> lastChar (join sep l) = Some c.
Proof.
  intros Hlast Hx. induction l as [|s [|s' rest] IH]; [done| |].
  - by injection Hlast as ->.
  - rewrite join_cons2.
    assert (join sep (s' :: rest) <> EmptyString) as Hne.
    { intros Hnil. specialize (IH Hlast). by rewrite Hnil in IH. }
    rewrite !lastChar_append; [by apply IH|done|by apply append_nonempty_r].
Qed.

Lemma startsWithSpace_append s t :
  s <> EmptyString ->
  startsWithSpace (String.append s t) = startsWithSpace s.
Proof. by destruct s. Qed.

Lemma join_head_nonempty sep s rest :
  s <> EmptyString -> join sep (s :: rest) <> EmptyString.
Proof. intros Hs. destruct rest; [done|]. by destruct s. Qed.

Lemma startsWithSpace_join sep s rest :
  s <> EmptyString ->
  startsWithSpace (join sep (s :: rest)) = startsWithSpace s.
Proof.
  intros Hs. destruct rest; [done|].
  rewrite join_cons2. by apply startsWithSpace_append.
Qed.

Lemma last_map {A B} (f : A -> B) (l : list A) : last (map f l) = f <$> last l.
Proof. induction l as [|x [|y l] IH]; try done. Qed.

(** The line of a record ends with a double quote. *)
Lemma lastChar_record (record : list string) :
  record <> [] ->
  lastChar (join (chr ",") (map quoted record)) = Some dquote.
Proof.
  intros Hne. destruct (last record) as [f|] eqn:Hlast.
  - apply (lastChar_join _ _ (quoted f)); [|apply lastChar_quoted].
    by rewrite last_map, Hlast.
  - by apply last_None in Hlast.
Qed.

Lemma hasChar_quoted c f :
  (dquote =? c)%char = false -> hasChar c f = false ->
  hasChar c (quoted f) = false.
Proof.
  intros Hc Hf. unfold quoted. cbn [hasChar]. rewrite Hc.
  rewrite hasChar_append, Hf. cbn [hasChar chr]. by rewrite Hc.
Qed.

Lemma rowsLoop_records names (records : list (list string)) :
  names <> [] ->
  Forall
    (fun record =>
       length record = length names
       /\ Forall (fun f => hasChar dquote f = false
                           /\ hasChar "010" f = false) record)
    records ->
  rowsLoop parseFloat isFinite names
    (map (fun record => join (chr ",") (map quoted record)) records)
  = map (fun record => buildRow parseFloat isFinite names (map trim record))
      records.
Proof.
  intros Hnames. induction 1 as [|record records [Hlen Hfields] _ IH];
    [done|].
  cbn [map rowsLoop].
  unfold parseCSVLine at 1 2. rewrite parseLoop_quoted_fields.
  - cbn [app]. rewrite length_map, Hlen, Nat.eqb_refl. by rewrite IH.
  - destruct record; [|done]. by destruct names.
  - eapply Forall_impl; [done|]. by intros f [? _].
Qed.

Lemma startsWithSpace_cons_join sep s s' rest :
  startsWithSpace (String.append s (String.append (chr sep) (join (chr sep) (s' :: rest))))
  = if String.eqb s EmptyString then isSpace sep else startsWithSpace s.
Proof. by destruct s. Qed.

(** X21.  Take a table whose names hold neither comma nor line feed and
    whose records have one field for every name, holding neither double
    quote nor line feed, and write it as a line of the names separated by
    commas, followed by one line per record with every field between
    double quotes.  When that text does not begin with white space,
    [parseCSV] reads it back record by record: one row for every record,
    holding under each name the field of that column, trimmed and
    converted. *)
Theorem parseCSV_reads_back_a_rendered_table
  (names : list string) (records : list (list string)) :
  wellFormed names records ->
  startsWithSpace (render names records) = false ->
  parseCSV parseFloat isFinite (render names records)
  = map (fun record => buildRow parseFloat isFinite names (map trim record))
      records.
Proof.
  intros [Hnames Hfields] Hstart.
  set (lineOf := fun record : list string => join (chr ",") (map quoted record)).
  assert (Forall (fun s => hasChar "010" s = false)
            (join (chr ",") names :: map lineOf records)) as Hlines.
  { constructor.
    - apply hasChar_join; [done|].
      eapply Forall_impl; [exact Hnames|]. by intros h [_ ?].
    - apply Forall_map. eapply Forall_impl; [exact Hfields|].
      intros record [_ Hrecord]. unfold lineOf.
      apply hasChar_join; [done|]. apply Forall_map.
      eapply Forall_impl; [exact Hrecord|].
      intros f [_ ?]. by apply hasChar_quoted. }
  unfold parseCSV. unfold render in *. fold lineOf in Hstart |- *.
  destruct records as [|record records].
  { cbn [map join] in *. apply Forall_inv in Hlines.
    rewrite (split_none "010") by (by apply hasChar_trim). done. }
  cbn [map] in *. rewrite join_cons2 in Hstart.
  rewrite startsWithSpace_cons_join in Hstart.
  destruct (String.eqb_spec (join (chr ",") names) EmptyString) as [|Hfirst];
    [done|].
  assert (names <> []) as Hnonempty by (by intros ->).
  assert (Forall (fun record => record <> []) (record :: records)) as Hrecords.
  { eapply Forall_impl; [exact Hfields|]. intros r [Hlen _] ->.
    by destruct names. }
  rewrite trim_fixed.
  - rewrite (split_join "010"); [|done|done].
    cbn [head default from_option id tail]. unfold isComma.
    rewrite (split_join ","); [|done|].
    + by apply (rowsLoop_records names (record :: records)).
    + eapply Forall_impl; [exact Hnames|]. by intros h [? _].
  - rewrite join_cons2, startsWithSpace_cons_join.
    by rewrite (proj2 (String.eqb_neq _ _) Hfirst).
  - unfold endsWithSpace.
    destruct (last (record :: records)) as [r|] eqn:Hlast;
      [|by apply last_None in Hlast].
    rewrite (lastChar_join _ _ (lineOf r) dquote); [done| |].
    + change (lineOf record :: map lineOf records)
        with (map lineOf (record :: records)).
      by rewrite last_cons, last_map, Hlast.
    + apply lastChar_record.
      apply last_Some_elem_of in Hlast.
      rewrite Forall_forall in Hrecords. by apply Hrecords.
Qed.
End ParseCSVFacts.

Lemma parseCSV_reads_back_a_rendered_table_witness :
  parseCSV (fun _ => NaN) (fun _ => false)
    (render ["state"; "month_date_yyyymm"] [["Nevada, NV"; " 202507"]])
  = map (fun record =>
           buildRow (fun _ => NaN) (fun _ => false)
             ["state"; "month_date_yyyymm"] (map trim record))
      [["Nevada, NV"; " 202507"]].
Proof.
  apply (parseCSV_reads_back_a_rendered_table (fun _ => NaN) (fun _ => false)
           ["state"; "month_date_yyyymm"] [["Nevada, NV"; " 202507"]]).
  - split; repeat constructor.
  - reflexivity.
Defined.

(** ** The second pass of the reconciler *)

Lemma hardcoded_values_not_in_New_Mexico :
  map_Forall (fun _ canonical => includes canonical "Las Vegas, NM" = false)
    hardcodedMappings.
Proof.
  intros k v Hk. unfold hardcodedMappings in Hk.
  apply fold_insert_lookup in Hk as [Hin|Hempty];
    [|by rewrite lookup_empty in Hempty].
  assert (Forall (fun kv => includes kv.2 "Las Vegas, NM" = false)
            hardcodedEntries) as Hall.
  { unfold hardcodedEntries. repeat (constructor; [reflexivity|]). constructor. }
  rewrite Forall_forall in Hall. by apply (Hall (k, v)).
Qed.

#[local] Opaque hardcodedMappings.

Lemma consider_unfold csvName best cbsaName :
  consider csvName (normalize csvName) (extractCityNames csvName) best cbsaName
  = if skipped csvName cbsaName then best
    else if (best.2 <? candidateScore csvName cbsaName)%Z
         then (Some cbsaName, candidateScore csvName cbsaName)
         else best.
Proof. reflexivity. Qed.

(** The loop over the candidates keeps the first candidate of the highest
    score above the score it starts with. *)
Lemma best_fold csvName cbsaNames b0 s0 :
  let result :=
    fold_left (consider csvName (normalize csvName) (extractCityNames csvName))
      cbsaNames (b0, s0) in
  s0 <= result.2
  /\ (forall c, c ∈ cbsaNames -> skipped csvName c = false ->
        candidateScore csvName c <= result.2)
  /\ (result = (b0, s0)
      \/ exists c before after,
           cbsaNames = before ++ c :: after
           /\ result = (Some c, candidateScore csvName c)
           /\ skipped csvName c = false
           /\ s0 < candidateScore csvName c
           /\ forall c', c' ∈ before -> skipped csvName c' = false ->
                candidateScore csvName c' < candidateScore csvName c).
Proof.
  induction cbsaNames as [|x l IH] using rev_ind; cbv zeta.
  - cbn [fold_left snd]. split_and!; [lia| |by left].
    intros c Hc. by apply elem_of_nil in Hc.
  - rewrite fold_left_app. cbn [fold_left]. cbv zeta in IH.
    destruct (fold_left _ l (b0, s0)) as [b1 s1] eqn:Hfold.
    cbn [snd] in IH. destruct IH as (Hle & Hmax & Hbest).
    rewrite consider_unfold. cbn [snd].
    destruct (skipped csvName x) eqn:Hskip.
    { cbn [snd]. split_and!; [done| |].
      - intros c [Hc | ->%list_elem_of_singleton]%elem_of_app Hc';
          [by apply Hmax|congruence].
      - destruct Hbest as [?|(c & before & after & -> & Hres & ? & ? & ?)];
          [by left|right].
        exists c, before, (after ++ [x]).
        split_and!; [by rewrite <- app_assoc|done..]. }
    destruct (Z.ltb_spec s1 (candidateScore csvName x)) as [Hlt|Hge].
    { cbn [snd]. split_and!; [lia| |].
      - intros c [Hc | ->%list_elem_of_singleton]%elem_of_app Hc'; [|lia].
        specialize (Hmax c Hc Hc'). lia.
      - right. exists x, l, []. split_and!; [done..|lia|].
        intros c' Hc' Hs. specialize (Hmax c' Hc' Hs). lia. }
    cbn [snd]. split_and!; [done| |].
    + intros c [Hc | ->%list_elem_of_singleton]%elem_of_app Hc';
        [by apply Hmax|lia].
    + destruct Hbest as [?|(c & before & after & -> & Hres & ? & ? & ?)];
        [by left|right].
      exists c, before, (after ++ [x]).
      split_and!; [by rewrite <- app_assoc|done..].
Qed.

Lemma chosen_present csvName cbsaNames c :
  chosen csvName cbsaNames = Some c -> present (Some c) = true.
Proof.
  unfold chosen. destruct (bestCandidate csvName cbsaNames) as [b s].
  destruct (present b) eqn:Hp; cbn [andb]; [|done].
  destruct (75 <=? s)%Z; [|done]. by intros ->.
Qed.

Lemma mapped_get mapping csvName :
  wellKept mapping ->
  mapped (get mapping csvName)
  = bool_decide (is_Some (mapping !! csvName)) || inherited csvName.
Proof.
  intros Hkept. unfold get.
  destruct (mapping !! csvName) as [stored|] eqn:Hm.
  - rewrite (Hkept _ _ Hm).
    by rewrite bool_decide_eq_true_2 by (by eexists).
  - rewrite bool_decide_eq_false_2 by (by intros [? ?]).
    by destruct (inherited csvName).
Qed.

Lemma matchOne_lookup cbsaNames mapping csvName label :
  wellKept mapping ->
  matchOne cbsaNames mapping csvName !! label
  = if decide (csvName = label)
    then match mapping !! label with
         | Some stored => Some stored
         | None =>
             if inherited label then None
             else Name <$> chosen label cbsaNames
         end
    else mapping !! label.
Proof.
  intros Hkept. unfold matchOne, chosen. rewrite mapped_get by done.
  destruct (decide (csvName = label)) as [->|Hne].
  - destruct (mapping !! label) as [stored|] eqn:Hm.
    + by rewrite bool_decide_eq_true_2 by (by eexists).
    + rewrite bool_decide_eq_false_2 by (by intros [? ?]).
      destruct (inherited label) eqn:Hi; cbn [orb]; [done|].
      destruct (bestCandidate label cbsaNames) as [b s].
      destruct (present b && (75 <=? s)%Z) eqn:Hok; [|done].
      destruct b as [c|]; [|done].
      rewrite lookup_assign, decide_True by done.
      by rewrite (not_inherited_not_proto label).
  - destruct (bool_decide _ || inherited csvName); [done|].
    destruct (bestCandidate csvName cbsaNames) as [b s].
    destruct (present b && (75 <=? s)%Z); [|done].
    destruct b as [c|]; [|done]. by rewrite lookup_assign, decide_False.
Qed.

Lemma matchOne_kept cbsaNames mapping csvName :
  wellKept mapping -> wellKept (matchOne cbsaNames mapping csvName).
Proof.
  intros Hkept label stored. rewrite matchOne_lookup by done.
  destruct (decide (csvName = label)) as [->|Hne]; [|by apply Hkept].
  destruct (mapping !! label) as [stored'|] eqn:Hm.
  - intros [= <-]. by apply (Hkept label).
  - destruct (inherited label); [done|].
    destruct (chosen label cbsaNames) as [c|] eqn:Hc; [|done].
    intros [= <-]. by apply chosen_present in Hc.
Qed.

Lemma second_pass_lookup cbsaNames csvNames mapping label :
  wellKept mapping ->
  fold_left (matchOne cbsaNames) csvNames mapping !! label
  = match mapping !! label with
    | Some stored => Some stored
    | None =>
        if decide (label ∈ csvNames)
        then if inherited label then None else Name <$> chosen label cbsaNames
        else None
    end.
Proof.
  revert mapping. induction csvNames as [|n csvNames IH]; intros mapping Hkept;
    cbn [fold_left].
  - rewrite decide_False by apply not_elem_of_nil. by destruct (mapping !! label).
  - rewrite IH by (by apply matchOne_kept).
    rewrite matchOne_lookup by done.
    destruct (decide (n = label)) as [->|Hne].
    + rewrite (decide_True (P := label ∈ label :: csvNames)) by (by left).
      destruct (mapping !! label) as [stored|]; [done|].
      destruct (inherited label); [by destruct (decide (label ∈ csvNames))|].
      destruct (chosen label cbsaNames) as [c|]; [done|].
      by destruct (decide (label ∈ csvNames)).
    + destruct (mapping !! label) as [stored|]; [done|].
      destruct (decide (label ∈ csvNames)) as [Hin|Hnin].
      * by rewrite decide_True by (by right).
      * rewrite decide_False; [done|].
        intros [?|?]%elem_of_cons; congruence.
Qed.

Lemma override_mapped label stored :
  override label = Some stored -> mapped (Own stored) = true.
Proof.
  unfold override.
  destruct (hardcodedMappings !! label) as [canonical|] eqn:Hh.
  - intros [= <-]. by apply (hardcoded_values_present label).
  - destruct (inherited label && _); [|done]. by intros [= <-].
Qed.

Lemma first_pass_kept csvNames mapping :
  wellKept mapping -> wellKept (fold_left applyHardcoded csvNames mapping).
Proof.
  revert mapping. induction csvNames as [|n csvNames IH]; intros mapping Hkept;
    cbn [fold_left]; [done|].
  apply IH. intros label stored. rewrite applyHardcoded_lookup.
  destruct (decide (n = label)) as [->|Hne]; [|by apply Hkept].
  destruct (override label) as [stored'|] eqn:Ho; [|by apply Hkept].
  intros [= <-]. by apply override_mapped in Ho.
Qed.

Lemma first_pass_all csvNames mapping label :
  fold_left applyHardcoded csvNames mapping !! label
  = match (if decide (label ∈ csvNames) then override label else None) with
    | Some stored => Some stored
    | None => mapping !! label
    end.
Proof.
  revert mapping. induction csvNames as [|n csvNames IH]; intros mapping;
    cbn [fold_left].
  - by rewrite decide_False by apply not_elem_of_nil.
  - rewrite IH, applyHardcoded_lookup.
    destruct (decide (n = label)) as [->|Hne].
    + rewrite (decide_True (P := label ∈ label :: csvNames)) by (by left).
      destruct (override label) as [stored|].
      * by destruct (decide (label ∈ csvNames)).
      * by destruct (decide (label ∈ csvNames)).
    + destruct (decide (label ∈ csvNames)) as [Hin|Hnin].
      * by rewrite decide_True by (by right).
      * rewrite decide_False; [done|].
        intros [?|?]%elem_of_cons; congruence.
Qed.

(** The entry of a label in the mapping. *)
Lemma mapping_lookup csvNames cbsaNames label :
  createMetroNameMapping csvNames cbsaNames !! label
  = if decide (label ∈ csvNames)
    then match override label with
         | Some stored => Some stored
         | None =>
             if inherited label then None
             else Name <$> chosen label cbsaNames
         end
    else None.
Proof.
  unfold createMetroNameMapping.
  rewrite second_pass_lookup by (apply first_pass_kept; by intros ? ? ?).
  rewrite first_pass_all, lookup_empty.
  destruct (decide (label ∈ csvNames)); [|done].
  by destruct (override label).
Qed.

(** An ordinary label outside the table has no override. *)
Lemma override_ordinary label :
  hardcodedMappings !! label = None -> inherited label = false ->
  override label = None.
Proof. unfold override. by intros -> ->. Qed.

Lemma chosen_spec csvName cbsaNames c :
  chosen csvName cbsaNames = Some c ->
  c <> EmptyString
  /\ 75 <= candidateScore csvName c
  /\ exists before after,
       cbsaNames = before ++ c :: after
       /\ skipped csvName c = false
       /\ (forall c', c' ∈ before -> skipped csvName c' = false ->
             candidateScore csvName c' < candidateScore csvName c)
       /\ (forall c', c' ∈ after -> skipped csvName c' = false ->
             candidateScore csvName c' <= candidateScore csvName c).
Proof.
  unfold chosen, bestCandidate.
  pose proof (best_fold csvName cbsaNames None 0) as Hfold. cbv zeta in Hfold.
  destruct (fold_left _ cbsaNames (None, 0)) as [b s].
  cbn [snd] in Hfold. destruct Hfold as (_ & Hmax & Hbest).
  destruct (present b) eqn:Hp; cbn [andb]; [|done].
  destruct (Z.leb_spec 75 s) as [Hs|]; [|done]. intros ->.
  destruct Hbest as [Heq|(c' & before & after & -> & Heq & ? & ? & ?)].
  { congruence. }
  injection Heq as -> ->.
  split_and!.
  - intros ->. done.
  - done.
  - exists before, after. split_and!; [done..|].
    intros c'' Hin Hs'. apply Hmax; [|done].
    apply elem_of_app. right. by right.
Qed.

(** ** X22: the keys and the values of the mapping *)

(** X22.  Every key of the mapping is one of the listed labels.  Under a
    label that names a member of [Object.prototype] the mapping holds that
    member, not a name; [__proto__] is never a key.  Every other value is a
    name that is not the empty text: the override for a label of the
    override table, and one of the canonical names for any other label. *)
Theorem mapping_keys_are_labels_and_values_are_candidates
  (csvNames cbsaNames : list string) (label : string) (stored : target) :
  createMetroNameMapping csvNames cbsaNames !! label = Some stored ->
  label ∈ csvNames
  /\ label <> "__proto__"
  /\ match stored with
     | Member key => key = label /\ inherited label = true
     | Name c =>
         inherited label = false
         /\ c <> EmptyString
         /\ (hardcodedMappings !! label = Some c
             \/ (hardcodedMappings !! label = None /\ c ∈ cbsaNames))
     end.
Proof.
  rewrite mapping_lookup.
  destruct (decide (label ∈ csvNames)) as [Hin|]; [|done].
  unfold override.
  destruct (hardcodedMappings !! label) as [canonical|] eqn:Hh.
  - intros [= <-].
    pose proof (hardcoded_keys_ordinary _ _ Hh) as Hi. cbn in Hi.
    split_and!; [done| |done| |by left].
    + intros ->. by rewrite inherited_proto in Hi.
    + intros ->. by pose proof (hardcoded_values_present _ _ Hh).
  - destruct (inherited label) eqn:Hi; cbn [andb].
    + destruct (String.eqb_spec label "__proto__") as [|Hne]; [done|].
      cbn [negb]. intros [= <-]. by split_and!.
    + destruct (chosen label cbsaNames) as [c|] eqn:Hc; [|done].
      intros [= <-].
      apply chosen_spec in Hc as (Hne & _ & before & after & -> & _).
      split_and!; [done| |done..|].
      * intros ->. by rewrite inherited_proto in Hi.
      * right. split; [done|]. apply elem_of_app. right. by left.
Qed.

Lemma mapping_keys_are_labels_and_values_are_candidates_witness :
  ("Boise City, ID" ∈ ["Boise City, ID"; "constructor"]
   /\ "Boise City, ID" <> "__proto__"
   /\ inherited "Boise City, ID" = false
   /\ "Boise City, ID Metro Area" <> EmptyString
   /\ (hardcodedMappings !! "Boise City, ID" = Some "Boise City, ID Metro Area"
       \/ (hardcodedMappings !! "Boise City, ID" = None
           /\ "Boise City, ID Metro Area"
                ∈ ["Reno, NV Metro Area"; "Boise City, ID Metro Area"])))
  /\ ("constructor" ∈ ["Boise City, ID"; "constructor"]
      /\ "constructor" <> "__proto__"
      /\ "constructor" = "constructor" /\ inherited "constructor" = true).
Proof.
  split.
  - apply (mapping_keys_are_labels_and_values_are_candidates
             ["Boise City, ID"; "constructor"]
             ["Reno, NV Metro Area"; "Boise City, ID Metro Area"]
             "Boise City, ID" (Name "Boise City, ID Metro Area")).
    by vm_compute.
  - apply (mapping_keys_are_labels_and_values_are_candidates
             ["Boise City, ID"; "constructor"]
             ["Reno, NV Metro Area"; "Boise City, ID Metro Area"]
             "constructor" (Member "constructor")).
    by vm_compute.
Defined.

(** ** X23: which candidate a label gets *)

(** X23.  A listed label outside the override table that names no member
    of [Object.prototype] is mapped exactly when the first candidate, in
    the order of the canonical names, whose score no other candidate
    exceeds has a score of 75 or more and is not the empty text; it is
    then mapped to that candidate.  Candidates passed over by the Las
    Vegas guard do not count.  It is left unmapped exactly when every
    candidate that counts scores below 75, or when that first best
    candidate is the empty text. *)
Theorem scored_label_gets_the_first_best_candidate
  (csvNames cbsaNames : list string) (label : string) :
  label ∈ csvNames ->
  hardcodedMappings !! label = None ->
  inherited label = false ->
  let firstBest c :=
    exists before after,
      cbsaNames = before ++ c :: after
      /\ skipped label c = false
      /\ (forall c', c' ∈ before -> skipped label c' = false ->
            candidateScore label c' < candidateScore label c)
      /\ (forall c', c' ∈ after -> skipped label c' = false ->
            candidateScore label c' <= candidateScore label c) in
  match createMetroNameMapping csvNames cbsaNames !! label with
  | Some stored =>
      exists c,
        stored = Name c /\ c <> EmptyString
        /\ 75 <= candidateScore label c /\ firstBest c
  | None =>
      (forall c, c ∈ cbsaNames -> skipped label c = false ->
         candidateScore label c < 75)
      \/ (75 <= candidateScore label EmptyString /\ firstBest EmptyString)
  end.
Proof.
  intros Hin Hh Hi firstBest.
  rewrite mapping_lookup, decide_True, override_ordinary, Hi by done.
  destruct (chosen label cbsaNames) as [c|] eqn:Hchosen.
  - apply chosen_spec in Hchosen as (? & ? & ?). by exists c.
  - unfold chosen, bestCandidate in Hchosen.
    pose proof (best_fold label cbsaNames None 0) as Hfold. cbv zeta in Hfold.
    destruct (fold_left _ cbsaNames (None, 0)) as [b s].
    cbn [snd] in Hfold. destruct Hfold as (_ & Hmax & Hbest).
    destruct (Z.leb_spec 75 s) as [Hs|Hs].
    + right. rewrite andb_true_r in Hchosen.
      destruct Hbest as [Heq|(c & before & after & -> & Heq & Hskip & _ & Hlt)].
      { injection Heq as -> ->. lia. }
      injection Heq as -> ->.
      destruct (String.eqb_spec c EmptyString) as [->|Hne].
      * split; [done|]. exists before, after. split_and!; [done..|].
        intros c' Hc' Hs'. apply Hmax; [|done].
        apply elem_of_app. right. by right.
      * cbn [present] in Hchosen.
        rewrite (proj2 (String.eqb_neq _ _) Hne) in Hchosen. done.
    + left. intros c Hc Hskip. specialize (Hmax c Hc Hskip). lia.
Qed.

Lemma scored_label_gets_the_first_best_candidate_witness :
  exists c,
    createMetroNameMapping ["Boise City, ID"]
      [""; "Reno, NV Metro Area"; "Boise City, ID Metro Area"]
    !! "Boise City, ID" = Some (Name c)
    /\ c <> EmptyString
    /\ 75 <= candidateScore "Boise City, ID" c.
Proof.
  pose proof (scored_label_gets_the_first_best_candidate
                ["Boise City, ID"]
                [""; "Reno, NV Metro Area"; "Boise City, ID Metro Area"]
                "Boise City, ID"
                (list_elem_of_here _ _) eq_refl eq_refl) as Hthm.
  cbv zeta in Hthm.
  destruct (createMetroNameMapping _ _ !! _) as [stored|] eqn:Hlook.
  - destruct Hthm as (c & -> & Hne & Hscore & _). by exists c.
  - by vm_compute in Hlook.
Defined.

(** ** X24: the Las Vegas guard *)

Lemma las_vegas_not_inherited label :
  includes (toLowerCase label) "las vegas" = true -> inherited label = false.
Proof.
  intros Hlabel. apply bool_decide_eq_false. unfold prototypeNames.
  intros Hin.
  repeat (apply elem_of_cons in Hin as [->|Hin]; [by vm_compute in Hlabel|]).
  by apply elem_of_nil in Hin.
Qed.

(** X24.  A label that contains "las vegas", in any letter case, is never
    mapped to a name that contains "Las Vegas, NM": the guard passes such
    candidates over, and no override names one. *)
Theorem las_vegas_label_is_never_mapped_to_New_Mexico
  (csvNames cbsaNames : list string) (label : string) (stored : target) :
  includes (toLowerCase label) "las vegas" = true ->
  createMetroNameMapping csvNames cbsaNames !! label = Some stored ->
  exists c, stored = Name c /\ includes c "Las Vegas, NM" = false.
Proof.
  intros Hlabel. rewrite mapping_lookup.
  destruct (decide (label ∈ csvNames)) as [Hin|]; [|done].
  unfold override. rewrite (las_vegas_not_inherited label Hlabel).
  destruct (hardcodedMappings !! label) as [canonical|] eqn:Hh.
  - intros [= <-]. exists canonical. split; [done|].
    by apply (hardcoded_values_not_in_New_Mexico label).
  - cbn [andb]. destruct (chosen label cbsaNames) as [c|] eqn:Hc; [|done].
    intros [= <-]. exists c. split; [done|].
    apply chosen_spec in Hc as (_ & _ & before & after & _ & Hskip & _).
    unfold skipped in Hskip. by rewrite Hlabel in Hskip.
Qed.

Lemma las_vegas_label_is_never_mapped_to_New_Mexico_witness :
  exists c,
    Name "Las Vegas-Henderson-North Las Vegas, NV Metro Area" = Name c
    /\ includes c "Las Vegas, NM" = false.
Proof.
  apply (las_vegas_label_is_never_mapped_to_New_Mexico
           ["North Las Vegas, NV"]
           ["Las Vegas, NM Micro Area";
            "Las Vegas-Henderson-North Las Vegas, NV Metro Area"]
           "North Las Vegas, NV").
  - reflexivity.
  - by vm_compute.
Defined.

(** ** X25: the scores *)

Lemma scoreOf_cases csvNormalized csvCities cbsaName :
  scoreOf csvNormalized csvCities cbsaName
  = if String.eqb csvNormalized (normalize cbsaName) then 100
    else if includes (normalize cbsaName) csvNormalized then 80
    else match cityMatches csvCities (extractCityNames cbsaName) with
         | 0%nat => 0
         | 1%nat => 65
         | 2%nat => 80
         | _ => 90
         end.
Proof.
  unfold scoreOf. fold (cityMatches csvCities (extractCityNames cbsaName)).
  destruct (String.eqb _ _); [done|].
  destruct (includes _ _); [done|].
  destruct (cityMatches _ _) as [|[|[|k]]]; try done.
  destruct (Z.ltb_spec 0 (Z.of_nat (S (S (S k))))); lia.
Qed.

(** X25.  The score of a candidate is 0, 65, 80, 90 or 100.  It is 100
    exactly when the two normalised names are equal, and it reaches the
    threshold of 75 exactly when they are equal, or the candidate's
    normalised name contains the label's, or at least two tokens of the
    label match a token of the candidate: a single matching token scores 65
    and never maps a label. *)
Theorem score_is_one_of_five_values
  (csvNormalized : string) (csvCities : list string) (cbsaName : string) :
  let score := scoreOf csvNormalized csvCities cbsaName in
  let matches := cityMatches csvCities (extractCityNames cbsaName) in
  score ∈ [0; 65; 80; 90; 100]
  /\ (score = 100 <-> csvNormalized = normalize cbsaName)
  /\ (75 <= score
      <-> csvNormalized = normalize cbsaName
          \/ includes (normalize cbsaName) csvNormalized = true
          \/ (2 <= matches)%nat).
Proof.
  cbv zeta. rewrite scoreOf_cases.
  destruct (String.eqb_spec csvNormalized (normalize cbsaName)) as [Heq|Hne].
  { split_and!; [set_solver|done|]. split; [by left|done]. }
  destruct (includes (normalize cbsaName) csvNormalized).
  { split_and!; [set_solver|done|]. split; [by right; left|done]. }
  destruct (cityMatches csvCities (extractCityNames cbsaName)) as [|[|[|k]]].
  - split_and!; [set_solver|done|]. split; [lia|]. intros [?|[?|?]]; [done..|lia].
  - split_and!; [set_solver|done|]. split; [lia|]. intros [?|[?|?]]; [done..|lia].
  - split_and!; [set_solver|done|]. split; [right; right; lia|done].
  - split_and!; [set_solver|done|]. split; [right; right; lia|done].
Qed.

(** ** X26: a candidate with the same normalised name *)

Lemma candidateScore_bound csvName c : candidateScore csvName c <= 100.
Proof.
  unfold candidateScore. rewrite scoreOf_cases.
  destruct (String.eqb _ _); [done|]. destruct (includes _ _); [done|].
  by destruct (cityMatches _ _) as [|[|[|k]]].
Qed.

Lemma candidateScore_100 csvName c :
  candidateScore csvName c = 100 <-> normalize csvName = normalize c.
Proof.
  unfold candidateScore. rewrite scoreOf_cases.
  destruct (String.eqb_spec (normalize csvName) (normalize c)); [done|].
  destruct (includes _ _); [done|].
  by destruct (cityMatches _ _) as [|[|[|k]]].
Qed.

(** X26.  A listed label outside the override table that names no member
    of [Object.prototype], whose normalised name is not empty and equals
    that of some canonical name that the guard does not pass over, is
    always mapped, and to a canonical name of the same normalised name. *)
Theorem label_with_an_equal_normalised_candidate_is_mapped
  (csvNames cbsaNames : list string) (label c : string) :
  label ∈ csvNames ->
  hardcodedMappings !! label = None ->
  inherited label = false ->
  c ∈ cbsaNames ->
  skipped label c = false ->
  normalize c = normalize label ->
  normalize label <> EmptyString ->
  exists c',
    createMetroNameMapping csvNames cbsaNames !! label = Some (Name c')
    /\ c' ∈ cbsaNames
    /\ normalize c' = normalize label.
Proof.
  intros Hin Hh Hi Hc Hskip Hnorm Hne.
  rewrite mapping_lookup, decide_True, override_ordinary, Hi by done.
  unfold chosen, bestCandidate.
  pose proof (best_fold label cbsaNames None 0) as Hfold. cbv zeta in Hfold.
  destruct (fold_left _ cbsaNames (None, 0)) as [b s].
  cbn [snd] in Hfold. destruct Hfold as (_ & Hmax & Hbest).
  specialize (Hmax c Hc Hskip).
  rewrite (proj2 (candidateScore_100 label c)) in Hmax by done.
  destruct Hbest as [Heq|(c' & before & after & -> & Heq & _)].
  { injection Heq as -> ->. lia. }
  injection Heq as -> ->.
  pose proof (candidateScore_bound label c') as Hbound.
  assert (candidateScore label c' = 100) as Hscore by lia.
  pose proof (proj1 (candidateScore_100 label c') Hscore) as Hnorm'.
  exists c'. rewrite Hscore.
  assert (present (Some c') = true) as ->.
  { cbn [present]. apply negb_true_iff, String.eqb_neq. intros ->.
    apply Hne. by rewrite Hnorm'. }
  split_and!; [done| |done]. apply elem_of_app. right. by left.
Qed.

Lemma label_with_an_equal_normalised_candidate_is_mapped_witness :
  exists c',
    createMetroNameMapping ["Reno, NV"] ["Boise City, ID Metro Area"; "RENO NV"]
    !! "Reno, NV" = Some (Name c')
    /\ c' ∈ ["Boise City, ID Metro Area"; "RENO NV"]
    /\ normalize c' = normalize "Reno, NV".
Proof.
  apply (label_with_an_equal_normalised_candidate_is_mapped
           ["Reno, NV"] ["Boise City, ID Metro Area"; "RENO NV"]
           "Reno, NV" "RENO NV").
  - apply list_elem_of_here.
  - by vm_compute.
  - reflexivity.
  - apply list_elem_of_further, list_elem_of_here.
  - reflexivity.
  - reflexivity.
  - discriminate.
Defined.

(** ** X27: how a missing beta is drawn *)

(** X27.  When the five-year beta of the active listings is [null], or is
    exactly 0, the formatted entry holds 0 for it.  The first dashboard then
    fills the circle with the colour of the lowest band ([|| 0]), the
    dashboard with the metro view fills it with the colour of the band
    around 1 ([|| 1]), and both describe it as "Beta data unavailable". *)
Theorem missing_beta_is_drawn_as_a_number
  (this : processor) (state : string) (info : stateInfo) :
  betaOf (betas info active_listing_count) w5y = None
  \/ betaOf (betas info active_listing_count) w5y = Some zero ->
  match formatEntry this state info with
  | Normal entry =>
      beta entry active_listing_count w5y = zero
      /\ circleColor entry = "#00bfff"
      /\ markerColor entry = "#ffd700"
      /\ getBetaInterpretation (beta entry active_listing_count w5y)
         = "Beta data unavailable"
  | TypeError => latest_data info = None
  end.
Proof.
  intros Hbeta. unfold formatEntry.
  destruct (latest_data info) as [latest|]; [|done].
  cbn [mret completion_ret]. unfold circleColor, markerColor. cbn [beta].
  assert (orZero (betaOf (betas info active_listing_count) w5y) = zero) as ->.
  { by destruct Hbeta as [-> | ->]. }
  by split_and!.
Qed.

Lemma missing_beta_is_drawn_as_a_number_witness :
  match formatEntry Sample.threeMonths "Nevada"
          {| state_name := "Nevada";
             latest_data := Sample.state3 !! 0%nat;
             betas := fun _ => {| beta_5y := None; beta_3y := None;
                                  beta_1y := None |} |} with
  | Normal entry =>
      beta entry active_listing_count w5y = zero
      /\ circleColor entry = "#00bfff"
      /\ markerColor entry = "#ffd700"
      /\ getBetaInterpretation (beta entry active_listing_count w5y)
         = "Beta data unavailable"
  | TypeError =>
      latest_data
        {| state_name := "Nevada";
           latest_data := Sample.state3 !! 0%nat;
           betas := fun _ => {| beta_5y := None; beta_3y := None;
                                beta_1y := None |} |} = None
  end.
Proof.
  apply (missing_beta_is_drawn_as_a_number Sample.threeMonths "Nevada").
  left. reflexivity.
Defined.

(** ** X28: the colour bands and the wording *)

Lemma lessThan_spec (a b : Qc) :
  lessThan (Finite a) (Finite b) = true <-> (this a < this b)%Q.
Proof.
  cbn [lessThan]. rewrite Qlt_alt. by destruct (this a ?= this b)%Q.
Qed.

Lemma lessThan_literal (a : Qc) n d :
  (lessThan (Finite a) (literal n d) = true /\ (this a < n # d)%Q)
  \/ (lessThan (Finite a) (literal n d) = false /\ (n # d <= this a)%Q).
Proof.
  destruct (Qlt_le_dec (this a) (n # d)) as [Hlt|Hge]; [left|right];
    (split; [|done]).
  - apply lessThan_spec. cbn [this Q2Qc]. by rewrite Qred_correct.
  - apply not_true_iff_false. intros Hlt%lessThan_spec.
    cbn [this Q2Qc] in Hlt. rewrite Qred_correct in Hlt. lra.
Qed.

Lemma literal_lessThan (a : Qc) n d :
  (lessThan (literal n d) (Finite a) = true /\ (n # d < this a)%Q)
  \/ (lessThan (literal n d) (Finite a) = false /\ (this a <= n # d)%Q).
Proof.
  destruct (Qlt_le_dec (n # d) (this a)) as [Hlt|Hge]; [left|right];
    (split; [|done]).
  - apply lessThan_spec. cbn [this Q2Qc]. by rewrite Qred_correct.
  - apply not_true_iff_false. intros Hlt%lessThan_spec.
    cbn [this Q2Qc] in Hlt. rewrite Qred_correct in Hlt. lra.
Qed.

(** X28.  For a finite beta other than 0, the wording of
    [getBetaInterpretation] and the colour of [getBetaColor] tell the same
    story, "lower" with the two colours below 0.8 and "higher" with the two
    colours from 1.2 on, except at exactly 1.2, which is worded "similar"
    and coloured as the band above. *)
Theorem wording_and_colour_agree_except_at_the_upper_bound (b : Qc) :
  b <> 0%Qc ->
  (getBetaInterpretation (Finite b) = "Lower volatility than national market"
   <-> getBetaColor (Finite b) = "#00bfff"
       \/ getBetaColor (Finite b) = "#40e0d0")
  /\ (Finite b <> literal 12 10 ->
      (getBetaInterpretation (Finite b)
       = "Higher volatility than national market"
       <-> getBetaColor (Finite b) = "#ff6347"
           \/ getBetaColor (Finite b) = "#ff1493"))
  /\ getBetaInterpretation (literal 12 10)
     = "Similar volatility to national market"
  /\ getBetaColor (literal 12 10) = "#ff6347".
Proof.
  intros Hb. split_and!; [| |reflexivity..].
  - unfold getBetaInterpretation, getBetaColor, greaterThan.
    rewrite (proj2 (truthy_finite b) Hb). cbn [negb orb Csv.isNaN].
    destruct (lessThan_literal b 5 10) as [[E5 ?]|[E5 ?]],
      (lessThan_literal b 8 10) as [[E8 ?]|[E8 ?]],
      (lessThan_literal b 12 10) as [[E12 ?]|[E12 ?]],
      (lessThan_literal b 15 10) as [[E15 ?]|[E15 ?]],
      (literal_lessThan b 12 10) as [[G12 ?]|[G12 ?]];
      try (exfalso; lra);
      rewrite ?E5, ?E8, ?E12, ?E15, ?G12;
      (split; [intros; (done || (by left) || (by right))|intros [?|?]; done]).
  - intros Hne.
    assert (~ (this b == 12 # 10)%Q) as Hq.
    { intros Heq. apply Hne. unfold literal. f_equal.
      apply Qc_is_canon. rewrite Heq. cbn [this Q2Qc].
      by rewrite Qred_correct. }
    unfold getBetaInterpretation, getBetaColor, greaterThan.
    rewrite (proj2 (truthy_finite b) Hb). cbn [negb orb Csv.isNaN].
    destruct (lessThan_literal b 5 10) as [[E5 ?]|[E5 ?]],
      (lessThan_literal b 8 10) as [[E8 ?]|[E8 ?]],
      (lessThan_literal b 12 10) as [[E12 ?]|[E12 ?]],
      (lessThan_literal b 15 10) as [[E15 ?]|[E15 ?]],
      (literal_lessThan b 12 10) as [[G12 ?]|[G12 ?]];
      try (exfalso; lra);
      rewrite ?E5, ?E8, ?E12, ?E15, ?G12;
      (split; [intros; (done || (by left) || (by right))|intros [?|?]; done]).
Qed.

Lemma wording_and_colour_agree_except_at_the_upper_bound_witness :
  (getBetaInterpretation (Finite 1%Qc)
   = "Lower volatility than national market"
   <-> getBetaColor (Finite 1%Qc) = "#00bfff"
       \/ getBetaColor (Finite 1%Qc) = "#40e0d0")
  /\ (Finite 1%Qc <> literal 12 10 ->
      (getBetaInterpretation (Finite 1%Qc)
       = "Higher volatility than national market"
       <-> getBetaColor (Finite 1%Qc) = "#ff6347"
           \/ getBetaColor (Finite 1%Qc) = "#ff1493"))
  /\ getBetaInterpretation (literal 12 10)
     = "Similar volatility to national market"
  /\ getBetaColor (literal 12 10) = "#ff6347".
Proof.
  apply (wording_and_colour_agree_except_at_the_upper_bound 1%Qc).
  discriminate.
Defined.

(** ** X29: the size classes of the metro areas *)

Section SortedBy.
Context {A : Type} (cmp : A -> A -> Z) (P : A -> Prop) (R : A -> A -> Prop).
Context (Hle : forall x y, P x -> P y -> cmp x y <= 0 -> R x y).
Context (Hgt : forall x y, P x -> P y -> 0 < cmp x y -> R y x).

Lemma sortInsert_Sorted x l :
  P x -> Forall P l -> Sorted R l -> Sorted R (sortInsert cmp x l).
Proof.
  intros Hx Hall. induction 1 as [|y l Hl IH Hy]; cbn [sortInsert].
  - repeat constructor.
  - apply Forall_cons in Hall as [Hy' Hall].
    destruct (Z.leb_spec (cmp x y) 0) as [Hxy|Hxy].
    + constructor; [by constructor|]. constructor. by apply Hle.
    + constructor; [by apply IH|].
      destruct Hy as [|z l' Hz]; cbn [sortInsert].
      * constructor. by apply Hgt.
      * destruct (Z.leb_spec (cmp x z) 0); constructor; [by apply Hgt|done].
Qed.

Lemma Array_sort_Sorted l : Forall P l -> Sorted R (Array_sort cmp l).
Proof.
  induction 1 as [|x l Hx Hall IH]; [constructor|].
  change (Array_sort cmp (x :: l)) with (sortInsert cmp x (Array_sort cmp l)).
  apply sortInsert_Sorted; [done| |done].
  by rewrite Array_sort_Permutation.
Qed.
End SortedBy.

Lemma Qc_sgn_sub (p q : Qc) :
  match Qc_sgn (q - p) with
  | Lt => (q < p)%Qc
  | Eq => q = p
  | Gt => (p < q)%Qc
  end.
Proof.
  unfold Qc_sgn. destruct (Qcompare_spec (this (q - p)) 0) as [H|H|H].
  - apply Qc_is_canon. assert (this (q - p) == this q - this p)%Q as Heq.
    { unfold Qcminus, Qcplus, Qcopp. cbn [this Q2Qc].
      rewrite !Qred_correct. reflexivity. }
    rewrite Heq in H. lra.
  - unfold Qclt. assert (this (q - p) == this q - this p)%Q as Heq.
    { unfold Qcminus, Qcplus, Qcopp. cbn [this Q2Qc].
      rewrite !Qred_correct. reflexivity. }
    rewrite Heq in H. lra.
  - unfold Qclt. assert (this (q - p) == this q - this p)%Q as Heq.
    { unfold Qcminus, Qcplus, Qcopp. cbn [this Q2Qc].
      rewrite !Qred_correct. reflexivity. }
    rewrite Heq in H. lra.
Qed.

Lemma ceil_of_share (n : nat) (k : Z) (d : positive) :
  Math_ceil (mul (ofNat n) (literal k d))
  = - ((- (Z.of_nat n * k)) / Z.pos d).
Proof.
  unfold Math_ceil, ofNat, ofZ, literal, Qc_ofZ. cbn [mul].
  unfold Qcmult. cbn [this Q2Qc].
  rewrite (Qceiling_comp _ (inject_Z (Z.of_nat n) * (k # d))%Q)
    by (by rewrite !Qred_correct).
  unfold Qceiling, Qfloor. cbn. by rewrite Pos.mul_1_l.
Qed.

Lemma largeCount_value (n : nat) :
  Z.to_nat (Math_ceil (mul (ofNat n) (literal 5 100))) = ((n + 19) / 20)%nat.
Proof.
  rewrite ceil_of_share. apply Nat2Z.inj.
  rewrite Nat2Z.inj_div, Nat2Z.inj_add.
  change (Z.of_nat 19) with 19. change (Z.of_nat 20) with 20.
  rewrite Z2Nat.id; Z.div_mod_to_equations; lia.
Qed.

Lemma mediumCount_value (n : nat) :
  Z.to_nat (Math_ceil (mul (ofNat n) (literal 10 100))) = ((n + 9) / 10)%nat.
Proof.
  rewrite ceil_of_share. apply Nat2Z.inj.
  rewrite Nat2Z.inj_div, Nat2Z.inj_add.
  change (Z.of_nat 9) with 9. change (Z.of_nat 10) with 10.
  rewrite Z2Nat.id; Z.div_mod_to_equations; lia.
Qed.

Lemma byCountDescending_le a b :
  (exists p, count a = Finite p) -> (exists q, count b = Finite q) ->
  byCountDescending a b <= 0 -> notSmaller a b.
Proof.
  intros [p Hp] [q Hq]. unfold byCountDescending, notSmaller.
  rewrite Hp, Hq. unfold sub. cbn [neg add signOf].
  pose proof (Qc_sgn_sub p q) as Hs. fold (Qcminus q p).
  destruct (Qc_sgn (q - p)); intros Hcmp; [| |lia].
  - exists p, q. split_and!; [done..|]. rewrite Hs. apply Qcle_refl.
  - exists p, q. split_and!; [done..|]. by apply Qclt_le_weak.
Qed.

Lemma byCountDescending_gt a b :
  (exists p, count a = Finite p) -> (exists q, count b = Finite q) ->
  0 < byCountDescending a b -> notSmaller b a.
Proof.
  intros [p Hp] [q Hq]. unfold byCountDescending, notSmaller.
  rewrite Hp, Hq. unfold sub. cbn [neg add signOf].
  pose proof (Qc_sgn_sub p q) as Hs. fold (Qcminus q p).
  destruct (Qc_sgn (q - p)); intros Hcmp; [lia|lia|].
  exists q, p. split_and!; [done..|]. by apply Qclt_le_weak.
Qed.

Lemma large_share_bounds (n : nat) :
  ((n + 19) / 20 <= n)%nat /\ ((1 <= n)%nat -> (1 <= (n + 19) / 20)%nat).
Proof.
  pose proof (Nat.div_mod_eq (n + 19) 20) as Hdiv.
  pose proof (Nat.mod_upper_bound (n + 19) 20). lia.
Qed.

Lemma slices_cover {A} (a b : nat) (l : list A) :
  slice 0 a l ++ slice a (a + b) l ++ drop (a + b) l = l.
Proof.
  unfold slice. rewrite drop_0, Nat.sub_0_r.
  replace (a + b - a)%nat with b by lia.
  rewrite <- drop_drop, (take_drop b). apply take_drop.
Qed.

(** X29.  [categorizeMetrosBySize] puts every metro area in exactly one of
    its three classes: read one after the other, the classes list the
    names of all the areas, each once, ordered by count of active listings
    with the largest first (a missing or zero count is taken as 0).  Of [n]
    areas the first class holds the first [ceil(n / 20)], so it is never
    empty when there is an area at all, and the second class holds the next
    [ceil(n / 10)], or what is left of them. *)
Theorem size_classes_split_the_ranked_metro_areas
  (metroData : list (string * formattedMetroEntry)) :
  Forall (fun entry =>
            exists q, current (numbers entry.2) active_listing_count = Finite q)
    metroData ->
  let classes := categorizeMetrosBySize metroData in
  let n := length metroData in
  (exists ranked : list sized,
     ranked ≡ₚ map (fun entry =>
                      {| name := entry.1;
                         count :=
                           orElse (current (numbers entry.2)
                                     active_listing_count) zero |})
                 metroData
     /\ Sorted notSmaller ranked
     /\ large classes ++ medium classes ++ small classes = map name ranked)
  /\ large classes ++ medium classes ++ small classes ≡ₚ map fst metroData
  /\ length (large classes) = ((n + 19) / 20)%nat
  /\ length (medium classes)
     = Nat.min ((n + 9) / 10) (n - (n + 19) / 20)
  /\ (metroData <> [] -> large classes <> []).
Proof.
  intros Hfinite classes n.
  set (withCounts :=
         map (fun entry : string * formattedMetroEntry =>
                {| name := entry.1;
                   count :=
                     orElse (current (numbers entry.2) active_listing_count)
                       zero |}) metroData).
  set (ranked := Array_sort byCountDescending withCounts).
  assert (length ranked = n) as Hlen.
  { unfold ranked, withCounts. by rewrite Array_sort_length, length_map. }
  assert (classes
          = {| large := map name (slice 0 ((n + 19) / 20) ranked);
               medium :=
                 map name
                   (slice ((n + 19) / 20) ((n + 19) / 20 + (n + 9) / 10) ranked);
               small :=
                 map name (drop ((n + 19) / 20 + (n + 9) / 10) ranked) |})
    as ->.
  { unfold classes, categorizeMetrosBySize. fold withCounts. fold ranked.
    by rewrite Hlen, largeCount_value, mediumCount_value. }
  cbn [large medium small].
  assert (map name (slice 0 ((n + 19) / 20) ranked)
          ++ map name
               (slice ((n + 19) / 20) ((n + 19) / 20 + (n + 9) / 10) ranked)
          ++ map name (drop ((n + 19) / 20 + (n + 9) / 10) ranked)
          = map name ranked) as Hall.
  { by rewrite <- !map_app, slices_cover. }
  destruct (large_share_bounds n) as [Hlarge Hone].
  split_and!.
  - exists ranked. split_and!; [apply Array_sort_Permutation| |done].
    apply (Array_sort_Sorted byCountDescending
             (fun a => exists p, count a = Finite p)).
    + apply byCountDescending_le.
    + apply byCountDescending_gt.
    + unfold withCounts. apply Forall_map.
      eapply Forall_impl; [exact Hfinite|].
      intros entry [q Hq]. cbn [count]. rewrite Hq. unfold orElse.
      destruct (truthy (Finite q)); by eexists.
  - rewrite Hall. unfold ranked. rewrite Array_sort_Permutation.
    unfold withCounts. by rewrite map_map.
  - unfold slice. rewrite length_map, length_take, drop_0, Hlen. lia.
  - unfold slice. rewrite length_map, length_take, length_drop, Hlen. lia.
  - intros Hne Hnil. apply (f_equal length) in Hnil.
    unfold slice in Hnil.
    rewrite length_map, length_take, drop_0, Hlen in Hnil.
    assert (1 <= n)%nat as Hn
      by (unfold n; destruct metroData; [done|simpl; lia]).
    specialize (Hone Hn). cbn [length] in Hnil. lia.
Qed.

Lemma size_classes_split_the_ranked_metro_areas_witness :
  let classes := categorizeMetrosBySize SampleMetros.threeMetros in
  let n := length SampleMetros.threeMetros in
  (exists ranked : list sized,
     ranked ≡ₚ map (fun entry =>
                      {| name := entry.1;
                         count :=
                           orElse (current (numbers entry.2)
                                     active_listing_count) zero |})
                 SampleMetros.threeMetros
     /\ Sorted notSmaller ranked
     /\ large classes ++ medium classes ++ small classes = map name ranked)
  /\ large classes ++ medium classes ++ small classes
     ≡ₚ map fst SampleMetros.threeMetros
  /\ length (large classes) = ((n + 19) / 20)%nat
  /\ length (medium classes)
     = Nat.min ((n + 9) / 10) (n - (n + 19) / 20)
  /\ (SampleMetros.threeMetros <> [] -> large classes <> []).
Proof.
  apply (size_classes_split_the_ranked_metro_areas SampleMetros.threeMetros).
  repeat constructor; by eexists.
Defined.

(** ** X30: normalised names *)

Lemma isLowerOrDigit_not_space c :
  isLowerOrDigit c = true -> isSpace c = false /\ (c =? " ")%char = false.
Proof.
  destruct c as [[] [] [] [] [] [] [] []]; vm_compute; intros; done.
Qed.

Lemma isLowerOrDigit_lowerChar c : isLowerOrDigit c = true -> lowerChar c = c.
Proof.
  destruct c as [[] [] [] [] [] [] [] []]; vm_compute; intros; done.
Qed.

Lemma isAlnumOrSpace_cases c :
  isAlnumOrSpace c = isLowerOrDigit c || isSpace c.
Proof. reflexivity. Qed.

Lemma singleSpaced_weaken a s : singleSpaced true s = true -> singleSpaced a s = true.
Proof.
  destruct s as [|c s]; [done|]. cbn [singleSpaced].
  destruct (c =? " ")%char; [done|]. done.
Qed.

Lemma keepOnly_kept keep s :
  Forall (fun c => keep c = true) (list_ascii_of_string (keepOnly keep s)).
Proof.
  induction s as [|c s IH]; cbn [keepOnly]; [constructor|].
  destruct (keep c) eqn:Hc; [|done]. cbn [list_ascii_of_string].
  by constructor.
Qed.

Lemma collapseFrom_singleSpaced inRun s :
  Forall (fun c => isAlnumOrSpace c = true) (list_ascii_of_string s) ->
  singleSpaced inRun (collapseFrom inRun s) = true.
Proof.
  revert inRun. induction s as [|c s IH]; intros inRun Hall; [done|].
  cbn [list_ascii_of_string] in Hall. apply Forall_cons in Hall as [Hc Hall].
  cbn [collapseFrom]. destruct (isSpace c) eqn:Hspace.
  - destruct inRun; [by apply IH|].
    cbn [singleSpaced]. cbn [Ascii.eqb Bool.eqb negb andb]. by apply IH.
  - rewrite isAlnumOrSpace_cases, Hspace, orb_false_r in Hc.
    cbn [singleSpaced].
    destruct (isLowerOrDigit_not_space c Hc) as [_ ->].
    rewrite Hc. by apply IH.
Qed.

Lemma singleSpaced_space_char a c s :
  singleSpaced a (String c s) = true -> isSpace c = (c =? " ")%char.
Proof.
  cbn [singleSpaced]. destruct (c =? " ")%char eqn:Hc.
  - apply Ascii.eqb_eq in Hc as ->. done.
  - intros [Hl _]%andb_true_iff. by apply isLowerOrDigit_not_space in Hl as [-> _].
Qed.

Lemma trimStart_singleSpaced a s :
  singleSpaced a s = true -> singleSpaced true (trimStart s) = true.
Proof.
  revert a. induction s as [|c s IH]; intros a Hs; [done|].
  cbn [trimStart]. rewrite (singleSpaced_space_char _ _ _ Hs).
  cbn [singleSpaced] in *. destruct (c =? " ")%char eqn:Hc.
  - apply andb_true_iff in Hs as [_ Hs]. by apply (IH true).
  - cbn [singleSpaced]. by rewrite Hc.
Qed.

Lemma trimEnd_singleSpaced a s :
  singleSpaced a s = true -> singleSpaced a (trimEnd s) = true.
Proof.
  revert a. induction s as [|c s IH]; intros a Hs; [done|].
  pose proof (singleSpaced_space_char _ _ _ Hs) as Hspace.
  cbn [trimEnd]. cbn [singleSpaced] in Hs.
  destruct (c =? " ")%char eqn:Hc.
  - apply andb_true_iff in Hs as [Ha Hs]. specialize (IH true Hs).
    destruct (trimEnd s) as [|c' t]; [by rewrite Hspace|].
    cbn [singleSpaced] in *. by rewrite Hc, Ha.
  - apply andb_true_iff in Hs as [Hl Hs]. specialize (IH false Hs).
    destruct (trimEnd s) as [|c' t].
    + rewrite Hspace. cbn [singleSpaced chr]. by rewrite Hc, Hl.
    + cbn [singleSpaced] in *. by rewrite Hc, Hl.
Qed.

Lemma singleSpaced_toLowerCase a s : singleSpaced a s = true -> toLowerCase s = s.
Proof.
  revert a. induction s as [|c s IH]; intros a Hs; [done|].
  cbn [toLowerCase singleSpaced] in *. destruct (c =? " ")%char eqn:Hc.
  - apply Ascii.eqb_eq in Hc as ->. apply andb_true_iff in Hs as [_ Hs].
    by rewrite (IH true).
  - apply andb_true_iff in Hs as [Hl Hs].
    by rewrite (isLowerOrDigit_lowerChar c Hl), (IH false).
Qed.

Lemma singleSpaced_keepOnly a s :
  singleSpaced a s = true -> keepOnly isAlnumOrSpace s = s.
Proof.
  revert a. induction s as [|c s IH]; intros a Hs; [done|].
  cbn [keepOnly singleSpaced] in *. destruct (c =? " ")%char eqn:Hc.
  - apply Ascii.eqb_eq in Hc as ->. apply andb_true_iff in Hs as [_ Hs].
    cbn. by rewrite (IH true).
  - apply andb_true_iff in Hs as [Hl Hs].
    rewrite isAlnumOrSpace_cases, Hl. cbn [orb]. by rewrite (IH false).
Qed.

Lemma singleSpaced_collapseFrom a s :
  singleSpaced a s = true -> collapseFrom a s = s.
Proof.
  revert a. induction s as [|c s IH]; intros a Hs; [done|].
  pose proof (singleSpaced_space_char _ _ _ Hs) as Hspace.
  cbn [collapseFrom singleSpaced] in *. rewrite Hspace.
  destruct (c =? " ")%char eqn:Hc.
  - apply Ascii.eqb_eq in Hc as ->. apply andb_true_iff in Hs as [Ha Hs].
    destruct a; [done|]. by rewrite (IH true).
  - apply andb_true_iff in Hs as [Hl Hs]. by rewrite (IH false).
Qed.

Lemma singleSpaced_start s :
  singleSpaced true s = true -> startsWithSpace s = false.
Proof.
  destruct s as [|c s]; [done|]. intros Hs.
  cbn [startsWithSpace]. rewrite (singleSpaced_space_char _ _ _ Hs).
  cbn [singleSpaced] in Hs. by destruct (c =? " ")%char.
Qed.

(** X30.  [normalize] returns words of lower-case letters and digits
    separated by single spaces, with no space at either end; it leaves a
    name of that shape as it is, so normalising twice is normalising
    once. *)
Theorem normalize_gives_a_normal_form_and_is_idempotent (name : string) :
  isNormalised (normalize name) = true
  /\ (isNormalised name = true -> normalize name = name)
  /\ normalize (normalize name) = normalize name.
Proof.
  assert (forall s, isNormalised (normalize s) = true) as Hshape.
  { intros s. unfold isNormalised, normalize, trim, collapseSpaces.
    rewrite trimEnd_last. cbn [negb]. rewrite andb_true_r.
    apply trimEnd_singleSpaced, (trimStart_singleSpaced false).
    apply collapseFrom_singleSpaced, keepOnly_kept. }
  assert (forall s, isNormalised s = true -> normalize s = s) as Hfixed.
  { intros s [Hs Hend%negb_true_iff]%andb_true_iff. unfold normalize.
    rewrite (singleSpaced_toLowerCase _ _ Hs), (singleSpaced_keepOnly _ _ Hs).
    unfold collapseSpaces.
    rewrite (singleSpaced_collapseFrom false) by (by apply singleSpaced_weaken).
    apply trim_fixed; [by apply singleSpaced_start|done]. }
  split_and!; [apply Hshape|apply Hfixed|apply Hfixed, Hshape].
Qed.
